(** * AttentionSegmentation: reader, classifier glue and attention visualizer

    A shallow embedding of the three hand-written pieces of the repository

      - [AttentionSegmentation/visualization/visualize_attns.py]
        ([_attn_to_rgb] and the colour table, [_get_word_color],
        [colorize_text] and the writers of the pages),
      - [AttentionSegmentation/model/gumbel_softmax_classifier.py]
        ([BaseClassifier.__init__], [forward], [decode]),
      - [AttentionSegmentation/reader/weak_conll_reader.py]
        ([_is_divider], [WeakConll2003DatasetReader.__init__] and
        [_read]),

    followed by the properties proved about them.  Python values are
    modelled as the code has them: [str] as [string] (one [ascii] per code
    point below 256), Python [float] as the kernel's binary64 [float],
    [dict]s as [gmap]s, exceptions as the [Raise] branch of a result type,
    and the lists a [SequenceLabelField] holds as locations of a store,
    because the reader mutates them after the instances are built. *)

From Stdlib Require Import ZArith Floats Ascii HexadecimalString DecimalString.
From stdpp Require Import base strings list gmap sorting.

Set Warnings "-inexact-float".

(** ** Python runtime: exceptions, results, a few builtins *)

Module Py.

(** The exception classes the modelled code can raise.  [PdbSetTrace]
    stands for reaching [pdb.set_trace()]: control is handed to the
    interactive debugger and the function yields no value. *)
Inductive exn : Type :=
| NotImplementedError (msg : string)
| AttributeError (name : string)
| RuntimeError (msg : string)
| NameError (name : string)
| ConfigurationError (msg : string)
| KeyError (key : string)
| ValueError (msg : string)
| OverflowError (msg : string)
| TypeError (msg : string)
| IndexError
| AssertionError
| PdbSetTrace.

Inductive res (A : Type) : Type :=
| Ok (a : A)
| Raise (e : exn).
Arguments Ok {A} a.
Arguments Raise {A} e.

#[global] Instance res_ret : MRet res := fun A a => Ok a.
#[global] Instance res_bind : MBind res := fun A B f m =>
  match m with Ok a => f a | Raise e => Raise e end.
#[global] Instance res_fmap : FMap res := fun A B f m =>
  match m with Ok a => Ok (f a) | Raise e => Raise e end.

Definition is_ok {A} (r : res A) : bool :=
  match r with Ok _ => true | Raise _ => false end.

(** [for x in l: f(x)] collecting the results; the first exception ends
    the loop. *)
Fixpoint mapM {A B} (f : A → res B) (l : list A) : res (list B) :=
  match l with
  | [] => Ok []
  | x :: l' => y ← f x; ys ← mapM f l'; mret (y :: ys)
  end.

(** [d[k]] on a dict with string keys. *)
Definition dict_get {V} (d : gmap string V) (k : string) : res V :=
  match d !! k with
  | Some v => Ok v
  | None => Raise (KeyError k)
  end.

(** [l[i]] for a non-negative index. *)
Definition list_get {A} (l : list A) (i : nat) : res A :=
  match l !! i with
  | Some v => Ok v
  | None => Raise IndexError
  end.

(** [s.startswith(p)] *)
Fixpoint startswith (p s : string) : bool :=
  match p, s with
  | EmptyString, _ => true
  | String a p', String b s' => if decide (a = b) then startswith p' s' else false
  | String _ _, EmptyString => false
  end.

(** [s[n:]] for [n >= 0]. *)
Fixpoint str_drop (n : nat) (s : string) : string :=
  match n, s with
  | O, _ => s
  | S n', String _ s' => str_drop n' s'
  | S _, EmptyString => EmptyString
  end.

(** [hex(z)]: lower-case digits after ["0x"], a leading ["-"] for a
    negative number. *)
Definition hex_digits (n : N) : string :=
  HexadecimalString.NilZero.string_of_uint (N.to_hex_uint n).

Definition py_hex (z : Z) : string :=
  if (z <? 0)%Z then "-0x" +:+ hex_digits (Z.to_N (- z))
  else "0x" +:+ hex_digits (Z.to_N z).

(** [str(n)] for a natural number. *)
Definition str_of_nat (n : nat) : string :=
  DecimalString.NilZero.string_of_uint (Nat.to_uint n).

(** [int(f)] on a float: truncation towards zero; NaN and the infinities
    raise. *)
Definition int_of_float (f : float) : res Z :=
  match Prim2SF f with
  | S754_nan => Raise (ValueError "cannot convert float NaN to integer")
  | S754_infinity _ => Raise (OverflowError "cannot convert float infinity to integer")
  | S754_zero _ => Ok 0%Z
  | S754_finite s m e =>
      let a := if (0 <=? e)%Z then Z.shiftl (Z.pos m) e
               else Z.shiftr (Z.pos m) (- e) in
      Ok (if s then (- a)%Z else a)
  end.

(** A JSON number as [json.load] returns it: an [int] or a [float]. *)
Inductive num : Type :=
| PyInt (z : Z)
| PyFloat (f : float).

(** [int(x)] on a number. *)
Definition int_of_num (x : num) : res Z :=
  match x with
  | PyInt z => Ok z
  | PyFloat f => int_of_float f
  end.

(** [math.isfinite(x)]: an [int], or a float that is neither NaN nor an
    infinity. *)
Definition is_finite (x : num) : bool :=
  match x with
  | PyInt _ => true
  | PyFloat f =>
      match Prim2SF f with
      | S754_nan | S754_infinity _ => false
      | _ => true
      end
  end.

End Py.
Import Py.

(** ** visualize_attns.py *)

Module Visualizer.

(** The module-level colour table. *)
Definition colors2rgb : gmap string string :=
  <["yellowGreen" := "#e0ff4f"]>   (* Both tag *)
  (<["brickRed" := "#d2405f"]>     (* Pred no tag, gold tag *)
  (<["purple" := "#712f79"]> ∅)).  (* Pred tag, gold no tag *)

Definition newline : Ascii.ascii := Ascii.ascii_of_nat 10.

(** [re.sub(".*-", "", s)].  [.] does not match a newline and [.*] is
    greedy, so within each line everything up to and including the last
    ["-"] is removed; lines without a ["-"] and the newlines themselves
    stay.  [seg] is what is kept so far of the current line. *)
Fixpoint re_sub_upto_dash (seg s : string) : string :=
  match s with
  | EmptyString => seg
  | String c s' =>
      if decide (c = "-"%char) then re_sub_upto_dash "" s'
      else if decide (c = newline) then seg +:+ String c (re_sub_upto_dash "" s')
      else re_sub_upto_dash (seg +:+ String c "") s'
  end.

Definition strip_prefix (tag : string) : string := re_sub_upto_dash "" tag.

(** [abs(attn_weights) * 255]: exact on an [int], a binary64 product on a
    [float] ([255] is converted to [255.0]). *)
Definition scale (attn_weights : num) : num :=
  match attn_weights with
  | PyInt z => PyInt (Z.abs z * 255)
  | PyFloat f => PyFloat (PrimFloat.mul (PrimFloat.abs f) 255)
  end.

(** [str(hex(int(abs(attn_weights) * 255)))[2:]] *)
Definition attn_hex (attn_weights : num) : res string :=
  n ← int_of_num (scale attn_weights);
  mret (str_drop 2 (py_hex n)).

Definition _attn_to_rgb (attn_weights : num) (pred_tag gold_tag : string)
  : res string :=
  let pred_tag := strip_prefix pred_tag in
  let gold_tag := strip_prefix gold_tag in
  attn_hex ← attn_hex attn_weights;
  if decide (pred_tag = gold_tag) then
    if decide (pred_tag ≠ "O") then dict_get colors2rgb "yellowGreen"
    else Ok ("#22aadd" +:+ attn_hex)
  else
    if decide (pred_tag = "O") then dict_get colors2rgb "brickRed"
    else if decide (gold_tag = "O") then dict_get colors2rgb "purple"
    else Raise PdbSetTrace.

(** The three highlight colours of the page's key. *)
Definition both_correct_color : string := "#e0ff4f".
Definition missed_color : string := "#d2405f".
Definition spurious_color : string := "#712f79".

Definition is_highlight (c : string) : Prop :=
  c = both_correct_color ∨ c = missed_color ∨ c = spurious_color.

(** Strings without a ["-"], and strings of one line. *)
Fixpoint no_dash (s : string) : Prop :=
  match s with
  | EmptyString => True
  | String c s' => c ≠ "-"%char ∧ no_dash s'
  end.

Fixpoint no_newline (s : string) : Prop :=
  match s with
  | EmptyString => True
  | String c s' => c ≠ newline ∧ no_newline s'
  end.

End Visualizer.

(** ** reader/label_indexer.py

    The reader and the classifier share one [LabelIndexer].  Its module is
    outside this development, so its three operations are parameters,
    taken as they are called: [get_num_tags()], [get_tag(ix)] (which may
    raise) and [index(tags, as_label_field=True)], the multi-label field of
    a tag sequence (which is taken to return).  Nothing is assumed of what
    they return. *)

Module Indexer.

Record LabelIndexer : Type := {
  get_num_tags : nat;
  get_tag : nat → res string;
  index : list string → list bool;
}.

End Indexer.
Import Indexer.

(** ** model/gumbel_softmax_classifier.py *)

Module Classifier.

(** *** The object and its forward pass *)

Section Forward.

(** Tensors, vocabularies and the like are opaque framework values. *)
Variable Val : Type.

(** A Python value that may be [None]. *)
Abbreviation pyval := (option Val).

(** A sub-module is called with positional arguments and returns a
    value. *)
Definition module : Type := list pyval → Val.

(** What an attribute of the classifier object holds. *)
Inductive attr : Type :=
| ANone
| AObj (v : Val)
| AModule (f : module)
| AIndexer (li : LabelIndexer)
| ANat (n : nat)
| AFloat (x : float).

(** The object: its attribute dictionary. *)
Abbreviation object := (gmap string attr).

(** Framework functions used by the constructor and by [forward]. *)
Variable np_log : float → float.
Variable ClassificationMetrics : LabelIndexer → Val.
Variable get_text_field_mask : pyval → Val.

Definition of_pyval (v : pyval) : attr :=
  match v with Some x => AObj x | None => ANone end.

(** [BaseClassifier.__init__].  [super().__init__(vocab, regularizer)]
    stores the vocabulary and the regularizer; the body then assigns the
    attributes below, in this order.  The [sampler] argument is accepted and
    never stored; [initializer(self)] touches parameters only. *)
(* [0x1.4f8b588e368f1p-17] is the binary64 value of the literal [1e-5]. *)
Definition __init__ (vocab : Val) (text_field_embedder generator : module)
    (sampler : option module) (identifier : module)
    (label_indexer : LabelIndexer) (thresh : float) (regularizer : pyval)
  : object :=
  let self : object := <["_regularizer" := of_pyval regularizer]> (<["vocab" := AObj vocab]> ∅) in
  let self := <["label_indexer" := AIndexer label_indexer]> self in
  let self := <["num_labels" := ANat (get_num_tags label_indexer)]> self in
  let self := <["thresh" := AFloat thresh]> self in
  let self := <["log_thresh" := AFloat (np_log (thresh + 0x1.4f8b588e368f1p-17))]> self in
  let self := <["text_field_embedder" := AModule text_field_embedder]> self in
  let self := <["generator" := AModule generator]> self in
  let self := <["identifier" := AModule identifier]> self in
  let self := <["classification_metric" := AObj (ClassificationMetrics label_indexer)]> self in
  self.

(** The calls a forward pass makes, in order, with their arguments. *)
Inductive event : Type :=
| Call (callee : string) (args : list pyval).

(** A computation that records its calls and may raise. *)
Definition traced (A : Type) : Type := list event * res A.

#[global] Instance traced_ret : MRet traced := fun A a => ([], Ok a).
#[global] Instance traced_bind : MBind traced := fun A B f m =>
  match m with
  | (t, Ok a) => let '(t', r) := f a in (t ++ t', r)
  | (t, Raise e) => (t, Raise e)
  end.

Definition lift {A} (r : res A) : traced A := ([], r).

(** [self.name]: [torch.nn.Module.__getattr__] raises for a name that was
    never assigned. *)
Definition getattr (self : object) (name : string) : res attr :=
  match self !! name with
  | Some a => Ok a
  | None => Raise (AttributeError name)
  end.

(** Calling whatever the attribute holds with positional arguments. *)
Definition call (callee : string) (f : attr) (args : list pyval) : traced Val :=
  match f with
  | AModule g => ([Call callee args], Ok (g args))
  | _ => lift (Raise (TypeError "object is not callable"))
  end.

(** The exception of the first statement of [forward]. *)
Definition rejection : exn := NotImplementedError "Don't handle features yet".

(** [BaseClassifier.forward(tokens, labels=None, tags=None, **kwargs)] *)
Definition forward (self : object) (tokens labels tags : pyval)
    (kwargs : gmap string pyval) : traced Val :=
  if decide (0 < size kwargs) then
    lift (Raise rejection)
  else
    embedder ← lift (getattr self "text_field_embedder");
    emb_msg ← call "text_field_embedder" embedder [tokens];
    mask ← ([Call "get_text_field_mask" [tokens]],
            Ok (get_text_field_mask tokens));
    generator ← lift (getattr self "generator");
    attentions ← call "generator" generator [Some emb_msg; Some mask];
    sampler ← lift (getattr self "sampler");
    samples ← match sampler with
              | ANone => mret attentions
              | _ => call "sampler" sampler [Some attentions; Some mask]
              end;
    identifier ← lift (getattr self "identifier");
    call "identifier" identifier
      [Some emb_msg; Some mask; Some samples; Some attentions; labels].

(** The model called on a batch dictionary splatted into keyword
    arguments: the keys [tokens], [labels] and [tags] bind the named
    parameters, every other key lands in [kwargs]. *)
Definition call_forward (self : object) (batch : gmap string pyval)
  : traced Val :=
  match batch !! "tokens" with
  | None =>
      lift (Raise (TypeError "forward() missing 1 required positional argument: 'tokens'"))
  | Some tokens =>
      forward self tokens
        (default None (batch !! "labels")) (default None (batch !! "tags"))
        (delete "tags" (delete "labels" (delete "tokens" batch)))
  end.

End Forward.

(** *** Decoding a batch of outputs *)

Section Decode.

(** [np.exp] on one element. *)
Variable np_exp : float → float.

(** A [batch x seq x tags] array: its last dimension, and the rows (every
    innermost list has [shape_last] elements). *)
Record array3 : Type := {
  shape_last : nat;
  data3 : list (list (list float));
}.

(** The entries of the [outputs] dictionary that [decode] reads:
    [outputs["mask"]] and [outputs["preds"]] are integer arrays,
    [outputs["log_probs"]] and [outputs["attentions"]] float arrays. *)
Record Outputs : Type := {
  mask : list (list Z);
  preds : list (list Z);
  log_probs : list (list float);
  attentions : array3;
}.

(** An [OrderedDict] from tag to a weight list: assigning to a key that is
    present replaces its value where it stands, a new key goes last. *)
Fixpoint odict_set (k : string) (v : list float)
    (d : list (string * list float)) : list (string * list float) :=
  match d with
  | [] => [(k, v)]
  | (k', v') :: d' =>
      if decide (k' = k) then (k', v) :: d' else (k', v') :: odict_set k v d'
  end.

Record Decoded : Type := {
  d_preds : list (list (string * float));
  d_attentions : list (list (string * list float));
}.

(** [mask.sum(-1)] *)
Definition lengths_of (mask : list (list Z)) : list Z :=
  map (foldr Z.add 0%Z) mask.

(** [np.nonzero(row)[0]]: the positions of the non-zero entries, in
    increasing order; [i] is the position of the head of [row]. *)
Fixpoint nonzero_from (i : nat) (row : list Z) : list nat :=
  match row with
  | [] => []
  | v :: row' =>
      if decide (v = 0%Z) then nonzero_from (S i) row'
      else i :: nonzero_from (S i) row'
  end.

Definition nonzero (row : list Z) : list nat := nonzero_from 0 row.

(** [l[:n]] with Python's reading of a negative bound. *)
Definition slice_to {A} (n : Z) (l : list A) : list A :=
  if (n <? 0)%Z then take (length l - Z.to_nat (- n)) l
  else take (Z.to_nat n) l.

(** One entry [[label_indexer.get_tag(k), np.exp(log_probs[ix, k])]]. *)
Definition pred_entry (li : LabelIndexer) (log_probs : list (list float))
    (ix k : nat) : res (string * float) :=
  tag ← get_tag li k;
  row ← list_get log_probs ix;
  lp ← list_get row k;
  mret (tag, np_exp lp).

(** The [pred_list] of instance [ix]. *)
Definition pred_list_of (li : LabelIndexer) (log_probs : list (list float))
    (ix : nat) (predictions_ix : list Z) : res (list (string * float)) :=
  let non_zero_indices := nonzero predictions_ix in
  pred_list ← mapM (pred_entry li log_probs ix) non_zero_indices;
  if decide (length pred_list = 0) then mret (pred_list ++ [("O", 1%float)])
  else mret pred_list.

(** The [attention] dictionary of instance [ix]. *)
Fixpoint attention_loop (li : LabelIndexer) (rows : list (list float))
    (jxs : list nat) (attention : list (string * list float))
  : res (list (string * list float)) :=
  match jxs with
  | [] => mret attention
  | jx :: jxs' =>
      tag ← get_tag li jx;
      column ← mapM (fun row => list_get row jx) rows;
      attention_loop li rows jxs' (odict_set tag column attention)
  end.

Definition attention_of (li : LabelIndexer) (attentions : array3)
    (ix : nat) (length_ix : Z) : res (list (string * list float)) :=
  attentions_ix ← list_get (data3 attentions) ix;
  attention_loop li (slice_to length_ix attentions_ix)
    (seq 0 (shape_last attentions)) [].

(** One turn of the loop over the batch. *)
Definition decode_instance (li : LabelIndexer) (outputs : Outputs)
    (lengths : list Z) (ix : nat)
  : res (list (string * float) * list (string * list float)) :=
  predictions_ix ← list_get (preds outputs) ix;
  pred_list ← pred_list_of li (log_probs outputs) ix predictions_ix;
  length_ix ← list_get lengths ix;
  attention ← attention_of li (attentions outputs) ix length_ix;
  mret (pred_list, attention).

(** [BaseClassifier.decode(outputs)] *)
Definition decode (li : LabelIndexer) (outputs : Outputs) : res Decoded :=
  let lengths := lengths_of (mask outputs) in
  decoded ← mapM (decode_instance li outputs lengths) (seq 0 (length lengths));
  mret {| d_preds := decoded.*1; d_attentions := decoded.*2 |}.

(** Arrays as [decode] expects them: [batch] rows everywhere, [n_preds]
    prediction bits and log-probabilities per instance, and attention rows
    of [shape_last] entries; the indexer knows every index used. *)
Definition well_shaped (li : LabelIndexer) (outputs : Outputs)
    (n_preds : nat) : Prop :=
  let batch := length (mask outputs) in
  length (preds outputs) = batch
  ∧ length (log_probs outputs) = batch
  ∧ length (data3 (attentions outputs)) = batch
  ∧ Forall (fun row => length row = n_preds) (preds outputs)
  ∧ Forall (fun row => length row = n_preds) (log_probs outputs)
  ∧ Forall (Forall (fun row => length row = shape_last (attentions outputs)))
           (data3 (attentions outputs))
  ∧ (∀ k, k < n_preds `max` shape_last (attentions outputs) →
          ∃ tag, get_tag li k = Ok tag).

(** The entry [e] a decoded prediction list has for the set bit [k] of
    instance [ix]: the tag of index [k] with [np.exp] of its
    log-probability. *)
Definition entry_for (li : LabelIndexer) (log_probs : list (list float))
    (ix k : nat) (e : string * float) : Prop :=
  get_tag li k = Ok e.1
  ∧ ∃ row lp, log_probs !! ix = Some row ∧ row !! k = Some lp ∧ e.2 = np_exp lp.

(** The column [jx] of a list of rows: what [attentions[ix, :n, jx]] reads
    from the rows it is cut to. *)
Definition column_of (rows : list (list float)) (jx : nat)
    (column : list float) : Prop :=
  Forall2 (fun row v => row !! jx = Some v) rows column.

(** The entry the attention dictionary gets for the tag index [jx]. *)
Definition attention_entry (li : LabelIndexer) (rows : list (list float))
    (jx : nat) (e : string * list float) : Prop :=
  get_tag li jx = Ok e.1 ∧ column_of rows jx e.2.

End Decode.

Arguments ANone {Val}.
Arguments AObj {Val} v.
Arguments AModule {Val} f.
Arguments AIndexer {Val} li.
Arguments ANat {Val} n.
Arguments AFloat {Val} x.
Arguments Call {Val} callee args.

End Classifier.

(** ** reader/weak_conll_reader.py *)

Module Reader.

(** *** Strings *)

Definition NUM_TOKEN : string := "@0@".

(** [c.isspace()] for a code point below 256. *)
Definition is_space (c : Ascii.ascii) : bool :=
  let n := nat_of_ascii c in
  ((9 <=? n) && (n <=? 13)) || ((28 <=? n) && (n <=? 32))
  || (n =? 133) || (n =? 160).

Fixpoint lstrip (s : string) : string :=
  match s with
  | EmptyString => EmptyString
  | String c s' => if is_space c then lstrip s' else s
  end.

Fixpoint rstrip (s : string) : string :=
  match s with
  | EmptyString => EmptyString
  | String c s' =>
      match rstrip s' with
      | EmptyString => if is_space c then EmptyString else String c EmptyString
      | r => String c r
      end
  end.

(** [s.strip()] *)
Definition strip (s : string) : string := rstrip (lstrip s).

(** [s.split()]: the maximal runs of non-blank characters; [cur] is the
    run being read. *)
Fixpoint split_from (cur s : string) : list string :=
  match s with
  | EmptyString => if decide (cur = "") then [] else [cur]
  | String c s' =>
      if is_space c then
        if decide (cur = "") then split_from "" s' else cur :: split_from "" s'
      else split_from (cur +:+ String c "") s'
  end.

Definition split (s : string) : list string := split_from "" s.

Definition is_digit (c : Ascii.ascii) : bool :=
  let n := nat_of_ascii c in (48 <=? n) && (n <=? 57).

(** [re.sub(r"[0-9]+", NUM_TOKEN, s)]: every maximal run of digits becomes
    one [NUM_TOKEN]; [in_run] says that the previous character was a
    digit. *)
Fixpoint sub_digits_from (in_run : bool) (s : string) : string :=
  match s with
  | EmptyString => EmptyString
  | String c s' =>
      if is_digit c then
        if in_run then sub_digits_from true s'
        else NUM_TOKEN +:+ sub_digits_from true s'
      else String c (sub_digits_from false s')
  end.

Definition sub_digits (s : string) : string := sub_digits_from false s.

(** [re.sub("I-", "B-", s)]: every occurrence is replaced, left to
    right. *)
Fixpoint sub_I_B (s : string) : string :=
  match s with
  | EmptyString => EmptyString
  | String c s' =>
      match s' with
      | String d s'' =>
          if decide (c = "I"%char ∧ d = "-"%char)
          then String "B" (String "-" (sub_I_B s''))
          else String c (sub_I_B s')
      | EmptyString => String c EmptyString
      end
  end.

(** [s.lower()] for code points below 256. *)
Definition lower_char (c : Ascii.ascii) : Ascii.ascii :=
  let n := nat_of_ascii c in
  if ((65 <=? n) && (n <=? 90))
     || ((192 <=? n) && (n <=? 222) && negb (n =? 215))
  then ascii_of_nat (n + 32) else c.

Fixpoint lower (s : string) : string :=
  match s with
  | EmptyString => EmptyString
  | String c s' => String (lower_char c) (lower s')
  end.

(** *** Lines, dividers, sentences *)

Definition _is_divider (line : string) : bool :=
  let empty_line := bool_decide (strip line = "") in
  if empty_line then true
  else
    match split line with
    | first_token :: _ => bool_decide (first_token = "-DOCSTART-")
    | [] => false
    end.

(** [itertools.groupby(l, key)] with a boolean key: the maximal runs of
    consecutive elements with the same key, each with its key. *)
Fixpoint groupby {A} (key : A → bool) (l : list A) : list (bool * list A) :=
  match l with
  | [] => []
  | x :: l' =>
      match groupby key l' with
      | (k, g) :: gs =>
          if decide (key x = k) then (k, x :: g) :: gs
          else (key x, [x]) :: (k, g) :: gs
      | [] => [(key x, [x])]
      end
  end.

(** The unzipping of the rows ([zip] applied to the rows as separate
    arguments, each resulting tuple made a list): the columns, as many as the
    shortest row has entries; none for no row at all. *)
Fixpoint zip_star (fields : list (list string)) : list (list string) :=
  match fields with
  | [] => []
  | row :: rest =>
      match rest with
      | [] => (fun x => [x]) <$> row
      | _ => zip_with cons row (zip_star rest)
      end
  end.

(** [l[a:b]] for [0 <= a <= b]. *)
Definition slice {A} (a b : nat) (l : list A) : list A :=
  take (b - a) (drop a l).

(** [range(start, stop, step)] for a positive step; [fuel] bounds the
    length. *)
Fixpoint range_from (fuel start stop step : nat) : list nat :=
  match fuel with
  | O => []
  | S fuel' =>
      if decide (start < stop)
      then start :: range_from fuel' (start + step) stop step
      else []
  end.

Definition range (start stop step : nat) : res (list nat) :=
  if decide (step = 0) then Raise (ValueError "range() arg 3 must not be zero")
  else Ok (range_from stop start stop step).

(** *** Tokens, fields, instances *)

(** A [Token]: its text and, on the tokens of the attention mask, the
    [text_id] attribute set after construction. *)
Record Token : Type := {
  text : string;
  text_id : option Z;
}.

(** The list objects held by [SequenceLabelField]s live in a store: a
    field holds the list it was given, not a copy, and the reader later
    assigns to an element of such a list. *)
Abbreviation loc := nat.

Inductive level : Type := INFO | WARNING.

Record state : Type := {
  heap : list (list string);
  log : list (level * string);
}.

(** One [Instance]: the two [TextField]s, the [SequenceLabelField]s by
    field name (each the location of its [labels] list), and the
    [labels] field of the label indexer when there is one. *)
Record Instance : Type := {
  tokens : list Token;
  attn_mask : list Token;
  seq_fields : gmap string loc;
  labels : option (list bool);
}.

(** *** The reader's monad: store, log, exceptions *)

Definition rd (A : Type) : Type := state → state * res A.

#[global] Instance rd_ret : MRet rd := fun A a s => (s, Ok a).
#[global] Instance rd_bind : MBind rd := fun A B f m s =>
  match m s with
  | (s', Ok a) => f a s'
  | (s', Raise e) => (s', Raise e)
  end.

Definition lift {A} (r : res A) : rd A := fun s => (s, r).
Definition raise {A} (e : exn) : rd A := lift (Raise e).

(** A new list object. *)
Definition alloc (l : list string) : rd loc := fun s =>
  ({| heap := heap s ++ [l]; log := log s |}, Ok (length (heap s))).

(** The current contents of a list object. *)
Definition deref (p : loc) : rd (list string) := fun s =>
  (s, Ok (default [] (heap s !! p))).

(** [p[i] = v] *)
Definition assign (p : loc) (i : nat) (v : string) : rd unit := fun s =>
  match heap s !! p with
  | Some l =>
      if decide (i < length l)
      then ({| heap := <[p := <[i := v]> l]> (heap s); log := log s |}, Ok tt)
      else (s, Raise IndexError)
  | None => (s, Raise IndexError)
  end.

Definition logger (lv : level) (msg : string) : rd unit := fun s =>
  ({| heap := heap s; log := log s ++ [(lv, msg)] |}, Ok tt).

(** [try: body except Exception: handler] *)
Definition try_except {A} (body : rd A) (handler : exn → rd A) : rd A :=
  fun s =>
    match body s with
    | (s', Raise e) => handler e s'
    | r => r
    end.

(** *** The reader object *)

Record WeakConll2003DatasetReader : Type := {
  tag_label : option string;
  feature_labels : gset string;
  coding_scheme : string;
  max_sentence_length : Z;
  label_indexer : option LabelIndexer;
  convert_numbers : bool;
  _mask_set : gset string;
}.

Definition _VALID_LABELS : gset string := {[ "ner"; "pos"; "chunk" ]}.

(** [WeakConll2003DatasetReader.__init__]; [mask_set] is the set that
    [getattr(constants, mask_set)] finds, [None] for no name. *)
Definition __init__ (tag_label : option string) (feature_labels : list string)
    (convert_numbers : bool) (coding_scheme : string)
    (label_indexer : option LabelIndexer) (max_sentence_length : Z)
    (mask_set : option (gset string)) : res WeakConll2003DatasetReader :=
  match tag_label with
  | Some t =>
      if decide (t ∉ _VALID_LABELS)
      then Raise (ConfigurationError ("unknown tag label type: " +:+ t))
      else Ok tt
  | None => Ok tt
  end ≫= fun _ =>
  mapM (fun label =>
          if decide (label ∉ _VALID_LABELS)
          then Raise (ConfigurationError ("unknown feature label type: " +:+ label))
          else Ok tt) feature_labels ≫= fun _ =>
  if decide (coding_scheme ≠ "IOB1" ∧ coding_scheme ≠ "BIOUL")
  then Raise (ConfigurationError ("unknown coding_scheme: " +:+ coding_scheme))
  else
    Ok {| tag_label := tag_label;
          feature_labels := list_to_set feature_labels;
          coding_scheme := coding_scheme;
          max_sentence_length := max_sentence_length;
          label_indexer := label_indexer;
          convert_numbers := convert_numbers;
          _mask_set := default ∅ mask_set |}.

(** *** [_read] *)

Section Read.

Variable self : WeakConll2003DatasetReader.
Variable file_path : string.

(** [str(z)] for the configured maximal length. *)
Definition str_of_Z (z : Z) : string :=
  if (z <? 0)%Z then "-" +:+ str_of_nat (Z.to_nat (- z))
  else str_of_nat (Z.to_nat z).

(** [SequenceLabelField(labels, sequence_field)]: the field keeps the
    list it is given and refuses one whose length differs from the
    sequence's; [None] has no length. *)
Definition SequenceLabelField (labels : option loc) (sequence : list Token)
  : rd loc :=
  match labels with
  | None => raise (TypeError "object of type 'NoneType' has no len()")
  | Some p =>
      l ← deref p;
      if decide (length l ≠ length sequence)
      then raise (ConfigurationError "Label length and sequence length don't match")
      else mret p
  end.

(** The token loop: the [Token] of the text field and the [Token] of the
    attention mask for one word. *)
Definition new_token (token : string) : Token :=
  let token := if convert_numbers self then sub_digits token else token in
  {| text := token; text_id := None |}.

Definition mask_token (token : string) : Token :=
  let token := if convert_numbers self then sub_digits token else token in
  {| text := token;
     text_id := Some (if decide (lower token ∈ _mask_set self) then 1%Z else 0%Z) |}.

(** "Recode the labels if necessary": the window of the chunk tags (when
    the corpus has them) and of the NER tags, each slice a new list.
    [iob1_to_bioul] is not imported by the module, so the BIOUL branch
    stops at the name. *)
Definition recode (chunk_tags : option (list string)) (ner_tags : list string)
    (ix stepsize : nat) : rd (option loc * loc) :=
  if decide (coding_scheme self = "BIOUL") then
    raise (NameError "iob1_to_bioul")
  else
    coded_chunks ←
      match chunk_tags with
      | Some c => p ← alloc (slice ix (ix + stepsize) c); mret (Some p)
      | None => mret None
      end;
    coded_ner ← alloc (slice ix (ix + stepsize) ner_tags);
    mret (coded_chunks, coded_ner).

(** "Add feature labels to instance" *)
Definition add_feature_labels (sequence : list Token)
    (pos_tags_v : list string) (coded_chunks : option loc) (coded_ner : loc)
    (ix stepsize : nat) (instance_fields : gmap string loc)
  : rd (gmap string loc) :=
  instance_fields ←
    (if decide ("pos" ∈ feature_labels self) then
       p ← alloc (slice ix (ix + stepsize) pos_tags_v);
       f ← SequenceLabelField (Some p) sequence;
       mret (<["pos_tags" := f]> instance_fields)
     else mret instance_fields);
  instance_fields ←
    (if decide ("chunk" ∈ feature_labels self) then
       f ← SequenceLabelField coded_chunks sequence;
       mret (<["chunk_tags" := f]> instance_fields)
     else mret instance_fields);
  if decide ("ner" ∈ feature_labels self) then
    f ← SequenceLabelField (Some coded_ner) sequence;
    mret (<["ner_tags" := f]> instance_fields)
  else mret instance_fields.

(** "Add tag label to instance".  With [pos] the field is given the whole
    column [pos_tags], not a window of it. *)
Definition add_tag_label (sequence : list Token) (pos_tags : loc)
    (coded_chunks : option loc) (coded_ner : loc)
    (instance_fields : gmap string loc) : rd (gmap string loc) :=
  if decide (tag_label self = Some "ner") then
    try_except
      (f ← SequenceLabelField (Some coded_ner) sequence;
       mret (<["tags" := f]> instance_fields))
      (fun _ => raise PdbSetTrace)
  else if decide (tag_label self = Some "pos") then
    f ← SequenceLabelField (Some pos_tags) sequence;
    mret (<["tags" := f]> instance_fields)
  else if decide (tag_label self = Some "chunk") then
    f ← SequenceLabelField coded_chunks sequence;
    mret (<["tags" := f]> instance_fields)
  else mret instance_fields.

(** [self.label_indexer.index(coded_ner, as_label_field=True)] *)
Definition add_labels (coded_ner : loc) : rd (option (list bool)) :=
  match label_indexer self with
  | Some li => l ← deref coded_ner; mret (Some (index li l))
  | None => mret None
  end.

(** The body of the loop over the windows: one instance. *)
Definition read_window (new_tokens mask_tokens : list Token)
    (pos_tags : loc) (pos_tags_v : list string)
    (chunk_tags : option (list string)) (ner_tags : list string)
    (ix stepsize : nat) : rd Instance :=
  let sequence := slice ix (ix + stepsize) new_tokens in
  let attn_mask_seq := slice ix (ix + stepsize) mask_tokens in
  coded ← recode chunk_tags ner_tags ix stepsize;
  instance_fields ←
    add_feature_labels sequence pos_tags_v coded.1 coded.2 ix stepsize ∅;
  instance_fields ←
    add_tag_label sequence pos_tags coded.1 coded.2 instance_fields;
  labels ← add_labels coded.2;
  mret {| tokens := sequence; attn_mask := attn_mask_seq;
          seq_fields := instance_fields; labels := labels |}.

(** The loop over the windows, appending to [instances]. *)
Fixpoint read_windows (new_tokens mask_tokens : list Token)
    (pos_tags : loc) (pos_tags_v : list string)
    (chunk_tags : option (list string)) (ner_tags : list string)
    (stepsize : nat) (ixs : list nat) (instances : list Instance)
  : rd (list Instance) :=
  match ixs with
  | [] => mret instances
  | ix :: ixs' =>
      instance ← read_window new_tokens mask_tokens pos_tags pos_tags_v
                    chunk_tags ner_tags ix stepsize;
      read_windows new_tokens mask_tokens pos_tags pos_tags_v
        chunk_tags ner_tags stepsize ixs' (instances ++ [instance])
  end.

(** The rows of a sentence chunk. *)
Definition fields_of (lines : list string) : list (list string) :=
  (fun line => split (strip line)) <$> lines.

(** The warning about a sentence longer than the configured maximum. *)
Definition warn_if_long (unzipped_fields : list (list string)) : rd unit :=
  let L := max_sentence_length self in
  if decide (0 < L)%Z then
    first ← lift (list_get unzipped_fields 0);
    if decide (L < Z.of_nat (length first))%Z then
      logger WARNING
        ("Found sentence length: " +:+ str_of_nat (length first)
         +:+ " in file " +:+ file_path
         +:+ ", which is greater that set max sentence length of "
         +:+ str_of_Z L +:+ ". Splitting")
    else mret tt
  else mret tt.

(** The assignment of the columns by their number. *)
Definition columns_of (unzipped_fields : list (list string))
  : res (list string * list string * option (list string) * list string) :=
  match unzipped_fields with
  | [tokens; pos_tags; chunk_tags; ner_tags] =>
      (* English provides all 4 *)
      Ok (tokens, pos_tags, Some chunk_tags, ner_tags)
  | [tokens; pos_tags; ner_tags] =>
      (* The other languages don't provide coarse chunking *)
      Ok (tokens, pos_tags, None, ner_tags)
  | _ =>
      Raise (RuntimeError
               ("Found length " +:+ str_of_nat (length unzipped_fields)))
  end.

(** The body of [if not is_divider]: one sentence chunk. *)
Definition read_sentence (lines : list string) (instances : list Instance)
  : rd (list Instance) :=
  let fields := fields_of lines in
  let unzipped_fields := zip_star fields in
  warn_if_long unzipped_fields;;
  columns ← lift (columns_of unzipped_fields);
  let '(tokens, pos_tags_v, chunk_tags, ner_tags) := columns in
  pos_tags ← alloc pos_tags_v;
  let new_tokens := new_token <$> tokens in
  let mask_tokens := mask_token <$> tokens in
  stepsize ←
    (if decide (0 < max_sentence_length self)%Z
     then mret (Z.to_nat (max_sentence_length self))
     else first ← lift (list_get unzipped_fields 0); mret (length first));
  ixs ← lift (range 0 (length new_tokens) stepsize);
  read_windows new_tokens mask_tokens pos_tags pos_tags_v chunk_tags ner_tags
    stepsize ixs instances.

(** The loop over the chunks of [itertools.groupby]. *)
Fixpoint read_groups (groups : list (bool * list string))
    (instances : list Instance) : rd (list Instance) :=
  match groups with
  | [] => mret instances
  | (is_divider, lines) :: groups' =>
      if is_divider then read_groups groups' instances
      else
        instances ← read_sentence lines instances;
        read_groups groups' instances
  end.

(** The instances as they stand when the file is closed. *)
Definition build (data_file : list string) : rd (list Instance) :=
  logger INFO ("Reading instances from lines in file at: " +:+ file_path);;
  read_groups (groupby _is_divider data_file) [].

(** One turn of the final loop over the instances. *)
Definition check_instance (instance : Instance) : rd unit :=
  tags ← lift (dict_get (seq_fields instance) "tags");
  tag_labels ← deref tags;
  if decide (length (tokens instance) ≠ length tag_labels) then
    raise AssertionError
  else if decide ((0 < max_sentence_length self)%Z
                  ∧ ¬ (Z.of_nat (length (tokens instance))
                       <= max_sentence_length self)%Z) then
    raise AssertionError
  else
    first ← lift (list_get tag_labels 0);
    if startswith "I-" first then
      logger INFO ("Made correction in " +:+ file_path);;
      assign tags 0 (sub_I_B first)
    else mret tt.

Fixpoint check_instances (instances : list Instance) : rd unit :=
  match instances with
  | [] => mret tt
  | instance :: instances' =>
      check_instance instance;; check_instances instances'
  end.

(** [WeakConll2003DatasetReader._read(file_path)] on the lines of the
    file. *)
Definition _read (data_file : list string) : rd (list Instance) :=
  instances ← build data_file;
  check_instances instances;;
  mret instances.

End Read.

(** The store and the log a read starts from. *)
Definition initial : state := {| heap := []; log := [] |}.

(** The [labels] list a field of an instance holds in a state. *)
Definition field_labels (s : state) (instance : Instance) (name : string)
  : option (list string) :=
  p ← seq_fields instance !! name; heap s !! p.

(** *** Vocabulary of the proofs *)

(** What holds of the result and the final state whenever a computation
    returns. *)
Definition ok_post {A} (m : rd A) (s : state) (Q : A → state → Prop) : Prop :=
  ∀ s' a, m s = (s', Ok a) → Q a s'.

(** The final loop's effect on one [labels] list. *)
Definition correct (l : list string) : list string :=
  match l with
  | first :: rest => if startswith "I-" first then sub_I_B first :: rest else l
  | [] => []
  end.

(** The sentence chunks of a file: the non-divider groups. *)
Definition sentences (data_file : list string) : list (list string) :=
  (filter (fun g => g.1 = false) (groupby _is_divider data_file)).*2.

(** The number of columns a sentence chunk unzips to. *)
Definition column_count (lines : list string) : nat :=
  length (zip_star (fields_of lines)).

(** The windows of a list for a step: what the window loop slices. *)
Definition windows_of {A} (stepsize : nat) (l : list A) : list (list A) :=
  (fun ix => slice ix (ix + stepsize) l)
    <$> range_from (length l) 0 (length l) stepsize.

(** The step the reader uses on a sentence with the token column [toks]. *)
Definition window_size (self : WeakConll2003DatasetReader)
    (toks : list string) : nat :=
  if decide (0 < max_sentence_length self)%Z
  then Z.to_nat (max_sentence_length self)
  else length toks.

(** With [tag_label = "ner"], an instance's [tags] list in state [s] is
    the list its [labels] field was computed from. *)
Definition ner_consistent (self : WeakConll2003DatasetReader) (s : state)
    (instance : Instance) : Prop :=
  tag_label self = Some "ner" →
  ∃ tags, field_labels s instance "tags" = Some tags
          ∧ labels instance = (fun li => index li tags) <$> label_indexer self.

(** The instances [ws] are the windows of the sentence chunk [lines]. *)
Definition windows_of_sentence (self : WeakConll2003DatasetReader)
    (lines : list string) (ws : list Instance) : Prop :=
  ∃ toks, zip_star (fields_of lines) !! 0 = Some toks
          ∧ tokens <$> ws
            = windows_of (window_size self toks) (new_token self <$> toks).

(** The [tags] lists of a list of instances. *)
Definition tags_locs (instances : list Instance) : list loc :=
  omap (fun instance => seq_fields instance !! "tags") instances.

(** The message of a correction. *)
Definition correction_record (file_path : string) : level * string :=
  (INFO, "Made correction in " +:+ file_path).

(** [l[0]], when the list is not empty. *)
Definition first_tag (l : list string) : string := hd "" l.

(** What one turn of the final loop finds when it returns: the instance
    has a [tags] list, not empty, as long as its tokens and within the
    maximal length, and a first tag starting with "I-" is in the log. *)
Definition checked (self : WeakConll2003DatasetReader) (file_path : string)
    (s s' : state) (instance : Instance) : Prop :=
  ∃ p l,
    seq_fields instance !! "tags" = Some p
    ∧ heap s !! p = Some l
    ∧ l ≠ []
    ∧ length (tokens instance) = length l
    ∧ ((0 < max_sentence_length self)%Z →
       (Z.of_nat (length (tokens instance)) <= max_sentence_length self)%Z)
    ∧ (startswith "I-" (first_tag l) = true →
       correction_record file_path ∈ log s').

(** What a read returned, seen from outside: the [tags] list of every
    instance in the final state, and the texts of all tokens in order. *)
Definition final_tags (r : state * res (list Instance))
  : res (list (option (list string))) :=
  match r.2 with
  | Ok instances =>
      Ok ((fun instance => field_labels r.1 instance "tags") <$> instances)
  | Raise e => Raise e
  end.

Definition final_texts (r : state * res (list Instance))
  : res (list (list string)) :=
  match r.2 with
  | Ok instances =>
      Ok ((fun instance => text <$> tokens instance) <$> instances)
  | Raise e => Raise e
  end.

Definition final_labels (r : state * res (list Instance))
  : res (list (option (list bool))) :=
  match r.2 with
  | Ok instances => Ok (labels <$> instances)
  | Raise e => Raise e
  end.

(** The instances [ws] split the sentence chunk [lines] into windows of
    at most [max_sentence_length] tokens: concatenated they give the token
    column as the reader stores it (the column itself when
    [convert_numbers] is off), none is empty or longer than the maximum,
    and all but the last have exactly the maximal length. *)
Definition partitions (self : WeakConll2003DatasetReader)
    (lines : list string) (ws : list Instance) : Prop :=
  ∃ toks,
    zip_star (fields_of lines) !! 0 = Some toks
    ∧ concat (tokens <$> ws) = new_token self <$> toks
    ∧ (convert_numbers self = false →
       text <$> concat (tokens <$> ws) = toks)
    ∧ Forall (fun w => 1 ≤ length (tokens w)
                       ∧ (Z.of_nat (length (tokens w))
                          <= max_sentence_length self)%Z) ws
    ∧ (∀ i w, ws !! i = Some w → S i < length ws →
              Z.of_nat (length (tokens w)) = max_sentence_length self).

(** The final loop's effect on one instance, between the state [s1] in
    which the loop starts and the state [s2] in which the read returns. *)
Definition corrected (self : WeakConll2003DatasetReader) (file_path : string)
    (s1 s2 : state) (instance : Instance) : Prop :=
  ∃ tags,
    field_labels s1 instance "tags" = Some tags
    ∧ tags ≠ []
    ∧ field_labels s2 instance "tags" = Some (correct tags)
    ∧ (startswith "I-" (first_tag tags) = true →
       correction_record file_path ∈ log s2)
    ∧ (tag_label self = Some "ner" →
       labels instance = (fun li => index li tags) <$> label_indexer self).

(** The instances a run returned ([[]] when it raised). *)
Definition instances_of (r : state * res (list Instance)) : list Instance :=
  match r.2 with
  | Ok instances => instances
  | Raise _ => []
  end.

(** Strings of blanks only. *)
Fixpoint all_space (s : string) : bool :=
  match s with
  | EmptyString => true
  | String c s' => is_space c && all_space s'
  end.

(** A computation returns, with a result and a final state that satisfy
    [Q]. *)
Definition returns {A} (m : rd A) (s : state) (Q : A → state → Prop) : Prop :=
  ∃ s' a, m s = (s', Ok a) ∧ Q a s'.

(** What the final loop needs of an instance: a [tags] list, not empty, as
    long as the tokens, within the maximal length. *)
Definition well_tagged (self : WeakConll2003DatasetReader) (s : state)
    (instance : Instance) : Prop :=
  ∃ p l,
    seq_fields instance !! "tags" = Some p
    ∧ heap s !! p = Some l
    ∧ l ≠ []
    ∧ length (tokens instance) = length l
    ∧ ((0 < max_sentence_length self)%Z →
       (Z.of_nat (length (tokens instance)) <= max_sentence_length self)%Z).

(** Strings in which ["I-"] occurs. *)
Fixpoint has_I_dash (s : string) : Prop :=
  match s with
  | EmptyString => False
  | String c s' =>
      match s' with
      | String d _ => (c = "I"%char ∧ d = "-"%char) ∨ has_I_dash s'
      | EmptyString => False
      end
  end.

(** Strings with a digit, strings of digits only, the number of ["@"] in a
    string, and the number of maximal runs of digits ([in_run] says that
    the previous character was a digit). *)
Fixpoint has_digit (s : string) : bool :=
  match s with
  | EmptyString => false
  | String c s' => is_digit c || has_digit s'
  end.

Fixpoint all_digits (s : string) : bool :=
  match s with
  | EmptyString => true
  | String c s' => is_digit c && all_digits s'
  end.

Fixpoint count_at (s : string) : nat :=
  match s with
  | EmptyString => 0
  | String c s' => (if decide (c = "@"%char) then 1 else 0) + count_at s'
  end.

Fixpoint digit_runs (in_run : bool) (s : string) : nat :=
  match s with
  | EmptyString => 0
  | String c s' =>
      if is_digit c then (if in_run then 0 else 1) + digit_runs true s'
      else digit_runs false s'
  end.

(** The number of windows of a sentence of [n] tokens: [n] over the step,
    rounded up. *)
Definition window_count (self : WeakConll2003DatasetReader) (n : nat) : nat :=
  let stepsize :=
    if decide (0 < max_sentence_length self)%Z
    then Z.to_nat (max_sentence_length self) else n in
  (n + stepsize - 1) / stepsize.

(** The token [m] of the attention mask that goes with the token [t] of
    the text. *)
Definition masks (self : WeakConll2003DatasetReader) (t m : Token) : Prop :=
  text m = text t
  ∧ text_id t = None
  ∧ text_id m
    = Some (if decide (lower (text t) ∈ _mask_set self) then 1%Z else 0%Z).

(** The warnings of a log, in order. *)
Definition warnings (l : list (level * string)) : list string :=
  omap (fun r => match r.1 with WARNING => Some r.2 | INFO => None end) l.

(** The sentence chunks the reader splits: longer than a positive maximal
    length. *)
Definition too_long (self : WeakConll2003DatasetReader) (lines : list string)
  : Prop :=
  (0 < max_sentence_length self < Z.of_nat (length lines))%Z.

#[global] Instance too_long_dec self lines : Decision (too_long self lines) :=
  ltac:(unfold too_long; apply _).

(** The text of the warning for a sentence of [n] tokens. *)
Definition length_warning (self : WeakConll2003DatasetReader)
    (file_path : string) (n : nat) : string :=
  "Found sentence length: " +:+ str_of_nat n
  +:+ " in file " +:+ file_path
  +:+ ", which is greater that set max sentence length of "
  +:+ str_of_Z (max_sentence_length self) +:+ ". Splitting".

(** A computation that leaves the log as it is when it returns. *)
Definition keeps_log {A} (m : rd A) : Prop :=
  ∀ s, ok_post m s (fun _ s' => log s' = log s).

(** The arguments the constructor accepts. *)
Definition valid_configuration (tag_label : option string)
    (feature_labels : list string) (coding_scheme : string) : Prop :=
  (∀ t, tag_label = Some t → t ∈ _VALID_LABELS)
  ∧ Forall (fun label => label ∈ _VALID_LABELS) feature_labels
  ∧ (coding_scheme = "IOB1" ∨ coding_scheme = "BIOUL").

End Reader.

(** ** visualize_attns.py: the pages *)

Module Webpage.
Import Visualizer.

(** The page writers of the module: [_get_word_color], [colorize_text],
    the two writers of a page of predictions, and the three helpers for
    plain text.  A page is a file; the files are a map from path to
    content. *)

Definition dq : string := String (Ascii.ascii_of_nat 34) "".
Definition nl : string := String newline "".

(** [sep.join(l)] *)
Fixpoint join (sep : string) (l : list string) : string :=
  match l with
  | [] => ""
  | x :: l' =>
      match l' with
      | [] => x
      | _ => x +:+ sep +:+ join sep l'
      end
  end.

(** The page header of the two page writers, a concatenation of adjacent
    string literals; the three colours of the key are interpolated. *)
Definition header (purple brickRed yellowGreen : string) : string :=
  String.concat ""
    [
     "<html>" +:+ nl;
     "<head>" +:+ nl;
     "<style>" +:+ nl;  (* The CSS element *)
     "   correct { ";
     "       color: #8dde28; ";
     "       padding-right: 5px; ";
     "       padding-left: 5px ";
     "   }" +:+ nl;
     "   incorrect { ";
     "       color: #e93f3f; ";
     "       padding-right: 5px; ";
     "       padding-left: 5px ";
     "   }" +:+ nl;
     "   body { color: color:#000000}" +:+ nl;
     "   .tooltip { ";
     "       position: relative; ";
     "       display: inline-block; ";
     (* '       border-bottom: 1px dotted black;' *)
     "   }" +:+ nl;
     "   .tooltip .tooltiptext {  ";
     "       visibility: hidden;  ";
     "       width: 120px;  ";
     "       background-color: black; ";
     "       color: #fff; ";
     "       text-align: center;  ";
     "       border-radius: 6px;  ";
     "       padding: 5px 0;  ";
     "       position: absolute;  ";
     "       z-index: 1;  ";
     "       top: 150%; ";
     "       left: 50%; ";
     "       margin-left: -60px;  ";
     "   }" +:+ nl;
     "   .tooltip .tooltiptext::after { ";
     "       content: " +:+ dq +:+ " " +:+ dq +:+ ";    ";
     "       position: absolute;  ";
     "       bottom: 100%;  /* At the top of the tooltip */   ";
     "       left: 50%;   ";
     "       margin-left: -5px;   ";
     "       border-width: 5px;   ";
     "       border-style: solid; ";
     "       border-color: transparent transparent black transparent; ";
     "   }" +:+ nl;
     "   .tooltip:hover .tooltiptext {  ";
     "       visibility: visible; ";
     "   }" +:+ nl;
     "</style>" +:+ nl;
     "</head>" +:+ nl;
     "<body>";
     "Key:</br>";
     "<span";
     "  style=" +:+ dq +:+ "background-color:" +:+ purple +:+ ";";
     "   padding-left: 10px;";
     "   padding-right: 10px;";
     "   color:white" +:+ dq +:+ " >Pred tag, Gold no tag</span></br>";
     "<span";
     "   style=" +:+ dq +:+ "background-color:" +:+ brickRed +:+ ";";
     "    padding-left: 10px;";
     "    padding-right: 10px;";
     "    color:white" +:+ dq +:+ " >Pred no tag, Gold tag</span> </br>";
     "<span";
     "   style=" +:+ dq +:+ "background-color:" +:+ yellowGreen +:+ ";";
     "    padding-left: 10px;";
     "    padding-right: 10px;";
     "    color:black" +:+ dq +:+ ">Both Correct tag</span> </br>";
     "</br>"
    ].

Definition footer : string := "</body></html>".

Section Page.

(** [format(x, "2.2f")], the conversion of the f-string field
    [{attn_weights:2.2f}]. *)
Variable format_2_2f : num → res string.

(** What a label of a prediction is (a [str], a list of them, ...), with
    its [==] and the text an f-string field gives it. *)
Context {Label : Type} `{EqDecision Label}.
Variable str : Label → string.

Definition _get_word_color (word : string) (attn_weights : num)
    (pred_tag gold_tag : string) : res string :=
  color ← _attn_to_rgb attn_weights pred_tag gold_tag;
  weight ← format_2_2f attn_weights;
  mret ("<div class=" +:+ dq +:+ "tooltip" +:+ dq +:+ ">"
        +:+ "    <span style=" +:+ dq +:+ "background-color:" +:+ color
        +:+ dq +:+ ">" +:+ word +:+ "</span>"
        +:+ "    <span class=" +:+ dq +:+ "tooltiptext" +:+ dq +:+ ">"
        +:+ weight +:+ "</span>"
        +:+ "</div>").

(** One turn of the loop of [colorize_text]: [html_blocks[i]], which
    starts as the empty string. *)
Definition html_block (words : list string) (attn_weights : list num)
    (pred_tags gold_tags : list string) (i : nat) : res string :=
  word ← list_get words i;
  weight ← list_get attn_weights i;
  pred_tag ← list_get pred_tags i;
  gold_tag ← list_get gold_tags i;
  block ← _get_word_color word weight pred_tag gold_tag;
  mret ("" +:+ block).

Definition colorize_text (text : string) (attn_weights : list num)
    (pred_tags gold_tags : list string) : res string :=
  let words := Reader.split text in
  if decide (length words ≠ length attn_weights) then Raise AssertionError
  else
    html_blocks ← mapM (html_block words attn_weights pred_tags gold_tags)
                       (seq 0 (length words));
    mret (join " " html_blocks).

(** [get_colorized_text_as_html] calls [colorize_text] with two of its four
    required positional arguments. *)
Definition get_colorized_text_as_html (text : string)
    (attn_weights : list num) : res string :=
  Raise (TypeError "colorize_text() missing 2 required positional arguments: 'pred_tags' and 'gold_tags'").

(** Writing to the page: the text written so far is the state. *)
Definition io (A : Type) : Type := string → string * res A.

#[local] Instance io_ret : MRet io := fun A a f => (f, Ok a).
#[local] Instance io_bind : MBind io := fun A B k m f =>
  match m f with
  | (f', Ok a) => k a f'
  | (f', Raise e) => (f', Raise e)
  end.

Definition lift {A} (r : res A) : io A := fun f => (f, r).
Definition write (s : string) : io unit := fun f => (f +:+ s, Ok tt).

(** The files, by path.  [with open(vis_page, "w") as f: body] creates or
    truncates the file; what was written is in the file when the block is
    left, by [return] or by an exception. *)
Definition with_open_w (vis_page : string) (body : io unit)
    (fs : gmap string string) : gmap string string * res unit :=
  let '(f, r) := body "" in (<[vis_page := f]> fs, r).

(** A prediction as [colorized_predictions_to_webpage] reads it. *)
Record Prediction : Type := {
  p_text : list string;
  p_attn : list num;
  p_pred : Label;
  p_gold : Label;
  p_pred_labels : list string;
  p_gold_labels : list string;
}.

Definition pred_gold (pred_label gold_label : Label) : string :=
  if decide (pred_label = gold_label) then
    "<correct>" +:+ (" " +:+ str pred_label +:+ " ")
    +:+ (" " +:+ str gold_label +:+ " ") +:+ "</correct>"
  else
    "<incorrect>" +:+ (" " +:+ str pred_label +:+ " ")
    +:+ (" " +:+ str gold_label +:+ " ") +:+ "</incorrect>".

(** The body of the loop over the predictions. *)
Definition write_prediction (pred : Prediction) : io unit :=
  let txt := join " " (p_text pred) in
  let attn_weights := p_attn pred in
  let pred_label := p_pred pred in
  let gold_label := p_gold pred in
  let pred_tags := p_pred_labels pred in
  let gold_tags := p_gold_labels pred in
  html ← lift (colorize_text txt attn_weights pred_tags gold_tags);
  write (html +:+ pred_gold pred_label gold_label +:+ "<br>").

Fixpoint write_predictions (predictions : list Prediction) : io unit :=
  match predictions with
  | [] => mret tt
  | pred :: predictions' =>
      write_prediction pred;; write_predictions predictions'
  end.

Definition colorized_predictions_to_webpage (predictions : list Prediction)
    (vis_page : string) (fs : gmap string string)
  : gmap string string * res unit :=
  with_open_w vis_page
    (purple ← lift (dict_get colors2rgb "purple");
     brickRed ← lift (dict_get colors2rgb "brickRed");
     yellowGreen ← lift (dict_get colors2rgb "yellowGreen");
     write (header purple brickRed yellowGreen);;
     write_predictions predictions;;
     write footer) fs.

(** A prediction as [colorized_predictions_to_webpage_binary] reads it:
    [attn] maps each tag to its weights (a JSON object, in the order of
    the file), [pred] and [gold] are lists of labels. *)
Record PredictionBinary : Type := {
  b_text : list string;
  b_attn : list (string * list num);
  b_pred : list Label;
  b_gold : list Label;
  b_pred_labels : list string;
  b_gold_labels : list string;
}.

Definition write_prediction_binary (pred : PredictionBinary) : io unit :=
  let txt := join " " (b_text pred) in
  attn_weights ← lift (list_get (b_attn pred).*2 0);
  pred_label ← lift (list_get (b_pred pred) 0);
  gold_label ← lift (list_get (b_gold pred) 0);
  let pred_tags := b_pred_labels pred in
  let gold_tags := b_gold_labels pred in
  html ← lift (colorize_text txt attn_weights pred_tags gold_tags);
  write (html +:+ pred_gold pred_label gold_label +:+ "<br>").

Fixpoint write_predictions_binary (predictions : list PredictionBinary)
  : io unit :=
  match predictions with
  | [] => mret tt
  | pred :: predictions' =>
      write_prediction_binary pred;; write_predictions_binary predictions'
  end.

Definition colorized_predictions_to_webpage_binary
    (predictions : list PredictionBinary) (vis_page : string)
    (fs : gmap string string) : gmap string string * res unit :=
  with_open_w vis_page
    (purple ← lift (dict_get colors2rgb "purple");
     brickRed ← lift (dict_get colors2rgb "brickRed");
     yellowGreen ← lift (dict_get colors2rgb "yellowGreen");
     write (header purple brickRed yellowGreen);;
     write_predictions_binary predictions;;
     write footer) fs.

Definition colorized_text_to_webpage (text : string) (attn_weights : list num)
    (vis_page : string) (fs : gmap string string)
  : gmap string string * res unit :=
  with_open_w vis_page
    (html ← lift (get_colorized_text_as_html text attn_weights);
     write html) fs.

(** The loop of [colorized_list_to_webpage] over the zipped lists. *)
Fixpoint write_list (pairs : list (string * list num)) : io unit :=
  match pairs with
  | [] => mret tt
  | (txt, attn_weights) :: pairs' =>
      html ← lift (get_colorized_text_as_html txt attn_weights);
      write (html +:+ "<br>");;
      write_list pairs'
  end.

Definition colorized_list_to_webpage (lst_txt : list string)
    (lst_attn_weights : list (list num)) (vis_page : string)
    (fs : gmap string string) : gmap string string * res unit :=
  with_open_w vis_page (write_list (zip lst_txt lst_attn_weights)) fs.

(** *** Vocabulary of the proofs *)

(** The text one prediction adds to the page. *)
Definition prediction_html (pred : Prediction) : res string :=
  html ← colorize_text (join " " (p_text pred)) (p_attn pred)
           (p_pred_labels pred) (p_gold_labels pred);
  mret (html +:+ pred_gold (p_pred pred) (p_gold pred) +:+ "<br>").

(** The prediction the binary page writer makes of what it is given: the
    weights of the first tag, the first predicted and the first gold
    label. *)
Definition first_of (pred : PredictionBinary) : res Prediction :=
  attn_weights ← list_get (b_attn pred).*2 0;
  pred_label ← list_get (b_pred pred) 0;
  gold_label ← list_get (b_gold pred) 0;
  mret {| p_text := b_text pred; p_attn := attn_weights;
          p_pred := pred_label; p_gold := gold_label;
          p_pred_labels := b_pred_labels pred;
          p_gold_labels := b_gold_labels pred |}.

(** The header of the page with the colours of the key. *)
Definition page_header : string := header "#712f79" "#d2405f" "#e0ff4f".

End Page.

(** A word: not empty, no blank in it. *)
Fixpoint has_space (s : string) : bool :=
  match s with
  | EmptyString => false
  | String c s' => Reader.is_space c || has_space s'
  end.

Definition is_word (t : string) : Prop := t ≠ "" ∧ has_space t = false.

(** Tags a colour exists for: equal entity types, or one of them "O". *)
Definition comparable (pred_tag gold_tag : string) : Prop :=
  strip_prefix pred_tag = strip_prefix gold_tag
  ∨ strip_prefix pred_tag = "O" ∨ strip_prefix gold_tag = "O".

Arguments Prediction Label : clear implicits.
Arguments PredictionBinary Label : clear implicits.

End Webpage.

(** ** Sample inputs *)

Module Examples.
Import Reader.

Definition nl : string := String (ascii_of_nat 10) "".

(** An indexer over three entity types that looks at the literal tags: a
    type is present when one of its inside-span tags is. *)
Definition literal_indexer : LabelIndexer := {|
  get_num_tags := 3;
  get_tag := fun k => list_get ["PER"; "LOC"; "ORG"] k;
  index := fun tags =>
    [bool_decide ("I-PER" ∈ tags); bool_decide ("I-LOC" ∈ tags);
     bool_decide ("I-ORG" ∈ tags)];
|}.

(** The reader with [tag_label="ner"], IOB1 coding, no feature labels. *)
Definition ner_reader (L : Z) (convert_numbers : bool)
  : WeakConll2003DatasetReader := {|
  tag_label := Some "ner";
  feature_labels := ∅;
  coding_scheme := "IOB1";
  max_sentence_length := L;
  label_indexer := Some literal_indexer;
  convert_numbers := convert_numbers;
  _mask_set := ∅;
|}.

(** One document start, one sentence of five words in four columns. *)
Definition corpus_john : list string :=
  ["-DOCSTART- -X- O O" +:+ nl; nl;
   "John NNP I-NP I-PER" +:+ nl;
   "Smith NNP I-NP I-PER" +:+ nl;
   "lives VBZ I-VP O" +:+ nl;
   "in IN I-PP O" +:+ nl;
   "Paris NNP I-NP I-LOC" +:+ nl;
   nl].

(** Two words in three columns, the second a number. *)
Definition corpus_year : list string :=
  ["In IN O" +:+ nl; "2003 CD O" +:+ nl].

(** A good sentence, then one whose second line has only two columns. *)
Definition corpus_short_line : list string :=
  ["Hello UH O" +:+ nl; nl; "Big JJ I-ORG" +:+ nl; "Corp NNP" +:+ nl].

(** An entity type that itself contains "I-". *)
Definition corpus_scifi : list string :=
  ["Dune NNP I-SCI-FI" +:+ nl; "rocks VBZ O" +:+ nl].

(** A batch of two instances over three tag types; the second instance
    has no prediction bit set. *)
Definition outputs_demo : Classifier.Outputs := {|
  Classifier.mask := [[1; 1]; [1; 0]]%Z;
  Classifier.preds := [[1; 0; 1]; [0; 0; 0]]%Z;
  Classifier.log_probs := [[-0.1; -5.0; -0.3]; [-4.0; -5.0; -6.0]]%float;
  Classifier.attentions := {|
    Classifier.shape_last := 3;
    Classifier.data3 :=
      [[[0.5; 0.25; 0.125]; [0.5; 0.75; 0.875]];
       [[1.0; 1.0; 1.0]; [0.0; 0.0; 0.0]]]%float |};
|}.

(** What [decode] gives on [outputs_demo] when [np.exp] is read as the
    identity. *)
Definition decoded_demo : Classifier.Decoded := {|
  Classifier.d_preds :=
    [[("PER", -0.1); ("ORG", -0.3)]; [("O", 1)]]%float;
  Classifier.d_attentions :=
    [[("PER", [0.5; 0.5]); ("LOC", [0.25; 0.75]); ("ORG", [0.125; 0.875])];
     [("PER", [1.0]); ("LOC", [1.0]); ("ORG", [1.0])]]%float;
|}.

(** The runs of the reader used below. *)
Definition run_john : state * res (list Instance) :=
  _read (ner_reader 2 false) "train.txt" corpus_john initial.

Definition run_john_unsplit : state * res (list Instance) :=
  _read (ner_reader (-1) false) "train.txt" corpus_john initial.

Definition run_year : state * res (list Instance) :=
  _read (ner_reader 1 true) "train.txt" corpus_year initial.

(** Readers with other tag labels, feature labels and coding schemes; the
    word "in" is masked. *)
Definition reader_with (tag_label : option string)
    (feature_labels : gset string) (coding_scheme : string) (L : Z)
  : WeakConll2003DatasetReader := {|
  Reader.tag_label := tag_label;
  Reader.feature_labels := feature_labels;
  Reader.coding_scheme := coding_scheme;
  max_sentence_length := L;
  Reader.label_indexer := None;
  Reader.convert_numbers := false;
  _mask_set := {[ "in" ]};
|}.

(** The five lines of the sentence of [corpus_john]. *)
Definition sentence_john : list string :=
  ["John NNP I-NP I-PER" +:+ nl;
   "Smith NNP I-NP I-PER" +:+ nl;
   "lives VBZ I-VP O" +:+ nl;
   "in IN I-PP O" +:+ nl;
   "Paris NNP I-NP I-LOC" +:+ nl].

(** A file without a sentence. *)
Definition corpus_dividers : list string :=
  ["-DOCSTART- -X- O O" +:+ nl; nl].

Definition run_ner_feature : state * res (list Instance) :=
  _read (reader_with (Some "ner") {[ "ner" ]} "IOB1" 2) "train.txt"
    corpus_john initial.

(** [format(x, "2.2f")] on the weights of the sample predictions. *)
Definition format_sample (x : num) : res string :=
  match x with
  | PyFloat f =>
      if PrimFloat.eqb f 0.5 then Ok "0.50"
      else if PrimFloat.eqb f 0.25 then Ok "0.25"
      else Raise (ValueError "not a weight of the samples")
  | PyInt _ => Raise (ValueError "not a weight of the samples")
  end.

(** A prediction of two words, and one with a weight too few. *)
Definition prediction_john : Webpage.Prediction string := {|
  Webpage.p_text := ["John"; "lives"];
  Webpage.p_attn := [PyFloat 0.5; PyFloat 0.25];
  Webpage.p_pred := "PER";
  Webpage.p_gold := "PER";
  Webpage.p_pred_labels := ["B-PER"; "O"];
  Webpage.p_gold_labels := ["I-PER"; "O"];
|}.

Definition prediction_short : Webpage.Prediction string := {|
  Webpage.p_text := ["John"; "lives"];
  Webpage.p_attn := [PyFloat 0.5];
  Webpage.p_pred := "PER";
  Webpage.p_gold := "O";
  Webpage.p_pred_labels := ["B-PER"; "O"];
  Webpage.p_gold_labels := ["O"; "O"];
|}.

(** The first prediction as the binary page writer is given it. *)
Definition binary_john : Webpage.PredictionBinary string := {|
  Webpage.b_text := ["John"; "lives"];
  Webpage.b_attn := [("PER", [PyFloat 0.5; PyFloat 0.25])];
  Webpage.b_pred := ["PER"];
  Webpage.b_gold := ["PER"];
  Webpage.b_pred_labels := ["B-PER"; "O"];
  Webpage.b_gold_labels := ["I-PER"; "O"];
|}.

End Examples.

(* ====================== THEOREMS ====================== *)

Section PyFacts.

Lemma bind_ok {A B} (m : res A) (f : A → res B) (b : B) :
  m ≫= f = Ok b ↔ ∃ a, m = Ok a ∧ f a = Ok b.
Proof.
  destruct m as [a | e]; simpl; split.
  - eauto.
  - now intros (a' & [= <-] & ?).
  - discriminate.
  - now intros (a' & [=] & ?).
Qed.

Lemma mapM_ok {A B} (f : A → res B) (l : list A) (ys : list B) :
  mapM f l = Ok ys ↔ Forall2 (fun x y => f x = Ok y) l ys.
Proof.
  revert ys. induction l as [| x l IH]; intros ys; simpl.
  - split; [intros [= <-]; constructor | now inversion 1].
  - rewrite bind_ok. split.
    + intros (y & Hy & Hrest). apply bind_ok in Hrest as (ys' & Hys' & [= <-]).
      constructor; [assumption | now apply IH].
    + inversion 1 as [| ? y ? ys' Hy Hys']; subst.
      exists y. split; [assumption |]. apply bind_ok.
      exists ys'. split; [now apply IH | reflexivity].
Qed.

Lemma mapM_lookup {A B} (f : A → res B) (l : list A) (ys : list B) (i : nat) (x : A) :
  mapM f l = Ok ys → l !! i = Some x → ∃ y, ys !! i = Some y ∧ f x = Ok y.
Proof.
  intros H%mapM_ok Hx.
  destruct (Forall2_lookup_l _ _ _ _ _ H Hx) as (y & ? & ?). eauto.
Qed.

Lemma mapM_length {A B} (f : A → res B) (l : list A) (ys : list B) :
  mapM f l = Ok ys → length ys = length l.
Proof. intros H%mapM_ok. symmetry. eapply Forall2_length, H. Qed.

Lemma mapM_total {A B} (f : A → res B) (l : list A) :
  Forall (fun x => ∃ y, f x = Ok y) l → ∃ ys, mapM f l = Ok ys.
Proof.
  induction 1 as [| x l [y Hy] _ [ys Hys]]; simpl; [eauto |].
  rewrite Hy, Hys. simpl. eauto.
Qed.

Lemma list_get_ok {A} (l : list A) (i : nat) (x : A) :
  list_get l i = Ok x ↔ l !! i = Some x.
Proof. unfold list_get. destruct (l !! i); split; congruence. Qed.

End PyFacts.

Section VisualizerFacts.
Import Visualizer.

Example attn_hex_half : attn_hex (PyFloat 0.5) = Ok "7f".
Proof. reflexivity. Qed.

Example attn_hex_one_int : attn_hex (PyInt 1) = Ok "ff".
Proof. reflexivity. Qed.

Example strip_b_per : strip_prefix "B-PER" = "PER".
Proof. reflexivity. Qed.

Example rgb_both_o : _attn_to_rgb (PyFloat 0.5) "O" "O" = Ok "#22aadd7f".
Proof. reflexivity. Qed.

Example rgb_nan : _attn_to_rgb (PyFloat nan) "O" "O"
  = Raise (ValueError "cannot convert float NaN to integer").
Proof. reflexivity. Qed.

End VisualizerFacts.

Section VisualizerRules.
Import Visualizer.

Lemma colors2rgb_yellowGreen :
  dict_get colors2rgb "yellowGreen" = Ok both_correct_color.
Proof. reflexivity. Qed.

Lemma colors2rgb_brickRed : dict_get colors2rgb "brickRed" = Ok missed_color.
Proof. reflexivity. Qed.

Lemma colors2rgb_purple : dict_get colors2rgb "purple" = Ok spurious_color.
Proof. reflexivity. Qed.

Lemma neutral_not_highlight (h : string) : ¬ is_highlight ("#22aadd" +:+ h).
Proof.
  unfold is_highlight, both_correct_color, missed_color, spurious_color.
  simpl. intros [H | [H | H]]; discriminate H.
Qed.

(** The function is a case analysis on the two stripped tags once the hex
    suffix has been computed. *)
Lemma attn_to_rgb_cases (w : num) (pred_tag gold_tag h : string) :
  attn_hex w = Ok h →
  _attn_to_rgb w pred_tag gold_tag =
    if decide (strip_prefix pred_tag = strip_prefix gold_tag) then
      if decide (strip_prefix pred_tag ≠ "O") then Ok both_correct_color
      else Ok ("#22aadd" +:+ h)
    else if decide (strip_prefix pred_tag = "O") then Ok missed_color
    else if decide (strip_prefix gold_tag = "O") then Ok spurious_color
    else Raise PdbSetTrace.
Proof.
  intros Hh. unfold _attn_to_rgb. rewrite Hh. simpl.
  rewrite colors2rgb_yellowGreen, colors2rgb_brickRed, colors2rgb_purple.
  reflexivity.
Qed.

Lemma int_of_num_finite (x : num) :
  is_finite x = true → ∃ n, int_of_num x = Ok n.
Proof.
  destruct x as [z | f]; simpl; [eauto |].
  unfold int_of_float. destruct (Prim2SF f); try discriminate; eauto.
Qed.

Lemma int_of_num_raises (x : num) :
  is_finite x = false → ∃ e, int_of_num x = Raise e.
Proof.
  destruct x as [z | f]; simpl; [discriminate |].
  unfold int_of_float. destruct (Prim2SF f); try discriminate; eauto.
Qed.

Lemma attn_hex_finite (w : num) :
  is_finite (scale w) = true → ∃ h, attn_hex w = Ok h.
Proof.
  intros Hfin. unfold attn_hex.
  destruct (int_of_num_finite _ Hfin) as [n ->]. simpl. eauto.
Qed.

(** *** What [re.sub(".*-", "", tag)] leaves *)

Lemma str_app_nil (t : string) : "" +:+ t = t.
Proof. reflexivity. Qed.

Lemma str_app_cons (a : Ascii.ascii) (s t : string) :
  String a s +:+ t = String a (s +:+ t).
Proof. reflexivity. Qed.

Lemma str_app_nil_r (s : string) : s +:+ "" = s.
Proof. induction s as [| a s IH]; [reflexivity |]. now rewrite str_app_cons, IH. Qed.

Lemma no_dash_app (s t : string) : no_dash s → no_dash t → no_dash (s +:+ t).
Proof.
  induction s as [| c s IH]; [auto |].
  rewrite str_app_cons. simpl. intros [? ?] ?; auto.
Qed.

Lemma app_assoc_char (seg : string) (c : Ascii.ascii) (t : string) :
  (seg +:+ String c "") +:+ t = seg +:+ String c t.
Proof.
  induction seg as [| a seg IH]; [reflexivity |].
  now rewrite !str_app_cons, IH.
Qed.

Lemma re_sub_upto_dash_no_dash (s seg : string) :
  no_dash seg → no_dash (re_sub_upto_dash seg s).
Proof.
  revert seg. induction s as [| c s IH]; simpl; intros seg Hseg; [assumption |].
  repeat case_decide.
  - apply IH. exact I.
  - apply no_dash_app; [assumption |]. simpl. split; [assumption |].
    apply IH. exact I.
  - apply IH. apply no_dash_app; [assumption |]. simpl. auto.
Qed.

Lemma re_sub_upto_dash_id (t seg : string) :
  no_dash t → re_sub_upto_dash seg t = seg +:+ t.
Proof.
  revert seg. induction t as [| c t IH]; simpl; intros seg Ht.
  - now rewrite str_app_nil_r.
  - destruct Ht as [Hc Ht]. repeat case_decide; try contradiction.
    + rewrite (IH "" Ht). reflexivity.
    + rewrite (IH _ Ht). apply app_assoc_char.
Qed.

(** A tag without ["-"] is its own entity type. *)
Lemma strip_prefix_no_dash (t : string) : no_dash t → strip_prefix t = t.
Proof. intros Ht. unfold strip_prefix. now rewrite re_sub_upto_dash_id. Qed.

Lemma strip_prefix_idempotent (t : string) :
  strip_prefix (strip_prefix t) = strip_prefix t.
Proof.
  apply strip_prefix_no_dash. apply re_sub_upto_dash_no_dash. exact I.
Qed.

Lemma re_sub_upto_dash_line (pre ty seg : string) :
  no_newline pre → no_dash ty →
  re_sub_upto_dash seg (pre +:+ String "-" ty) = ty.
Proof.
  revert seg. induction pre as [| c pre IH]; intros seg Hpre Hty.
  - rewrite str_app_nil. simpl. now rewrite re_sub_upto_dash_id.
  - rewrite str_app_cons. simpl. destruct Hpre as [Hc Hpre].
    repeat case_decide; try contradiction; auto.
Qed.

(** X22.  The tag stripping of [_attn_to_rgb], [re.sub(".*-", "", tag)],
    removes everything up to and including the last ["-"] of a one-line
    tag: what is left of a tag with a prefix is its entity type. *)
Lemma strip_prefix_span (pre ty : string) :
  no_newline pre → no_dash ty → strip_prefix (pre +:+ "-" +:+ ty) = ty.
Proof.
  intros. unfold strip_prefix.
  change ("-" +:+ ty) with (String "-" ty). now apply re_sub_upto_dash_line.
Qed.

Example strip_prefix_b_per : strip_prefix "B-PER" = "PER".
Proof. reflexivity. Qed.

Example strip_prefix_i_per : strip_prefix "I-PER" = "PER".
Proof. reflexivity. Qed.

Example strip_prefix_two_dashes : strip_prefix "B-geo-loc" = "loc".
Proof. reflexivity. Qed.

(** The colour depends on the tags only through their entity types. *)
Lemma attn_to_rgb_stripped (w : num) (pred_tag gold_tag : string) :
  _attn_to_rgb w pred_tag gold_tag
  = _attn_to_rgb w (strip_prefix pred_tag) (strip_prefix gold_tag).
Proof. unfold _attn_to_rgb. now rewrite !strip_prefix_idempotent. Qed.

(** C8.  For every token position the visualizer renders (the colour
    function returned [c]), with the entity types read off the predicted
    and the gold tag by [strip_prefix]: agreement on a type other than "O"
    gives the single "both correct" colour; predicted "O" against a gold
    type other than "O" gives the "missed" colour; a predicted type other
    than "O" against gold "O" gives the "spurious" colour; and "O" on both
    sides gives the tone "#22aadd" followed by the weight's hex digits,
    which is none of the three highlight colours. *)
Theorem attn_to_rgb_color_rule (w : num) (pred_tag gold_tag c : string) :
  _attn_to_rgb w pred_tag gold_tag = Ok c →
  (strip_prefix pred_tag = strip_prefix gold_tag →
   strip_prefix pred_tag ≠ "O" → c = both_correct_color) ∧
  (strip_prefix pred_tag = "O" → strip_prefix gold_tag ≠ "O" →
   c = missed_color) ∧
  (strip_prefix pred_tag ≠ "O" → strip_prefix gold_tag = "O" →
   c = spurious_color) ∧
  (strip_prefix pred_tag = "O" → strip_prefix gold_tag = "O" →
   (∃ h, attn_hex w = Ok h ∧ c = "#22aadd" +:+ h) ∧ ¬ is_highlight c).
Proof.
  intros Hc. destruct (attn_hex w) as [h | e] eqn:Hh.
  - rewrite (attn_to_rgb_cases _ _ _ _ Hh) in Hc.
    split; [| split; [| split]]; intros H1 H2;
      repeat case_decide; try congruence.
    assert (c = "#22aadd" +:+ h) as -> by congruence.
    split; [eauto | apply neutral_not_highlight].
  - unfold _attn_to_rgb in Hc. rewrite Hh in Hc. discriminate Hc.
Qed.

(** C10 as the code has it.  The function depends on the two tags only
    through [strip_prefix], which removes everything up to and including
    the last "-".  When the scaled weight [abs(w) * 255] is an [int] or a
    finite float, and the stripped tags are equal or one of them is "O",
    the function returns a colour, and the [pdb.set_trace()] branch, which
    assigns none, is not reached; that branch is reached exactly for two
    different types that are both not "O". *)
Theorem attn_to_rgb_total (w : num) (pred_tag gold_tag : string) :
  is_finite (scale w) = true →
  (strip_prefix pred_tag = strip_prefix gold_tag
   ∨ strip_prefix pred_tag = "O" ∨ strip_prefix gold_tag = "O"
   → ∃ c, _attn_to_rgb w pred_tag gold_tag = Ok c)
  ∧ (_attn_to_rgb w pred_tag gold_tag = Raise PdbSetTrace
     ↔ strip_prefix pred_tag ≠ strip_prefix gold_tag
       ∧ strip_prefix pred_tag ≠ "O" ∧ strip_prefix gold_tag ≠ "O")
  ∧ _attn_to_rgb w pred_tag gold_tag
    = _attn_to_rgb w (strip_prefix pred_tag) (strip_prefix gold_tag).
Proof.
  intros Hfin. destruct (attn_hex_finite _ Hfin) as [h Hh].
  rewrite (attn_to_rgb_cases _ _ _ _ Hh).
  split; [| split].
  - intros Hpre. repeat case_decide; eauto.
    destruct Hpre as [? | [? | ?]]; contradiction.
  - repeat case_decide; split; try discriminate; try tauto.
  - rewrite <- (attn_to_rgb_cases _ _ _ _ Hh). apply attn_to_rgb_stripped.
Qed.

End VisualizerRules.

Section ForwardFacts.
Import Classifier.

Context {Val : Type}.
Variable np_log : float → float.
Variable ClassificationMetrics : LabelIndexer → Val.
Variable get_text_field_mask : option Val → Val.

Abbreviation forward := (Classifier.forward Val get_text_field_mask).
Abbreviation call_forward := (Classifier.call_forward Val get_text_field_mask).
Abbreviation __init__ := (Classifier.__init__ Val np_log ClassificationMetrics).

Lemma call_not_rejection (callee : string) (f : attr Val) (args : list (option Val))
    (t : list (event Val)) (e : exn) :
  call Val callee f args = (t, Raise e) → e = TypeError "object is not callable".
Proof. destruct f; simpl; unfold lift; intros [= ? ?]; subst; auto. Qed.

Lemma getattr_not_rejection (self : gmap string (attr Val)) (name : string) (e : exn) :
  getattr Val self name = Raise e → e = AttributeError name.
Proof. unfold getattr. destruct (self !! name); intros [= ?]; auto. Qed.

(** The attributes the constructor leaves on the object. *)
Lemma init_attributes vocab emb gen sampler ident li thresh reg :
  dom (__init__ vocab emb gen sampler ident li thresh reg)
  = {[ "_regularizer"; "vocab"; "label_indexer"; "num_labels"; "thresh";
       "log_thresh"; "text_field_embedder"; "generator"; "identifier";
       "classification_metric" ]}.
Proof.
  unfold Classifier.__init__. cbv zeta.
  rewrite !dom_insert_L, dom_empty_L. apply (bool_decide_unpack _).
  vm_compute. exact I.
Qed.

Lemma init_no_sampler vocab emb gen sampler ident li thresh reg :
  getattr Val (__init__ vocab emb gen sampler ident li thresh reg) "sampler"
  = Raise (AttributeError "sampler").
Proof.
  unfold getattr.
  rewrite (proj1 (not_elem_of_dom (D := gset string) _ "sampler"));
    [reflexivity |].
  rewrite init_attributes. apply (bool_decide_unpack _). vm_compute. exact I.
Qed.

Lemma init_embedder vocab emb gen sampler ident li thresh reg :
  getattr Val (__init__ vocab emb gen sampler ident li thresh reg)
    "text_field_embedder"
  = Ok (AModule emb).
Proof.
  unfold getattr, Classifier.__init__. cbv zeta.
  rewrite !lookup_insert_ne by discriminate. now rewrite lookup_insert_eq.
Qed.

Lemma init_generator vocab emb gen sampler ident li thresh reg :
  getattr Val (__init__ vocab emb gen sampler ident li thresh reg) "generator"
  = Ok (AModule gen).
Proof.
  unfold getattr, Classifier.__init__. cbv zeta.
  rewrite !lookup_insert_ne by discriminate. now rewrite lookup_insert_eq.
Qed.

(** C1, as the code behaves.  On an object built by the constructor,
    whatever was passed as [sampler] (absent, [None], or a module), a
    forward call without extra keyword arguments runs the embedder, the
    mask and the generator and then raises [AttributeError] on
    [self.sampler]: the identifier is never called. *)
Theorem forward_fails_on_sampler_access vocab emb gen sampler ident li thresh reg
    (tokens labels tags : option Val) :
  forward (__init__ vocab emb gen sampler ident li thresh reg)
          tokens labels tags ∅
  = ([Call "text_field_embedder" [tokens];
      Call "get_text_field_mask" [tokens];
      Call "generator" [Some (emb [tokens]); Some (get_text_field_mask tokens)]],
     Raise (AttributeError "sampler")).
Proof.
  unfold Classifier.forward.
  rewrite decide_False by (rewrite map_size_empty; lia).
  rewrite init_embedder, init_generator, init_no_sampler. reflexivity.
Qed.

(** Had the constructor stored [None] under [sampler], the [else] branch
    would hand the generator's attention to the identifier twice, as
    sampled and as raw attention. *)
Lemma forward_none_sampler_passthrough (self : gmap string (attr Val)) emb gen ident
    (tokens labels tags : option Val) :
  self !! "text_field_embedder" = Some (AModule emb) →
  self !! "generator" = Some (AModule gen) →
  self !! "identifier" = Some (AModule ident) →
  self !! "sampler" = Some ANone →
  let emb_msg := emb [tokens] in
  let mask := get_text_field_mask tokens in
  let attentions := gen [Some emb_msg; Some mask] in
  forward self tokens labels tags ∅
  = ([Call "text_field_embedder" [tokens];
      Call "get_text_field_mask" [tokens];
      Call "generator" [Some emb_msg; Some mask];
      Call "identifier"
        [Some emb_msg; Some mask; Some attentions; Some attentions; labels]],
     Ok (ident [Some emb_msg; Some mask; Some attentions; Some attentions; labels])).
Proof.
  intros He Hg Hi Hs. unfold Classifier.forward, getattr.
  rewrite He, Hg, Hi, Hs. reflexivity.
Qed.

Ltac forward_step :=
  match goal with
  | |- context [?self !! ?name] =>
      destruct (self !! name) as [[] |]; simpl
  end.

(** The body of [forward] after the keyword check can fail only on an
    attribute access or on calling something that is not a module. *)
Lemma forward_body_not_rejection (self : gmap string (attr Val))
    (tokens labels tags : option Val) (msg : string) :
  (forward self tokens labels tags ∅).2 ≠ Raise (NotImplementedError msg).
Proof.
  unfold Classifier.forward, getattr, call, lift. simpl.
  repeat forward_step; simpl; discriminate.
Qed.

(** The first statement of [forward]: any keyword left over is
    rejected, and nothing has been called by then. *)
Lemma forward_nonempty_kwargs (self : gmap string (attr Val))
    (tokens labels tags : option Val) (kwargs : gmap string (option Val)) :
  kwargs ≠ ∅ →
  forward self tokens labels tags kwargs = ([], Raise rejection).
Proof.
  intros Hne. unfold Classifier.forward.
  case_decide as Hsz; [reflexivity |].
  exfalso. apply Hne. apply map_size_empty_iff. lia.
Qed.

(** C7.  A forward call whose [kwargs] holds any key raises
    [NotImplementedError] and has called nothing: no embedder, mask,
    generator, sampler or identifier.  A call with empty [kwargs] does
    not raise [NotImplementedError] at all. *)
Theorem forward_rejects_extra_kwargs (self : gmap string (attr Val))
    (tokens labels tags : option Val) (kwargs : gmap string (option Val)) :
  (kwargs ≠ ∅ →
   forward self tokens labels tags kwargs = ([], Raise rejection))
  ∧ (kwargs = ∅ →
     ∀ msg, (forward self tokens labels tags kwargs).2
            ≠ Raise (NotImplementedError msg)).
Proof.
  split.
  - apply forward_nonempty_kwargs.
  - intros -> msg. apply forward_body_not_rejection.
Qed.

(** X20.  At the call site, where a batch dictionary is splatted into
    keyword arguments: a batch with a key other than [tokens], [labels]
    and [tags] (the reader's [attn_mask], say) is rejected with
    [NotImplementedError] before any sub-module is called. *)
Lemma call_forward_rejects_unknown_key (self : gmap string (attr Val))
    (batch : gmap string (option Val)) (key : string) :
  is_Some (batch !! "tokens") → is_Some (batch !! key) →
  key ≠ "tokens" → key ≠ "labels" → key ≠ "tags" →
  call_forward self batch = ([], Raise rejection).
Proof.
  intros [tokens Ht] [v Hv] H1 H2 H3. unfold Classifier.call_forward.
  rewrite Ht. apply forward_nonempty_kwargs.
  intros Hempty.
  assert (delete "tags" (delete "labels" (delete "tokens" batch)) !! key = Some v)
    as Hk by (rewrite !lookup_delete_ne by congruence; exact Hv).
  rewrite Hempty, lookup_empty in Hk. discriminate.
Qed.

End ForwardFacts.

Section DecodeFacts.
Import Classifier.

Variable np_exp : float → float.

Abbreviation decode := (Classifier.decode np_exp).
Abbreviation pred_list_of := (Classifier.pred_list_of np_exp).
Abbreviation pred_entry := (Classifier.pred_entry np_exp).
Abbreviation entry_for := (Classifier.entry_for np_exp).

(** *** [np.nonzero] *)

Lemma nonzero_from_elem (row : list Z) (i k : nat) :
  k ∈ nonzero_from i row
  ↔ i ≤ k ∧ ∃ v, row !! (k - i) = Some v ∧ v ≠ 0%Z.
Proof.
  revert i. induction row as [| v row IH]; intros i; simpl.
  - split; [inversion 1 | intros (_ & ? & ? & _); discriminate].
  - case_decide as Hv.
    + rewrite IH. split.
      * intros (Hle & w & Hw & Hne). split; [lia |]. exists w.
        replace (k - i) with (S (k - S i)) by lia. auto.
      * intros (Hle & w & Hw & Hne).
        destruct (decide (k = i)) as [-> | Hki].
        { rewrite Nat.sub_diag in Hw. simpl in Hw. congruence. }
        split; [lia |]. exists w.
        replace (k - i) with (S (k - S i)) in Hw by lia. auto.
    + rewrite elem_of_cons, IH. split.
      * intros [-> | (Hle & w & Hw & Hne)].
        { split; [lia |]. exists v. rewrite Nat.sub_diag. auto. }
        split; [lia |]. exists w.
        replace (k - i) with (S (k - S i)) by lia. auto.
      * intros (Hle & w & Hw & Hne).
        destruct (decide (k = i)) as [-> | Hki]; [now left | right].
        split; [lia |]. exists w.
        replace (k - i) with (S (k - S i)) in Hw by lia. auto.
Qed.

(** The indices are exactly the set bits... *)
Lemma nonzero_elem (row : list Z) (k : nat) :
  k ∈ nonzero row ↔ ∃ v, row !! k = Some v ∧ v ≠ 0%Z.
Proof.
  unfold nonzero. rewrite nonzero_from_elem, Nat.sub_0_r.
  split; [now intros [_ ?] | intros ?; split; [lia | assumption]].
Qed.

(** ... listed once each, in increasing order. *)
Lemma nonzero_from_sorted (row : list Z) (i : nat) :
  StronglySorted lt (nonzero_from i row).
Proof.
  revert i. induction row as [| v row IH]; intros i; simpl; [constructor |].
  case_decide; [apply IH |]. constructor; [apply IH |].
  apply Forall_forall. intros k Hk%nonzero_from_elem. lia.
Qed.

Lemma nonzero_sorted (row : list Z) : StronglySorted lt (nonzero row).
Proof. apply nonzero_from_sorted. Qed.

Lemma nonzero_all_zero (row : list Z) :
  Forall (fun v => v = 0%Z) row → nonzero row = [].
Proof.
  intros Hall. destruct (nonzero row) as [| k ks] eqn:E; [reflexivity |].
  assert (k ∈ nonzero row) as Hk by (rewrite E; left).
  apply nonzero_elem in Hk as (v & Hv & Hne).
  rewrite Forall_lookup in Hall. specialize (Hall _ _ Hv). contradiction.
Qed.

Example nonzero_101 : nonzero [1; 0; 1]%Z = [0; 2].
Proof. reflexivity. Qed.

(** *** The prediction list of one instance *)

Lemma pred_entry_ok li log_probs ix k e :
  pred_entry li log_probs ix k = Ok e ↔ entry_for li log_probs ix k e.
Proof.
  unfold Classifier.pred_entry, Classifier.entry_for. rewrite bind_ok. split.
  - intros (tag & Htag & H). apply bind_ok in H as (row & Hrow%list_get_ok & H).
    apply bind_ok in H as (lp & Hlp%list_get_ok & [= <-]). simpl. eauto 6.
  - intros (Htag & row & lp & Hrow & Hlp & He). exists e.1. split; [assumption |].
    apply bind_ok. exists row. split; [now apply list_get_ok |].
    apply bind_ok. exists lp. split; [now apply list_get_ok |].
    destruct e; simpl in *. now subst.
Qed.

Lemma pred_list_of_ok li log_probs ix row pl :
  pred_list_of li log_probs ix row = Ok pl
  ↔ ∃ entries,
      Forall2 (entry_for li log_probs ix) (nonzero row) entries
      ∧ pl = if decide (entries = []) then [("O", 1%float)] else entries.
Proof.
  unfold Classifier.pred_list_of. cbv zeta. rewrite bind_ok.
  setoid_rewrite mapM_ok. split.
  - intros (entries & Hall & H). exists entries. split.
    + eapply Forall2_impl; [exact Hall |]. intros k e. apply pred_entry_ok.
    + destruct entries; simpl in H; now inversion H.
  - intros (entries & Hall & ->). exists entries. split.
    + eapply Forall2_impl; [exact Hall |]. intros k e. apply pred_entry_ok.
    + now destruct entries.
Qed.

(** *** The batch *)

Lemma decode_lookup li outputs d ix :
  decode li outputs = Ok d → ix < length (mask outputs) →
  ∃ row pl at_ix,
    preds outputs !! ix = Some row
    ∧ pred_list_of li (log_probs outputs) ix row = Ok pl
    ∧ d_preds d !! ix = Some pl
    ∧ d_attentions d !! ix = Some at_ix.
Proof.
  unfold Classifier.decode. cbv zeta. intros H Hix.
  apply bind_ok in H as (decoded & Hmap & [= <-]). simpl.
  assert (seq 0 (length (lengths_of (mask outputs))) !! ix = Some ix) as Hseq.
  { apply lookup_seq. unfold lengths_of. rewrite length_map. lia. }
  destruct (mapM_lookup _ _ _ _ _ Hmap Hseq) as ([pl at_ix] & Hy & Hinst).
  unfold decode_instance in Hinst.
  apply bind_ok in Hinst as (row & Hrow%list_get_ok & Hinst).
  apply bind_ok in Hinst as (pl' & Hpl & Hinst).
  apply bind_ok in Hinst as (len & _ & Hinst).
  apply bind_ok in Hinst as (at' & _ & [= -> ->]).
  exists row, pl, at_ix. rewrite !list_lookup_fmap, Hy. auto.
Qed.

Lemma decode_length li outputs d :
  decode li outputs = Ok d →
  length (d_preds d) = length (mask outputs)
  ∧ length (d_attentions d) = length (mask outputs).
Proof.
  unfold Classifier.decode. cbv zeta. intros H.
  apply bind_ok in H as (decoded & Hmap%mapM_length & [= <-]). simpl.
  rewrite !length_fmap, Hmap, length_seq. unfold lengths_of.
  now rewrite length_map.
Qed.

(** *** When [decode] returns *)

Lemma attention_loop_total li rows jxs attention (T : nat) :
  Forall (fun row : list float => length row = T) rows →
  Forall (fun jx => jx < T ∧ ∃ tag, get_tag li jx = Ok tag) jxs →
  ∃ r, attention_loop li rows jxs attention = Ok r.
Proof.
  intros Hrows Hjxs. revert attention.
  induction Hjxs as [| jx jxs [Hjx [tag Htag]] _ IH]; intros attention; simpl.
  - eauto.
  - rewrite Htag. simpl.
    destruct (mapM_total (fun row : list float => list_get row jx) rows)
      as [column Hcol].
    { eapply Forall_impl; [exact Hrows |]. intros row Hlen. simpl in Hlen.
      destruct (lookup_lt_is_Some_2 row jx) as [x Hx]; [lia |].
      exists x. now apply list_get_ok. }
    rewrite Hcol. simpl. apply IH.
Qed.

Lemma slice_to_Forall {A} (P : A → Prop) (n : Z) (l : list A) :
  Forall P l → Forall P (slice_to n l).
Proof. unfold slice_to. intros H. destruct (n <? 0)%Z; now apply Forall_take. Qed.

(** X17.  [decode] returns on arrays of consistent shape: as many rows of
    predictions, log-probabilities and attentions as the mask has, rows of
    one length each, and a label indexer that knows every index used. *)
Lemma decode_returns li outputs n_preds :
  well_shaped li outputs n_preds → ∃ d, decode li outputs = Ok d.
Proof.
  intros (Hp & Hlp & Ha & Hprow & Hlprow & Harow & Htag).
  unfold Classifier.decode. cbv zeta.
  destruct (mapM_total
              (decode_instance np_exp li outputs (lengths_of (mask outputs)))
              (seq 0 (length (lengths_of (mask outputs))))) as [decoded Hd];
    [| rewrite Hd; simpl; eauto].
  apply Forall_forall. intros ix Hix%elem_of_seq.
  unfold lengths_of in Hix. rewrite length_map in Hix.
  unfold decode_instance.
  destruct (lookup_lt_is_Some_2 (preds outputs) ix) as [row Hrow]; [lia |].
  destruct (lookup_lt_is_Some_2 (log_probs outputs) ix) as [lprow Hlprow_ix];
    [lia |].
  destruct (lookup_lt_is_Some_2 (data3 (attentions outputs)) ix)
    as [arows Harows]; [lia |].
  destruct (lookup_lt_is_Some_2 (lengths_of (mask outputs)) ix)
    as [len Hlen]; [unfold lengths_of; rewrite length_map; lia |].
  rewrite (proj2 (list_get_ok _ _ _) Hrow). simpl.
  assert (∃ pl, pred_list_of li (log_probs outputs) ix row = Ok pl)
    as [pl Hpl].
  { unfold Classifier.pred_list_of. cbv zeta.
    destruct (mapM_total (pred_entry li (log_probs outputs) ix) (nonzero row))
      as [entries He].
    - apply Forall_forall. intros k (v & Hv & _)%nonzero_elem.
      apply lookup_lt_Some in Hv.
      rewrite Forall_forall in Hprow. rewrite Forall_forall in Hlprow.
      assert (length row = n_preds) as Hr
        by (eapply Hprow, list_elem_of_lookup_2, Hrow).
      assert (length lprow = n_preds) as Hl
        by (eapply Hlprow, list_elem_of_lookup_2, Hlprow_ix).
      destruct (Htag k) as [tag Hk]; [lia |].
      destruct (lookup_lt_is_Some_2 lprow k) as [lp Hlp_k]; [lia |].
      exists (tag, np_exp lp). apply pred_entry_ok. split; [assumption |].
      eauto.
    - rewrite He. simpl. case_decide; eauto. }
  rewrite Hpl. simpl.
  rewrite (proj2 (list_get_ok _ _ _) Hlen). simpl.
  unfold attention_of. rewrite (proj2 (list_get_ok _ _ _) Harows). simpl.
  destruct (attention_loop_total li (slice_to len arows)
              (seq 0 (shape_last (attentions outputs))) []
              (shape_last (attentions outputs))) as [at_ix Hat].
  - apply slice_to_Forall. rewrite Forall_forall in Harow.
    eapply Harow, list_elem_of_lookup_2, Harows.
  - apply Forall_forall. intros jx Hjx%elem_of_seq.
    split; [lia |]. apply Htag. lia.
  - rewrite Hat. simpl. eauto.
Qed.

(** C4.  An instance whose prediction bits are all zero gets the one-entry
    list [("O", 1.0)]: its prediction list is computed without any call
    that could raise, and in every decoded batch it stands at the
    instance's position.  No instance of a decoded batch has an empty
    prediction list. *)
Theorem decode_all_zero_is_O (li : LabelIndexer) (outputs : Outputs) :
  (∀ ix row, Forall (fun v => v = 0%Z) row →
     pred_list_of li (log_probs outputs) ix row = Ok [("O", 1%float)])
  ∧ (∀ d ix row,
       decode li outputs = Ok d → ix < length (mask outputs) →
       preds outputs !! ix = Some row → Forall (fun v => v = 0%Z) row →
       d_preds d !! ix = Some [("O", 1%float)])
  ∧ (∀ d pl, decode li outputs = Ok d → pl ∈ d_preds d → pl ≠ []).
Proof.
  assert (∀ ix row, Forall (fun v => v = 0%Z) row →
     pred_list_of li (log_probs outputs) ix row = Ok [("O", 1%float)]) as Hzero.
  { intros ix row Hall. unfold Classifier.pred_list_of.
    rewrite (nonzero_all_zero _ Hall). reflexivity. }
  split; [exact Hzero | split].
  - intros d ix row Hd Hix Hrow Hall.
    destruct (decode_lookup _ _ _ _ Hd Hix) as (row' & pl & at_ix & Hrow' & Hpl & Hdp & _).
    assert (row' = row) as -> by congruence.
    rewrite (Hzero ix row Hall) in Hpl. congruence.
  - intros d pl Hd (ix & Hix)%list_elem_of_lookup.
    assert (ix < length (mask outputs)) as Hlt.
    { rewrite <- (proj1 (decode_length _ _ _ Hd)). eapply lookup_lt_Some, Hix. }
    destruct (decode_lookup _ _ _ _ Hd Hlt) as (row & pl' & at_ix & _ & Hpl & Hdp & _).
    assert (pl' = pl) as -> by congruence.
    apply pred_list_of_ok in Hpl as (entries & _ & ->).
    case_decide; [discriminate | assumption].
Qed.

(** C5.  In a decoded batch the prediction list of instance [ix] has one
    entry per index of [np.nonzero(predictions[ix])], in that order; the
    entry of index [k] is the tag [get_tag(k)] with the probability
    [np.exp(log_probs[ix, k])].  The indices are the set bits, each once,
    in increasing order.  (With no bit set the list is the default
    [("O", 1.0)].) *)
Theorem decode_set_bits (li : LabelIndexer) (outputs : Outputs)
    (d : Decoded) (ix : nat) (row : list Z) :
  decode li outputs = Ok d → ix < length (mask outputs) →
  preds outputs !! ix = Some row →
  (∃ entries,
     Forall2 (entry_for li (log_probs outputs) ix) (nonzero row) entries
     ∧ d_preds d !! ix
       = Some (if decide (entries = []) then [("O", 1%float)] else entries))
  ∧ StronglySorted lt (nonzero row)
  ∧ (∀ k, k ∈ nonzero row ↔ ∃ v, row !! k = Some v ∧ v ≠ 0%Z).
Proof.
  intros Hd Hix Hrow.
  destruct (decode_lookup _ _ _ _ Hd Hix) as (row' & pl & at_ix & Hrow' & Hpl & Hdp & _).
  assert (row' = row) as -> by congruence.
  apply pred_list_of_ok in Hpl as (entries & Hall & ->).
  split; [eauto | split; [apply nonzero_sorted | apply nonzero_elem]].
Qed.

(** The example of the specification: bits [1, 0, 1] and log-probabilities
    [-0.1, -5.0, -0.3] give two entries, for the tags of index 0 and 2. *)
Example pred_list_101 (li : LabelIndexer) (t0 t2 : string) :
  get_tag li 0 = Ok t0 → get_tag li 2 = Ok t2 →
  pred_list_of li [[-0.1; -5.0; -0.3]%float] 0 [1; 0; 1]%Z
  = Ok [(t0, np_exp (-0.1)); (t2, np_exp (-0.3))].
Proof.
  intros H0 H2. unfold Classifier.pred_list_of, Classifier.pred_entry.
  simpl. rewrite H0, H2. reflexivity.
Qed.

End DecodeFacts.

(** ** The reader *)

Section ReaderMonad.
Import Reader.

Lemma rd_bind_ok {A B} (m : rd A) (f : A → rd B) (s s' : state) (b : B) :
  (m ≫= f) s = (s', Ok b) ↔ ∃ a s1, m s = (s1, Ok a) ∧ f a s1 = (s', Ok b).
Proof.
  unfold mbind, rd_bind. destruct (m s) as [s1 [a | e]]; split.
  - eauto.
  - now intros (a' & s1' & [= <- <-] & ?).
  - discriminate.
  - now intros (a' & s1' & [=] & ?).
Qed.

Lemma rd_bind_raise {A B} (m : rd A) (f : A → rd B) (s s1 : state) (e : exn) :
  m s = (s1, Raise e) → (m ≫= f) s = (s1, Raise e).
Proof. intros H. unfold mbind, rd_bind. now rewrite H. Qed.

Lemma rd_bind_step {A B} (m : rd A) (f : A → rd B) (s s1 : state) (a : A) :
  m s = (s1, Ok a) → (m ≫= f) s = f a s1.
Proof. intros H. unfold mbind, rd_bind. now rewrite H. Qed.

Lemma ok_bind {A B} (m : rd A) (f : A → rd B) s (Q : B → state → Prop) :
  ok_post m s (fun a s1 => ok_post (f a) s1 Q) → ok_post (m ≫= f) s Q.
Proof.
  intros H s' b (a & s1 & Hm & Hf)%rd_bind_ok. exact (H _ _ Hm _ _ Hf).
Qed.

Lemma ok_weaken {A} (m : rd A) s (P Q : A → state → Prop) :
  ok_post m s P → (∀ a s', P a s' → Q a s') → ok_post m s Q.
Proof. intros H HPQ s' a Hm. apply HPQ, (H _ _ Hm). Qed.

Lemma ok_ret {A} (a : A) s (Q : A → state → Prop) :
  Q a s → ok_post (mret a) s Q.
Proof. intros H s' a' [= <- <-]. exact H. Qed.

Lemma ok_lift {A} (r : res A) s (Q : A → state → Prop) :
  (∀ a, r = Ok a → Q a s) → ok_post (lift r) s Q.
Proof. intros H s' a [= <- ->]. now apply H. Qed.

Lemma ok_raise {A} (e : exn) s (Q : A → state → Prop) :
  ok_post (raise e) s Q.
Proof. intros s' a [=]. Qed.

Lemma ok_alloc (l : list string) s (Q : loc → state → Prop) :
  Q (length (heap s)) {| heap := heap s ++ [l]; log := log s |} →
  ok_post (alloc l) s Q.
Proof. intros H s' a [= <- <-]. exact H. Qed.

Lemma ok_deref (p : loc) s (Q : list string → state → Prop) :
  Q (default [] (heap s !! p)) s → ok_post (deref p) s Q.
Proof. intros H s' a [= <- <-]. exact H. Qed.

Lemma ok_logger lv msg s (Q : unit → state → Prop) :
  Q tt {| heap := heap s; log := log s ++ [(lv, msg)] |} →
  ok_post (logger lv msg) s Q.
Proof. intros H s' a [= <- <-]. exact H. Qed.

Lemma ok_try_except {A} (body : rd A) (handler : exn → rd A) s
    (Q : A → state → Prop) :
  ok_post body s Q → (∀ e s1, ok_post (handler e) s1 Q) →
  ok_post (try_except body handler) s Q.
Proof.
  intros Hb Hh s' a. unfold try_except.
  destruct (body s) as [s1 [a1 | e]] eqn:E.
  - intros [= <- <-]. exact (Hb _ _ E).
  - apply Hh.
Qed.

Lemma ok_assign (p : loc) (i : nat) (v : string) s (Q : unit → state → Prop) :
  (∀ l, heap s !! p = Some l → i < length l →
        Q tt {| heap := <[p := <[i := v]> l]> (heap s); log := log s |}) →
  ok_post (assign p i v) s Q.
Proof.
  intros H s' a. unfold assign. destruct (heap s !! p) as [l |]; [| discriminate].
  case_decide; [| discriminate]. intros [= <- <-]. now apply H.
Qed.

(** Rules for [returns]. *)

Lemma returns_bind {A B} (m : rd A) (f : A → rd B) s (Q : B → state → Prop) :
  returns m s (fun a s1 => returns (f a) s1 Q) → returns (m ≫= f) s Q.
Proof.
  intros (s1 & a & Hm & s' & b & Hf & HQ). exists s', b.
  split; [| assumption]. apply rd_bind_ok. eauto.
Qed.

Lemma returns_weaken {A} (m : rd A) s (P Q : A → state → Prop) :
  returns m s P → (∀ a s', P a s' → Q a s') → returns m s Q.
Proof. intros (s' & a & Hm & HP) HPQ. exists s', a. auto. Qed.

Lemma returns_ret {A} (a : A) s (Q : A → state → Prop) :
  Q a s → returns (mret a) s Q.
Proof. intros H. exists s, a. auto. Qed.

Lemma returns_lift {A} (a : A) s (Q : A → state → Prop) :
  Q a s → returns (lift (Ok a)) s Q.
Proof. intros H. exists s, a. auto. Qed.

Lemma returns_alloc (l : list string) s (Q : loc → state → Prop) :
  Q (length (heap s)) {| heap := heap s ++ [l]; log := log s |} →
  returns (alloc l) s Q.
Proof. intros H. eexists _, _. split; [reflexivity | exact H]. Qed.

Lemma returns_deref (p : loc) s (Q : list string → state → Prop) :
  Q (default [] (heap s !! p)) s → returns (deref p) s Q.
Proof. intros H. eexists _, _. split; [reflexivity | exact H]. Qed.

Lemma returns_logger lv msg s (Q : unit → state → Prop) :
  Q tt {| heap := heap s; log := log s ++ [(lv, msg)] |} →
  returns (logger lv msg) s Q.
Proof. intros H. eexists _, _. split; [reflexivity | exact H]. Qed.

Lemma returns_try_except {A} (body : rd A) (handler : exn → rd A) s
    (Q : A → state → Prop) :
  returns body s Q → returns (try_except body handler) s Q.
Proof.
  intros (s' & a & Hb & HQ). exists s', a. split; [| assumption].
  unfold try_except. now rewrite Hb.
Qed.

Lemma returns_SequenceLabelField (p : loc) (l : list string)
    (sequence : list Token) s (Q : loc → state → Prop) :
  heap s !! p = Some l → length l = length sequence → Q p s →
  returns (SequenceLabelField (Some p) sequence) s Q.
Proof.
  intros Hl Hlen HQ. unfold SequenceLabelField.
  apply returns_bind, returns_deref. rewrite Hl. simpl.
  case_decide; [contradiction |]. now apply returns_ret.
Qed.

Lemma returns_assign (p : loc) (i : nat) (v : string) (l : list string) s
    (Q : unit → state → Prop) :
  heap s !! p = Some l → i < length l →
  Q tt {| heap := <[p := <[i := v]> l]> (heap s); log := log s |} →
  returns (assign p i v) s Q.
Proof.
  intros Hl Hi HQ. eexists _, _. split; [| exact HQ].
  unfold assign. rewrite Hl. now rewrite decide_True.
Qed.

End ReaderMonad.

Section LineFacts.
Import Reader.

(** *** [strip], [split] and the divider test *)

Lemma rstrip_not_blank (t : string) :
  rstrip t ≠ "" → all_space (rstrip t) = false.
Proof.
  induction t as [| c t IH]; simpl; [congruence |].
  destruct (rstrip t) as [| d r] eqn:E.
  - destruct (is_space c) eqn:Hc; [congruence |]. intros _. simpl.
    now rewrite Hc.
  - intros _. simpl. rewrite andb_false_iff. right. now apply IH.
Qed.

Lemma append_char_not_empty (cur : string) (c : Ascii.ascii) :
  cur +:+ String c "" ≠ "".
Proof. destruct cur; discriminate. Qed.

Lemma split_from_not_nil (s cur : string) :
  cur ≠ "" ∨ all_space s = false → split_from cur s ≠ [].
Proof.
  revert cur. induction s as [| c s IH]; intros cur H; simpl.
  - destruct H as [H | H]; [| discriminate]. now case_decide.
  - destruct (is_space c) eqn:Hc.
    + case_decide as Hcur; [| discriminate]. apply IH. right.
      destruct H as [H | H]; [contradiction |]. simpl in H.
      now rewrite Hc in H.
    + apply IH. left. apply append_char_not_empty.
Qed.

(** A line that is not a divider has at least one field, so the
    [IndexError] of [line.split()[0]] cannot occur. *)
Lemma not_divider_has_field (line : string) :
  _is_divider line = false → split (strip line) ≠ [].
Proof.
  unfold _is_divider. cbv zeta. case_bool_decide as Hempty; [discriminate |].
  intros _. apply split_from_not_nil. right. now apply rstrip_not_blank.
Qed.

Lemma all_space_lstrip (s : string) :
  all_space (lstrip s) = all_space s.
Proof.
  induction s as [| c s IH]; simpl; [reflexivity |].
  destruct (is_space c) eqn:Hc; simpl; [assumption | now rewrite Hc].
Qed.

Lemma all_space_strip (s : string) : strip s ≠ "" → all_space s = false.
Proof.
  unfold strip. intros H. rewrite <- all_space_lstrip. revert H.
  generalize (lstrip s). clear s. intros t.
  induction t as [| c t IH]; simpl; [congruence |].
  destruct (rstrip t) as [| d r] eqn:E.
  - destruct (is_space c) eqn:Hc; [congruence | reflexivity].
  - intros _. rewrite IH by discriminate. apply andb_false_r.
Qed.

Lemma not_divider_first_token (line : string) :
  strip line ≠ "" → split line ≠ [].
Proof. intros H. apply split_from_not_nil. right. now apply all_space_strip. Qed.

(** *** [groupby] *)

Lemma groupby_groups {A} (key : A → bool) (l : list A) :
  Forall (fun g => g.2 ≠ [] ∧ Forall (fun x => key x = g.1) g.2)
         (groupby key l).
Proof.
  induction l as [| x l IH]; simpl; [constructor |].
  destruct (groupby key l) as [| [k g] gs]; [repeat constructor; discriminate |].
  inversion IH as [| ? ? [Hne Hall] Hgs]; subst. simpl in *.
  case_decide as Hk.
  - constructor; [| assumption]. simpl. split; [discriminate |].
    constructor; assumption.
  - repeat constructor; try assumption; discriminate.
Qed.

Lemma groupby_concat {A} (key : A → bool) (l : list A) :
  concat (groupby key l).*2 = l.
Proof.
  induction l as [| x l IH]; simpl; [reflexivity |].
  destruct (groupby key l) as [| [k g] gs]; simpl in *; [now subst |].
  case_decide; simpl; now rewrite <- IH.
Qed.

(** *** The columns of a sentence chunk *)

Lemma zip_with_cons_Forall (P Q : list string → Prop) (row : list string)
    (cols : list (list string)) :
  (∀ x col, Q col → P (x :: col)) →
  Forall Q cols → Forall P (zip_with cons row cols).
Proof.
  intros HPQ Hcols. revert row.
  induction Hcols as [| col cols Hcol _ IH]; intros [| x row]; simpl;
    constructor; auto.
Qed.

(** Every column has one entry per row. *)
Lemma zip_star_columns (fields : list (list string)) :
  Forall (fun col => length col = length fields) (zip_star fields).
Proof.
  induction fields as [| row rest IH]; simpl; [constructor |].
  destruct rest as [| row' rest'].
  - apply Forall_fmap, Forall_forall. reflexivity.
  - apply (zip_with_cons_Forall _ _ _ _ (fun x col H => f_equal S H) IH).
Qed.

Lemma zip_star_length (fields : list (list string)) :
  fields ≠ [] → Forall (fun row => row ≠ []) fields →
  0 < length (zip_star fields).
Proof.
  induction fields as [| row rest IH]; [congruence |].
  intros _ Hrows. inversion Hrows as [| ? ? Hrow Hrest]; subst.
  change (zip_star (row :: rest))
    with (match rest with
          | [] => (fun x => [x]) <$> row
          | _ => zip_with cons row (zip_star rest)
          end).
  destruct rest as [| row' rest'].
  - rewrite length_fmap. destruct row; [congruence | simpl; lia].
  - rewrite length_zip_with.
    assert (0 < length (zip_star (row' :: rest')))
      by (apply IH; [discriminate | assumption]).
    destruct row; [congruence |]. cbn [length]. lia.
Qed.

(** A sentence chunk of a file has at least one line, every line has at
    least one field, and so the chunk has at least one column. *)
Lemma sentence_has_column (data_file lines : list string) :
  lines ∈ sentences data_file → 0 < column_count lines.
Proof.
  unfold sentences. intros ([k g] & -> & [Hk Hg]%list_elem_of_filter)%list_elem_of_fmap.
  simpl in *. subst k.
  pose proof (groupby_groups _is_divider data_file) as Hgroups.
  rewrite Forall_forall in Hgroups. destruct (Hgroups _ Hg) as [Hne Hall].
  simpl in *. unfold column_count, fields_of. apply zip_star_length.
  - destruct g; [congruence | discriminate].
  - apply Forall_fmap. eapply Forall_impl; [exact Hall |].
    intros line Hline. now apply not_divider_has_field.
Qed.

End LineFacts.

Section WindowFacts.
Import Reader.

(** *** Slicing a list into windows *)

Lemma slice_take_drop {A} (ix stepsize : nat) (l : list A) :
  slice ix (ix + stepsize) l = take stepsize (drop ix l).
Proof. unfold slice. f_equal. lia. Qed.

Lemma range_from_concat {A} (l : list A) (stepsize fuel start : nat) :
  0 < stepsize → length l - start ≤ fuel →
  concat ((fun ix => slice ix (ix + stepsize) l)
            <$> range_from fuel start (length l) stepsize)
  = drop start l.
Proof.
  intros Hstep. revert start. induction fuel as [| fuel IH]; intros start Hfuel; simpl.
  - symmetry. apply drop_ge. lia.
  - case_decide as Hlt; simpl.
    + rewrite IH by lia. rewrite slice_take_drop.
      rewrite <- (take_drop stepsize (drop start l)) at 2.
      now rewrite drop_drop.
    + symmetry. apply drop_ge. lia.
Qed.

Lemma range_from_bounds (fuel start stop stepsize : nat) :
  Forall (fun ix => start ≤ ix < stop) (range_from fuel start stop stepsize).
Proof.
  revert start. induction fuel as [| fuel IH]; intros start; simpl; [constructor |].
  case_decide; [| constructor]. constructor; [lia |].
  eapply Forall_impl; [apply IH |]. simpl. intros; lia.
Qed.

(** All windows but the last are full. *)
Lemma range_from_full (fuel start stop stepsize i ix : nat) :
  range_from fuel start stop stepsize !! i = Some ix →
  S i < length (range_from fuel start stop stepsize) →
  ix + stepsize < stop.
Proof.
  revert start i. induction fuel as [| fuel IH]; intros start i; simpl; [discriminate |].
  case_decide; [| discriminate]. destruct i as [| i]; simpl.
  - intros [= <-] Hlen. destruct fuel as [| fuel']; simpl in Hlen; [lia |].
    case_decide; [assumption | simpl in Hlen; lia].
  - intros Hi Hlen. apply (IH _ _ Hi). lia.
Qed.

(** The windows of a list, concatenated in order, are the list. *)
Lemma windows_of_concat {A} (stepsize : nat) (l : list A) :
  0 < stepsize → concat (windows_of stepsize l) = l.
Proof.
  intros Hstep. unfold windows_of. rewrite range_from_concat by lia.
  reflexivity.
Qed.

(** No window is empty or longer than the step. *)
Lemma windows_of_length {A} (stepsize : nat) (l w : list A) :
  0 < stepsize → w ∈ windows_of stepsize l → 1 ≤ length w ≤ stepsize.
Proof.
  unfold windows_of. intros Hstep (ix & -> & Hix)%list_elem_of_fmap.
  pose proof (range_from_bounds (length l) 0 (length l) stepsize) as Hb.
  rewrite Forall_forall in Hb. specialize (Hb _ Hix).
  rewrite slice_take_drop, length_take, length_drop. lia.
Qed.

(** Every window but the last has exactly the step's length. *)
Lemma windows_of_full {A} (stepsize : nat) (l w : list A) (i : nat) :
  windows_of stepsize l !! i = Some w →
  S i < length (windows_of stepsize l) → length w = stepsize.
Proof.
  unfold windows_of. rewrite list_lookup_fmap, length_fmap.
  destruct (range_from _ _ _ _ !! i) as [ix |] eqn:Hix; [| discriminate].
  intros [= <-] Hlen. pose proof (range_from_full _ _ _ _ _ _ Hix Hlen).
  rewrite slice_take_drop, length_take, length_drop. lia.
Qed.

Example windows_of_5_by_2 :
  windows_of 2 [1; 2; 3; 4; 5] = [[1; 2]; [3; 4]; [5]].
Proof. reflexivity. Qed.

End WindowFacts.

Section ReadFacts.
Import Reader.

Variable self : WeakConll2003DatasetReader.
Variable file_path : string.

Lemma ok_SequenceLabelField (labels : option loc) (sequence : list Token) s
    (Q : loc → state → Prop) :
  (∀ p, labels = Some p →
        length (default [] (heap s !! p)) = length sequence → Q p s) →
  ok_post (SequenceLabelField labels sequence) s Q.
Proof.
  intros H. unfold SequenceLabelField. destruct labels as [p |]; [| apply ok_raise].
  apply ok_bind, ok_deref. case_decide as Hlen; [apply ok_raise |].
  apply ok_ret, H; [reflexivity |]. now apply dec_stable.
Qed.

(** The store only grows while the instances are built, and what a field
    holds stays what it was. *)
Lemma field_labels_grows (s s' : state) (instance : Instance) (name : string)
    (l : list string) :
  heap s `prefix_of` heap s' →
  field_labels s instance name = Some l →
  field_labels s' instance name = Some l.
Proof.
  unfold field_labels. intros Hpre.
  destruct (seq_fields instance !! name) as [p |]; simpl; [| discriminate].
  intros Hl. eapply prefix_lookup_Some; eassumption.
Qed.

Lemma ner_consistent_grows (s s' : state) (instance : Instance) :
  heap s `prefix_of` heap s' →
  ner_consistent self s instance → ner_consistent self s' instance.
Proof.
  intros Hpre H Hner. destruct (H Hner) as (tags & Htags & Hlab).
  exists tags. split; [| assumption]. eapply field_labels_grows; eassumption.
Qed.

Lemma recode_ok chunk_tags ner_tags ix stepsize s :
  ok_post (recode self chunk_tags ner_tags ix stepsize) s
    (fun coded s' =>
       heap s `prefix_of` heap s'
       ∧ heap s' !! coded.2 = Some (slice ix (ix + stepsize) ner_tags)).
Proof.
  unfold recode. case_decide; [apply ok_raise |].
  apply ok_bind. destruct chunk_tags as [c |].
  - apply ok_bind, ok_alloc, ok_ret, ok_bind, ok_alloc, ok_ret. simpl. split.
    + apply prefix_app_r, prefix_app_r. reflexivity.
    + rewrite lookup_app_r by (rewrite length_app; simpl; lia).
      rewrite length_app. simpl.
      replace (length (heap s) + 1 - (length (heap s) + 1)) with 0 by lia.
      reflexivity.
  - apply ok_ret, ok_bind, ok_alloc, ok_ret. simpl. split.
    + apply prefix_app_r. reflexivity.
    + rewrite lookup_app_r by lia. rewrite Nat.sub_diag. reflexivity.
Qed.

Lemma add_feature_labels_ok sequence pos_tags_v coded_chunks coded_ner
    ix stepsize (instance_fields : gmap string loc) s :
  ok_post (add_feature_labels self sequence pos_tags_v coded_chunks coded_ner
             ix stepsize instance_fields) s
    (fun fields s' =>
       heap s `prefix_of` heap s'
       ∧ fields !! "tags" = instance_fields !! "tags").
Proof.
  unfold add_feature_labels.
  apply ok_bind. case_decide.
  - apply ok_bind, ok_alloc, ok_bind, ok_SequenceLabelField. intros p _ _.
    apply ok_ret, ok_bind. case_decide.
    + apply ok_bind, ok_SequenceLabelField. intros q _ _. apply ok_ret.
      case_decide.
      * apply ok_bind, ok_SequenceLabelField. intros r _ _. apply ok_ret.
        simpl. split; [apply prefix_app_r; reflexivity |].
        now rewrite !lookup_insert_ne by discriminate.
      * apply ok_ret. simpl. split; [apply prefix_app_r; reflexivity |].
        now rewrite !lookup_insert_ne by discriminate.
    + apply ok_ret. case_decide.
      * apply ok_bind, ok_SequenceLabelField. intros r _ _. apply ok_ret.
        simpl. split; [apply prefix_app_r; reflexivity |].
        now rewrite !lookup_insert_ne by discriminate.
      * apply ok_ret. simpl. split; [apply prefix_app_r; reflexivity |].
        now rewrite !lookup_insert_ne by discriminate.
  - apply ok_ret, ok_bind. case_decide.
    + apply ok_bind, ok_SequenceLabelField. intros q _ _. apply ok_ret.
      case_decide.
      * apply ok_bind, ok_SequenceLabelField. intros r _ _. apply ok_ret.
        split; [reflexivity |].
        now rewrite !lookup_insert_ne by discriminate.
      * apply ok_ret. split; [reflexivity |].
        now rewrite !lookup_insert_ne by discriminate.
    + apply ok_ret. case_decide.
      * apply ok_bind, ok_SequenceLabelField. intros r _ _. apply ok_ret.
        split; [reflexivity |].
        now rewrite !lookup_insert_ne by discriminate.
      * apply ok_ret. split; reflexivity.
Qed.

Lemma add_tag_label_ok sequence pos_tags coded_chunks coded_ner
    (instance_fields : gmap string loc) s :
  ok_post (add_tag_label self sequence pos_tags coded_chunks coded_ner
             instance_fields) s
    (fun fields s' =>
       s' = s
       ∧ (tag_label self = Some "ner" → fields !! "tags" = Some coded_ner)).
Proof.
  unfold add_tag_label. repeat case_decide.
  - apply ok_try_except; [| intros; apply ok_raise].
    apply ok_bind, ok_SequenceLabelField. intros p [= <-] _. apply ok_ret.
    split; [reflexivity |]. intros _. apply lookup_insert_eq.
  - apply ok_bind, ok_SequenceLabelField. intros p _ _. apply ok_ret.
    split; [reflexivity | congruence].
  - apply ok_bind, ok_SequenceLabelField. intros p _ _. apply ok_ret.
    split; [reflexivity | congruence].
  - apply ok_ret. split; [reflexivity | congruence].
Qed.

Lemma add_labels_ok coded_ner s :
  ok_post (add_labels self coded_ner) s
    (fun labels s' =>
       s' = s
       ∧ labels = (fun li => index li (default [] (heap s !! coded_ner)))
                  <$> label_indexer self).
Proof.
  unfold add_labels. destruct (label_indexer self) as [li |].
  - apply ok_bind, ok_deref, ok_ret. split; reflexivity.
  - apply ok_ret. split; reflexivity.
Qed.

(** One window: the instance holds the window of the tokens, and with
    [tag_label = "ner"] its [tags] list is the window of the NER column,
    from which its [labels] field was computed. *)
Lemma read_window_ok new_tokens mask_tokens pos_tags pos_tags_v chunk_tags
    ner_tags ix stepsize s :
  ok_post (read_window self new_tokens mask_tokens pos_tags pos_tags_v
             chunk_tags ner_tags ix stepsize) s
    (fun instance s' =>
       heap s `prefix_of` heap s'
       ∧ tokens instance = slice ix (ix + stepsize) new_tokens
       ∧ ner_consistent self s' instance).
Proof.
  unfold read_window. cbv zeta.
  apply ok_bind. eapply ok_weaken; [apply recode_ok |].
  intros coded s1 (Hpre1 & Hner).
  apply ok_bind. eapply ok_weaken; [apply add_feature_labels_ok |].
  intros fields1 s2 (Hpre2 & Htags1).
  apply ok_bind. eapply ok_weaken; [apply add_tag_label_ok |].
  intros fields2 s3 (-> & Htags2).
  apply ok_bind. eapply ok_weaken; [apply add_labels_ok |].
  intros labels s4 (-> & ->). apply ok_ret.
  pose proof (prefix_lookup_Some _ _ _ _ Hner Hpre2) as Hner2.
  split; [etrans; eassumption | split; [reflexivity |]].
  intros Htl. exists (slice ix (ix + stepsize) ner_tags).
  unfold field_labels. cbn [seq_fields labels]. rewrite (Htags2 Htl).
  cbn [mbind option_bind]. rewrite !Hner2. split; reflexivity.
Qed.

Lemma read_windows_ok new_tokens mask_tokens pos_tags pos_tags_v chunk_tags
    ner_tags stepsize ixs instances s :
  ok_post (read_windows self new_tokens mask_tokens pos_tags pos_tags_v
             chunk_tags ner_tags stepsize ixs instances) s
    (fun r s' =>
       heap s `prefix_of` heap s'
       ∧ ∃ ws, r = instances ++ ws
               ∧ tokens <$> ws
                 = (fun ix => slice ix (ix + stepsize) new_tokens) <$> ixs
               ∧ Forall (ner_consistent self s') ws).
Proof.
  revert instances s. induction ixs as [| ix ixs IH]; intros instances s; simpl.
  - apply ok_ret. split; [reflexivity |]. exists []. rewrite app_nil_r. auto.
  - apply ok_bind. eapply ok_weaken; [apply read_window_ok |].
    intros instance s1 (Hpre1 & Htok & Hnc).
    eapply ok_weaken; [apply IH |].
    intros r s' (Hpre2 & ws & -> & Htoks & Hncs).
    split; [etrans; eassumption |].
    exists (instance :: ws). rewrite <- app_assoc.
    split; [reflexivity | split].
    + now rewrite !fmap_cons, Htok, Htoks.
    + constructor; [| assumption]. eapply ner_consistent_grows; eassumption.
Qed.

Lemma warn_if_long_ok unzipped_fields s :
  ok_post (warn_if_long self file_path unzipped_fields) s
    (fun _ s' => heap s' = heap s).
Proof.
  unfold warn_if_long. cbv zeta. case_decide; [| now apply ok_ret].
  apply ok_bind, ok_lift. intros first _.
  case_decide; [now apply ok_logger | now apply ok_ret].
Qed.

Lemma columns_of_ok unzipped_fields toks pos chunk ner :
  columns_of unzipped_fields = Ok (toks, pos, chunk, ner) →
  unzipped_fields !! 0 = Some toks
  ∧ (length unzipped_fields = 3 ∨ length unzipped_fields = 4).
Proof.
  unfold columns_of.
  destruct unzipped_fields as [| a [| b [| c [| d [| e r]]]]];
    try discriminate; intros [= <- <- <- <-]; auto.
Qed.

Lemma columns_of_raise unzipped_fields :
  length unzipped_fields ≠ 3 → length unzipped_fields ≠ 4 →
  columns_of unzipped_fields
  = Raise (RuntimeError ("Found length " +:+ str_of_nat (length unzipped_fields))).
Proof.
  unfold columns_of.
  destruct unzipped_fields as [| a [| b [| c [| d [| e r]]]]];
    simpl; intros; try reflexivity; lia.
Qed.

Lemma range_ok (stop stepsize : nat) (ixs : list nat) :
  range 0 stop stepsize = Ok ixs →
  0 < stepsize ∧ ixs = range_from stop 0 stop stepsize.
Proof.
  unfold range. case_decide; [discriminate |]. intros [= <-]. split; [lia | reflexivity].
Qed.

(** One sentence chunk: its instances are appended, and they are the
    windows of its token column. *)
Lemma read_sentence_ok lines instances s :
  ok_post (read_sentence self file_path lines instances) s
    (fun r s' =>
       heap s `prefix_of` heap s'
       ∧ ∃ ws, r = instances ++ ws
               ∧ windows_of_sentence self lines ws
               ∧ Forall (ner_consistent self s') ws).
Proof.
  unfold read_sentence. cbv zeta.
  apply ok_bind. eapply ok_weaken; [apply warn_if_long_ok |].
  intros [] s1 Hs1.
  apply ok_bind, ok_lift. intros [[[toks pos] chunk] ner] Hcols.
  apply columns_of_ok in Hcols as (Htoks & Hcount).
  apply ok_bind, ok_alloc.
  apply ok_bind.
  assert (∀ s2, ok_post
            (if decide (0 < max_sentence_length self)%Z
             then mret (Z.to_nat (max_sentence_length self))
             else first ← lift (list_get (zip_star (fields_of lines)) 0);
                  mret (length first)) s2
            (fun stepsize s3 => s3 = s2 ∧ stepsize = window_size self toks))
    as Hstep.
  { intros s2. unfold window_size. case_decide.
    - now apply ok_ret.
    - apply ok_bind, ok_lift. intros first Hfirst%list_get_ok.
      apply ok_ret. split; [reflexivity | congruence]. }
  eapply ok_weaken; [apply Hstep |]. intros stepsize s3 (-> & ->).
  apply ok_bind, ok_lift. intros ixs (Hpos & ->)%range_ok.
  eapply ok_weaken; [apply read_windows_ok |].
  intros r s' (Hpre & ws & -> & Htok & Hnc). simpl in Hpre.
  split.
  - etrans; [| exact Hpre]. rewrite Hs1. apply prefix_app_r. reflexivity.
  - exists ws. split; [reflexivity | split; [| assumption]].
    exists toks. split; [assumption |]. rewrite Htok. reflexivity.
Qed.

(** The loop over the chunks: one list of windows per sentence chunk, in
    order. *)
Lemma read_groups_ok groups instances s :
  ok_post (read_groups self file_path groups instances) s
    (fun r s' =>
       heap s `prefix_of` heap s'
       ∧ ∃ wss, r = instances ++ concat wss
                ∧ Forall2 (windows_of_sentence self)
                    (filter (fun g => g.1 = false) groups).*2 wss
                ∧ Forall (ner_consistent self s') (concat wss)).
Proof.
  revert instances s.
  induction groups as [| [is_divider lines] groups IH]; intros instances s; simpl.
  - apply ok_ret. split; [reflexivity |]. exists []. simpl.
    rewrite app_nil_r. repeat split; constructor.
  - destruct is_divider.
    + rewrite filter_cons_False by (simpl; discriminate). apply IH.
    + rewrite filter_cons_True by reflexivity.
      apply ok_bind. eapply ok_weaken; [apply read_sentence_ok |].
      intros r1 s1 (Hpre1 & ws & -> & Hws & Hnc).
      eapply ok_weaken; [apply IH |].
      intros r s' (Hpre2 & wss & -> & Hwss & Hncs).
      split; [etrans; eassumption |].
      exists (ws :: wss). simpl. rewrite <- app_assoc.
      split; [reflexivity | split].
      * constructor; assumption.
      * apply Forall_app. split; [| assumption].
        eapply Forall_impl; [exact Hnc |]. intros instance.
        now apply ner_consistent_grows.
Qed.

Lemma build_ok data_file s :
  ok_post (build self file_path data_file) s
    (fun r s' =>
       ∃ wss, r = concat wss
              ∧ Forall2 (windows_of_sentence self) (sentences data_file) wss
              ∧ Forall (ner_consistent self s') r).
Proof.
  unfold build. apply ok_bind, ok_logger.
  eapply ok_weaken; [apply read_groups_ok |].
  intros r s' (_ & wss & -> & Hwss & Hnc). exists wss. auto.
Qed.

(** *** The final loop over the instances *)

Lemma startswith_I_dash (t : string) :
  startswith "I-" t = true ↔ ∃ r, t = String "I" (String "-" r).
Proof.
  split.
  - destruct t as [| c [| d r]]; simpl; try discriminate;
      repeat case_decide; try discriminate. subst. eauto.
  - intros [r ->]. reflexivity.
Qed.

Lemma sub_I_B_prefix (r : string) :
  sub_I_B (String "I" (String "-" r)) = String "B" (String "-" (sub_I_B r)).
Proof. reflexivity. Qed.

Lemma sub_I_B_no_occurrence (r : string) : ¬ has_I_dash r → sub_I_B r = r.
Proof.
  induction r as [| c r IH]; [reflexivity |].
  destruct r as [| d r']; [reflexivity |].
  intros Hno. cbn [sub_I_B]. case_decide as Hcd.
  - exfalso. apply Hno. now left.
  - f_equal. apply IH. intros H. apply Hno. now right.
Qed.

(** On a tag "I-T" whose type T has no "I-" inside, the substitution is
    the change of the prefix to "B-". *)
Lemma sub_I_B_inside_span (ty : string) :
  ¬ has_I_dash ty → sub_I_B ("I-" +:+ ty) = "B-" +:+ ty.
Proof.
  intros Hno. change ("I-" +:+ ty) with (String "I" (String "-" ty)).
  rewrite sub_I_B_prefix, (sub_I_B_no_occurrence _ Hno). reflexivity.
Qed.

Lemma correct_Some (l : list string) : correct <$> Some l = Some (correct l).
Proof. reflexivity. Qed.

Lemma correct_cons_true (t : string) (l : list string) :
  startswith "I-" t = true → correct (t :: l) = sub_I_B t :: l.
Proof. intros H. unfold correct. now rewrite H. Qed.

Lemma correct_cons_false (t : string) (l : list string) :
  startswith "I-" t = false → correct (t :: l) = t :: l.
Proof. intros H. unfold correct. now rewrite H. Qed.

Lemma correct_inside_span (ty : string) (rest : list string) :
  ¬ has_I_dash ty →
  correct (("I-" +:+ ty) :: rest) = ("B-" +:+ ty) :: rest.
Proof.
  intros Hno. rewrite correct_cons_true by reflexivity.
  now rewrite sub_I_B_inside_span.
Qed.

Example correct_per : correct ["I-PER"; "I-PER"; "O"] = ["B-PER"; "I-PER"; "O"].
Proof. reflexivity. Qed.

Lemma correct_idempotent (l : list string) : correct (correct l) = correct l.
Proof.
  destruct l as [| t l]; [reflexivity |]. unfold correct.
  destruct (startswith "I-" t) eqn:E.
  - apply startswith_I_dash in E as [r ->]. reflexivity.
  - now rewrite E.
Qed.

Lemma correct_length (l : list string) : length (correct l) = length l.
Proof.
  destruct l as [| t l]; [reflexivity |]. unfold correct.
  now destruct (startswith "I-" t).
Qed.

Lemma correct_nil (l : list string) : correct l = [] ↔ l = [].
Proof.
  destruct l as [| t l]; [tauto |]. unfold correct.
  destruct (startswith "I-" t); split; discriminate.
Qed.

Lemma first_tag_correct (l : list string) :
  startswith "I-" (first_tag (correct l)) = false.
Proof.
  destruct l as [| t l]; [reflexivity |]. unfold correct.
  destruct (startswith "I-" t) eqn:E; [| exact E].
  apply startswith_I_dash in E as [r ->]. reflexivity.
Qed.

Abbreviation checked := (Reader.checked self file_path).

Lemma check_instance_ok instance s :
  ok_post (check_instance self file_path instance) s
    (fun _ s' =>
       checked s s' instance
       ∧ log s `prefix_of` log s'
       ∧ ∀ p, seq_fields instance !! "tags" = Some p →
              ∀ q, heap s' !! q
                   = if decide (q = p) then correct <$> heap s !! q
                     else heap s !! q).
Proof.
  unfold check_instance.
  apply ok_bind, ok_lift. intros p Hp.
  assert (seq_fields instance !! "tags" = Some p) as Htags.
  { unfold dict_get in Hp. destruct (seq_fields instance !! "tags");
      congruence. }
  clear Hp. apply ok_bind, ok_deref.
  case_decide as Hlen; [apply ok_raise |].
  case_decide as Hmax; [apply ok_raise |].
  apply ok_bind, ok_lift. intros first Hfirst%list_get_ok.
  destruct (heap s !! p) as [[| t rest] |] eqn:Hl; simpl in Hfirst, Hlen;
    try discriminate.
  injection Hfirst as ->.
  destruct (startswith "I-" first) eqn:Hsw.
  - apply ok_bind, ok_logger, ok_assign. simpl. intros l' Hl' _.
    assert (l' = first :: rest) as -> by congruence.
    split; [| split].
    + exists p, (first :: rest). simpl.
      repeat split; try assumption; try discriminate.
      * intros HL. apply dec_stable. intros Hn. apply Hmax. auto.
      * intros _. apply elem_of_app. right. left.
    + simpl. apply prefix_app_r. reflexivity.
    + intros p' Hp' q. assert (p' = p) as -> by congruence. simpl.
      case_decide as Hq.
      * subst q. rewrite Hl, correct_Some, (correct_cons_true _ _ Hsw).
        apply list_lookup_insert_eq. eapply lookup_lt_Some, Hl.
      * now rewrite list_lookup_insert_ne by congruence.
  - apply ok_ret. split; [| split].
    + exists p, (first :: rest). unfold first_tag. cbn [hd].
      repeat split; try assumption; try discriminate.
      * intros HL. apply dec_stable. intros Hn. apply Hmax. auto.
      * congruence.
    + reflexivity.
    + intros p' Hp' q. assert (p' = p) as -> by congruence.
      case_decide as Hq; [| reflexivity].
      subst q. now rewrite Hl, correct_Some, (correct_cons_false _ _ Hsw).
Qed.

Lemma tags_locs_cons instance instances q :
  q ∈ tags_locs (instance :: instances)
  ↔ seq_fields instance !! "tags" = Some q ∨ q ∈ tags_locs instances.
Proof.
  unfold tags_locs. simpl.
  destruct (seq_fields instance !! "tags") as [p |].
  - rewrite elem_of_cons. split; intros [? | ?]; auto; left; congruence.
  - split; [auto | intros [? | ?]; [discriminate | assumption]].
Qed.

(** The whole loop: every [tags] list is corrected once, however many
    instances hold it, and no other list changes. *)
Lemma check_instances_ok instances s :
  ok_post (check_instances self file_path instances) s
    (fun _ s' =>
       Forall (checked s s') instances
       ∧ log s `prefix_of` log s'
       ∧ ∀ q, heap s' !! q
              = if decide (q ∈ tags_locs instances)
                then correct <$> heap s !! q else heap s !! q).
Proof.
  revert s. induction instances as [| instance instances IH]; intros s;
    cbn [check_instances].
  - apply ok_ret. split; [constructor | split; [reflexivity |]].
    intros q. case_decide as Hq; [| reflexivity]. inversion Hq.
  - apply ok_bind. eapply ok_weaken; [apply check_instance_ok |].
    intros [] s1 (Hchk & Hlog1 & Hheap1).
    eapply ok_weaken; [apply IH |].
    intros [] s' (Hall & Hlog2 & Hheap2).
    destruct Hchk as (p & l & Hp & Hl & Hne & Hlen & Hmax & Hmsg).
    specialize (Hheap1 p Hp).
    split; [| split; [etrans; eassumption |]].
    + constructor.
      * exists p, l. repeat split; try assumption.
        intros Hsw. destruct Hlog2 as [k ->]. apply elem_of_app. auto.
      * eapply Forall_impl; [exact Hall |].
        intros inst' (p' & l' & Hp' & Hl' & Hne' & Hlen' & Hmax' & Hmsg').
        rewrite Hheap1 in Hl'. case_decide as Hpp.
        -- subst p'. rewrite Hl in Hl'. simpl in Hl'. injection Hl' as <-.
           exists p, l. rewrite correct_length in Hlen'.
           repeat split; try assumption.
           intros Hsw. destruct Hlog2 as [k ->]. apply elem_of_app. auto.
        -- exists p', l'. repeat split; assumption.
    + intros q. rewrite Hheap2, Hheap1.
      destruct (decide (q = p)) as [-> | Hqp].
      * rewrite Hl. simpl. rewrite correct_idempotent.
        rewrite (decide_True (P := p ∈ tags_locs (instance :: instances)))
          by (apply tags_locs_cons; auto).
        now case_decide.
      * assert (q ∈ tags_locs (instance :: instances) ↔ q ∈ tags_locs instances)
          as Hiff.
        { rewrite tags_locs_cons. split; [| auto].
          intros [? | ?]; [congruence | assumption]. }
        repeat case_decide; tauto.
Qed.

(** *** The read as a whole *)

Lemma read_ok_inv data_file s0 s2 instances :
  _read self file_path data_file s0 = (s2, Ok instances) →
  ∃ s1, build self file_path data_file s0 = (s1, Ok instances)
        ∧ check_instances self file_path instances s1 = (s2, Ok tt).
Proof.
  unfold _read. intros (r & s1 & Hbuild & H)%rd_bind_ok.
  apply rd_bind_ok in H as ([] & s2' & Hcheck & [= <- <-]). eauto.
Qed.


(** What being the windows of a sentence gives, for a positive maximal
    length. *)
Lemma windows_of_sentence_partition lines ws :
  (0 < max_sentence_length self)%Z →
  windows_of_sentence self lines ws → partitions self lines ws.
Proof.
  intros HL (toks & Htoks & Hws). exists toks.
  assert (0 < window_size self toks) as Hstep.
  { unfold window_size. case_decide; lia. }
  assert (Z.of_nat (window_size self toks) = max_sentence_length self) as Hsz.
  { unfold window_size. case_decide; lia. }
  split; [assumption | split; [| split; [| split]]].
  - rewrite Hws. now apply windows_of_concat.
  - intros Hcn. rewrite Hws, windows_of_concat by assumption.
    rewrite <- list_fmap_compose. unfold new_token. rewrite Hcn.
    clear. induction toks as [| t toks IH]; [reflexivity |].
    rewrite fmap_cons. simpl. now rewrite IH.
  - apply Forall_forall. intros w Hw.
    assert (tokens w ∈ tokens <$> ws) as Hin by now apply list_elem_of_fmap_2.
    rewrite Hws in Hin. apply windows_of_length in Hin; [lia | assumption].
  - intros i w Hi Hlen.
    assert ((tokens <$> ws) !! i = Some (tokens w)) as Hi'
      by now rewrite list_lookup_fmap, Hi.
    assert (S i < length (tokens <$> ws)) as Hlen'
      by now rewrite length_fmap.
    rewrite Hws in Hi', Hlen'.
    rewrite (windows_of_full _ _ _ _ Hi' Hlen'). assumption.
Qed.

(** C2 as the code has it.  With [max_sentence_length = L > 0], the
    instances of a read that returns are, sentence chunk by sentence chunk
    and in order, the windows of the chunk: every window has between 1 and
    [L] tokens, every window but the last of its sentence has exactly [L],
    and the windows of one sentence concatenated give the sentence's
    tokens as the reader stores them, which are the original tokens unless
    [convert_numbers] replaces digit runs. *)
Theorem read_windows_partition data_file s0 s instances :
  (0 < max_sentence_length self)%Z →
  _read self file_path data_file s0 = (s, Ok instances) →
  ∃ wss,
    instances = concat wss
    ∧ Forall2 (partitions self) (sentences data_file) wss.
Proof.
  intros HL (s1 & Hbuild & _)%read_ok_inv.
  destruct (build_ok _ _ _ _ Hbuild) as (wss & -> & Hwss & _).
  exists wss. split; [reflexivity |].
  eapply Forall2_impl; [exact Hwss |].
  intros lines ws. now apply windows_of_sentence_partition.
Qed.

(** *** Malformed column counts *)

Lemma read_sentence_bad_columns lines instances s :
  column_count lines ≠ 3 → column_count lines ≠ 4 →
  ∃ s' e,
    read_sentence self file_path lines instances s = (s', Raise e)
    ∧ (0 < column_count lines →
       e = RuntimeError ("Found length " +:+ str_of_nat (column_count lines))).
Proof.
  unfold column_count. intros H3 H4. unfold read_sentence. cbv zeta.
  destruct (warn_if_long self file_path (zip_star (fields_of lines)) s)
    as [s1 [[] | e]] eqn:Hwarn.
  - rewrite (rd_bind_step _ _ _ _ _ Hwarn).
    rewrite (columns_of_raise _ H3 H4).
    eexists _, _. split; [reflexivity | auto].
  - rewrite (rd_bind_raise _ _ _ _ _ Hwarn).
    eexists _, _. split; [reflexivity |]. intros Hpos. exfalso.
    unfold warn_if_long in Hwarn. cbv zeta in Hwarn.
    case_decide; [| discriminate].
    destruct (zip_star (fields_of lines)) as [| first rest];
      [simpl in Hpos; lia |].
    unfold mbind, rd_bind, lift, list_get in Hwarn. simpl in Hwarn.
    case_decide; discriminate.
Qed.

Lemma read_groups_bad_columns groups lines instances s :
  (false, lines) ∈ groups →
  column_count lines ≠ 3 → column_count lines ≠ 4 →
  ∃ s' e, read_groups self file_path groups instances s = (s', Raise e).
Proof.
  intros Hin H3 H4. revert instances s.
  induction groups as [| [is_divider lines'] groups IH]; intros instances s;
    [inversion Hin |].
  cbn [read_groups]. apply elem_of_cons in Hin as [[= <- <-] | Hin].
  - destruct (read_sentence_bad_columns lines instances s H3 H4)
      as (s' & e & Hs & _).
    rewrite (rd_bind_raise _ _ _ _ _ Hs). eauto.
  - destruct is_divider; [now apply IH |].
    destruct (read_sentence self file_path lines' instances s)
      as [s1 [r | e]] eqn:Hs.
    + rewrite (rd_bind_step _ _ _ _ _ Hs). now apply IH.
    + rewrite (rd_bind_raise _ _ _ _ _ Hs). eauto.
Qed.

Lemma sentences_elem data_file lines :
  lines ∈ sentences data_file
  ↔ (false, lines) ∈ groupby _is_divider data_file.
Proof.
  unfold sentences. rewrite list_elem_of_fmap. split.
  - intros ([k g] & -> & [Hk Hg]%list_elem_of_filter). simpl in *. now subst.
  - intros Hin. exists (false, lines). split; [reflexivity |].
    apply list_elem_of_filter. auto.
Qed.

(** C6.  If some sentence chunk of the file unzips to a number of columns
    other than 3 or 4, the read raises and returns no instance list at
    all, whatever the sentences before it gave.  When the loop reaches the
    chunk, the exception is the [RuntimeError] naming the column count. *)
Theorem read_bad_column_count_aborts data_file lines s0 :
  lines ∈ sentences data_file →
  column_count lines ≠ 3 → column_count lines ≠ 4 →
  (∃ s e, _read self file_path data_file s0 = (s, Raise e))
  ∧ (∀ instances s, ∃ s',
       read_sentence self file_path lines instances s
       = (s', Raise (RuntimeError
                       ("Found length " +:+ str_of_nat (column_count lines))))).
Proof.
  intros Hsent H3 H4. pose proof (sentence_has_column _ _ Hsent) as Hpos.
  apply sentences_elem in Hsent as Hin. split.
  - destruct (read_groups_bad_columns _ _ []
                {| heap := heap s0;
                   log := log s0 ++ [(INFO, "Reading instances from lines in file at: " +:+ file_path)] |}
                Hin H3 H4) as (s & e & Hs).
    exists s, e. unfold _read. apply rd_bind_raise.
    unfold build. now rewrite (rd_bind_step _ _ s0 _ tt eq_refl).
  - intros instances s.
    destruct (read_sentence_bad_columns lines instances s H3 H4)
      as (s' & e & Hs & He).
    exists s'. now rewrite <- (He Hpos).
Qed.

End ReadFacts.

(** *** When the read returns

    With [tag_label = "ner"], IOB1 coding and no [chunk] feature label, the
    read returns on every file whose sentence chunks have 3 or 4 columns:
    the length checks of the fields, the [try] around the [tags] field and
    the assertions of the final loop all pass. *)

Section ReadReturns.
Import Reader.

Variable self : WeakConll2003DatasetReader.
Variable file_path : string.

Hypothesis tag_label_ner : tag_label self = Some "ner".
Hypothesis coding_iob1 : coding_scheme self ≠ "BIOUL".
Hypothesis no_chunk_feature : "chunk" ∉ feature_labels self.

Lemma length_slice {A} (ix stepsize : nat) (l : list A) :
  length (slice ix (ix + stepsize) l) = stepsize `min` (length l - ix).
Proof. now rewrite slice_take_drop, length_take, length_drop. Qed.

Lemma lookup_snoc {A} (h : list A) (x : A) : (h ++ [x]) !! length h = Some x.
Proof. rewrite lookup_app_r by lia. now rewrite Nat.sub_diag. Qed.

Lemma well_tagged_grows (s s' : state) (instance : Instance) :
  heap s `prefix_of` heap s' →
  well_tagged self s instance → well_tagged self s' instance.
Proof.
  intros Hpre (p & l & Hp & Hl & H). exists p, l.
  split; [assumption | split; [| assumption]].
  eapply prefix_lookup_Some; eassumption.
Qed.

Lemma recode_returns chunk_tags ner_tags ix stepsize s :
  returns (recode self chunk_tags ner_tags ix stepsize) s
    (fun coded s' =>
       heap s `prefix_of` heap s'
       ∧ heap s' !! coded.2 = Some (slice ix (ix + stepsize) ner_tags)).
Proof.
  unfold recode. rewrite decide_False by assumption.
  apply returns_bind. destruct chunk_tags as [c |].
  - apply returns_bind, returns_alloc, returns_ret, returns_bind,
      returns_alloc, returns_ret.
    split; [apply prefix_app_r, prefix_app_r; reflexivity | apply lookup_snoc].
  - apply returns_ret, returns_bind, returns_alloc, returns_ret.
    split; [apply prefix_app_r; reflexivity | apply lookup_snoc].
Qed.

Lemma add_feature_labels_returns sequence pos_tags_v coded_chunks coded_ner
    ix stepsize (instance_fields : gmap string loc) (l : list string) s :
  heap s !! coded_ner = Some l → length l = length sequence →
  length (slice ix (ix + stepsize) pos_tags_v) = length sequence →
  returns (add_feature_labels self sequence pos_tags_v coded_chunks coded_ner
             ix stepsize instance_fields) s
    (fun _ s' => heap s `prefix_of` heap s').
Proof.
  intros Hl Hlen Hpos. unfold add_feature_labels.
  assert (∀ s1 (fields : gmap string loc),
            heap s `prefix_of` heap s1 →
            returns
              (if decide ("ner" ∈ feature_labels self) then
                 f ← SequenceLabelField (Some coded_ner) sequence;
                 mret (<["ner_tags" := f]> fields)
               else mret fields) s1
              (fun _ s' => heap s `prefix_of` heap s')) as Hner.
  { intros s1 fields Hpre. case_decide; [| now apply returns_ret].
    apply returns_bind.
    eapply returns_SequenceLabelField;
      [eapply prefix_lookup_Some; eassumption | assumption |].
    now apply returns_ret. }
  apply returns_bind. destruct (decide ("pos" ∈ feature_labels self)).
  - apply returns_bind, returns_alloc, returns_bind.
    eapply returns_SequenceLabelField; [apply lookup_snoc | assumption |].
    apply returns_ret, returns_bind.
    rewrite decide_False by assumption.
    apply returns_ret, Hner. apply prefix_app_r. reflexivity.
  - apply returns_ret, returns_bind.
    rewrite decide_False by assumption.
    apply returns_ret, Hner. reflexivity.
Qed.

Lemma add_tag_label_returns sequence pos_tags coded_chunks coded_ner
    (instance_fields : gmap string loc) (l : list string) s :
  heap s !! coded_ner = Some l → length l = length sequence →
  returns (add_tag_label self sequence pos_tags coded_chunks coded_ner
             instance_fields) s
    (fun fields s' => s' = s ∧ fields !! "tags" = Some coded_ner).
Proof.
  intros Hl Hlen. unfold add_tag_label. rewrite decide_True by assumption.
  apply returns_try_except, returns_bind.
  eapply returns_SequenceLabelField; [eassumption | assumption |].
  apply returns_ret. split; [reflexivity | apply lookup_insert_eq].
Qed.

Lemma add_labels_returns coded_ner s :
  returns (add_labels self coded_ner) s (fun _ s' => s' = s).
Proof.
  unfold add_labels. destruct (label_indexer self).
  - now apply returns_bind, returns_deref, returns_ret.
  - now apply returns_ret.
Qed.

(** One window of a sentence whose columns are as long as its tokens. *)
Lemma read_window_returns new_tokens mask_tokens pos_tags pos_tags_v
    chunk_tags ner_tags ix stepsize s :
  length pos_tags_v = length new_tokens →
  length ner_tags = length new_tokens →
  ix < length new_tokens → 0 < stepsize →
  ((0 < max_sentence_length self)%Z →
   stepsize = Z.to_nat (max_sentence_length self)) →
  returns (read_window self new_tokens mask_tokens pos_tags pos_tags_v
             chunk_tags ner_tags ix stepsize) s
    (fun instance s' =>
       heap s `prefix_of` heap s' ∧ well_tagged self s' instance).
Proof.
  intros Hpos Hner Hix Hstep HL. unfold read_window. cbv zeta.
  assert (length (slice ix (ix + stepsize) ner_tags)
          = length (slice ix (ix + stepsize) new_tokens)) as Hlen_ner
    by (rewrite !length_slice; lia).
  assert (length (slice ix (ix + stepsize) pos_tags_v)
          = length (slice ix (ix + stepsize) new_tokens)) as Hlen_pos
    by (rewrite !length_slice; lia).
  apply returns_bind. eapply returns_weaken; [apply recode_returns |].
  intros coded s1 (Hpre1 & Hcoded).
  apply returns_bind.
  eapply returns_weaken;
    [eapply add_feature_labels_returns; eassumption |].
  intros fields1 s2 Hpre2.
  pose proof (prefix_lookup_Some _ _ _ _ Hcoded Hpre2) as Hcoded2.
  apply returns_bind.
  eapply returns_weaken; [eapply add_tag_label_returns; eassumption |].
  intros fields2 s3 (-> & Htags).
  apply returns_bind.
  eapply returns_weaken; [apply add_labels_returns |].
  intros labels s4 ->. apply returns_ret.
  split; [etrans; eassumption |].
  exists coded.2, (slice ix (ix + stepsize) ner_tags). cbn [seq_fields tokens].
  split; [assumption | split; [assumption | split; [| split]]].
  - intros Hnil. apply (f_equal length) in Hnil.
    rewrite length_slice in Hnil. simpl in Hnil. lia.
  - now rewrite Hlen_ner.
  - intros Hmax. rewrite length_slice, (HL Hmax). lia.
Qed.

Lemma read_windows_returns new_tokens mask_tokens pos_tags pos_tags_v
    chunk_tags ner_tags stepsize ixs instances s :
  length pos_tags_v = length new_tokens →
  length ner_tags = length new_tokens →
  Forall (fun ix => ix < length new_tokens) ixs → 0 < stepsize →
  ((0 < max_sentence_length self)%Z →
   stepsize = Z.to_nat (max_sentence_length self)) →
  Forall (well_tagged self s) instances →
  returns (read_windows self new_tokens mask_tokens pos_tags pos_tags_v
             chunk_tags ner_tags stepsize ixs instances) s
    (fun r s' => heap s `prefix_of` heap s' ∧ Forall (well_tagged self s') r).
Proof.
  intros Hpos Hner Hixs Hstep HL. revert instances s.
  induction Hixs as [| ix ixs Hix _ IH]; intros instances s Hwt;
    cbn [read_windows].
  - apply returns_ret. split; [reflexivity | assumption].
  - apply returns_bind.
    eapply returns_weaken; [now apply read_window_returns |].
    intros instance s1 (Hpre1 & Hwt1).
    eapply returns_weaken; [apply IH |].
    + apply Forall_app. split; [| now constructor].
      eapply Forall_impl; [exact Hwt |]. intros i.
      now apply well_tagged_grows.
    + intros r s' (Hpre2 & Hr). split; [etrans; eassumption | assumption].
Qed.

Lemma columns_of_returns (unzipped_fields : list (list string)) :
  length unzipped_fields = 3 ∨ length unzipped_fields = 4 →
  ∃ toks pos chunk ner,
    columns_of unzipped_fields = Ok (toks, pos, chunk, ner)
    ∧ unzipped_fields !! 0 = Some toks
    ∧ pos ∈ unzipped_fields ∧ ner ∈ unzipped_fields.
Proof.
  destruct unzipped_fields as [| a [| b [| c [| d [| e r]]]]];
    intros [H | H]; try discriminate H; simpl.
  - exists a, b, None, c. repeat split; repeat constructor.
  - exists a, b, (Some c), d. repeat split; repeat constructor.
Qed.

Lemma read_sentence_returns lines instances s :
  column_count lines = 3 ∨ column_count lines = 4 →
  Forall (well_tagged self s) instances →
  returns (read_sentence self file_path lines instances) s
    (fun r s' => heap s `prefix_of` heap s' ∧ Forall (well_tagged self s') r).
Proof.
  unfold column_count. intros Hcount Hwt. unfold read_sentence. cbv zeta.
  destruct (columns_of_returns _ Hcount)
    as (toks & pos & chunk & ner & Hcols & Htoks & Hpos & Hner).
  pose proof (zip_star_columns (fields_of lines)) as Hlen.
  rewrite Forall_forall in Hlen.
  assert (toks ∈ zip_star (fields_of lines)) as Htoks_in
    by (eapply list_elem_of_lookup_2; eassumption).
  assert (0 < length toks) as Hne.
  { rewrite (Hlen _ Htoks_in).
    destruct (fields_of lines); [simpl in Hcount; lia | simpl; lia]. }
  apply returns_bind.
  assert (returns (warn_if_long self file_path (zip_star (fields_of lines))) s
            (fun _ s1 => heap s1 = heap s)) as Hwarn.
  { unfold warn_if_long. cbv zeta. case_decide; [| now apply returns_ret].
    apply returns_bind. unfold list_get. rewrite Htoks. apply returns_lift.
    case_decide; [now apply returns_logger | now apply returns_ret]. }
  eapply returns_weaken; [exact Hwarn |]. intros [] s1 Hs1.
  apply returns_bind. rewrite Hcols. apply returns_lift.
  apply returns_bind, returns_alloc, returns_bind.
  assert (∀ s2, returns
            (if decide (0 < max_sentence_length self)%Z
             then mret (Z.to_nat (max_sentence_length self))
             else first ← lift (list_get (zip_star (fields_of lines)) 0);
                  mret (length first)) s2
            (fun stepsize s3 =>
               s3 = s2 ∧ 0 < stepsize
               ∧ ((0 < max_sentence_length self)%Z →
                  stepsize = Z.to_nat (max_sentence_length self)))) as Hstep.
  { intros s2. case_decide.
    - apply returns_ret. split; [reflexivity | split; [lia | auto]].
    - apply returns_bind. unfold list_get. rewrite Htoks.
      apply returns_lift, returns_ret.
      split; [reflexivity | split; [assumption | intros; contradiction]]. }
  eapply returns_weaken; [apply Hstep |].
  intros stepsize s3 (-> & Hpos_step & HL).
  apply returns_bind. unfold range. rewrite decide_False by lia.
  apply returns_lift.
  eapply returns_weaken; [apply read_windows_returns |]; try assumption.
  - rewrite length_fmap, (Hlen _ Hpos), (Hlen _ Htoks_in). reflexivity.
  - rewrite length_fmap, (Hlen _ Hner), (Hlen _ Htoks_in). reflexivity.
  - eapply Forall_impl; [apply range_from_bounds |]. simpl. intros; lia.
  - eapply Forall_impl; [exact Hwt |]. intros i.
    apply well_tagged_grows. simpl. rewrite Hs1. apply prefix_app_r.
    reflexivity.
  - intros r s' (Hpre & Hr). split; [| assumption].
    etrans; [| exact Hpre]. simpl. rewrite Hs1. apply prefix_app_r.
    reflexivity.
Qed.

Lemma read_groups_returns groups instances s :
  Forall (fun g => g.1 = false →
                   column_count g.2 = 3 ∨ column_count g.2 = 4) groups →
  Forall (well_tagged self s) instances →
  returns (read_groups self file_path groups instances) s
    (fun r s' => Forall (well_tagged self s') r).
Proof.
  intros Hgroups. revert instances s.
  induction Hgroups as [| [is_divider lines] groups Hg _ IH];
    intros instances s Hwt; cbn [read_groups].
  - now apply returns_ret.
  - destruct is_divider; [now apply IH |].
    apply returns_bind.
    eapply returns_weaken; [apply read_sentence_returns; auto |].
    intros r s1 (_ & Hr). now apply IH.
Qed.

Lemma check_instance_returns instance s :
  well_tagged self s instance →
  returns (check_instance self file_path instance) s (fun _ _ => True).
Proof.
  intros (p & l & Hp & Hl & Hne & Hlen & Hmax). unfold check_instance.
  apply returns_bind. unfold dict_get. rewrite Hp. apply returns_lift.
  apply returns_bind, returns_deref. rewrite Hl. cbn [default from_option id].
  rewrite decide_False by (intros H; apply H; assumption).
  rewrite decide_False by (intros [H1 H2]; auto).
  destruct l as [| first rest]; [congruence |].
  apply returns_bind. apply returns_lift.
  destruct (startswith "I-" first).
  - apply returns_bind, returns_logger.
    eapply returns_assign; [exact Hl | simpl; lia | exact I].
  - now apply returns_ret.
Qed.

Lemma check_instances_returns instances s :
  Forall (well_tagged self s) instances →
  returns (check_instances self file_path instances) s (fun _ _ => True).
Proof.
  revert s. induction instances as [| instance instances IH]; intros s Hwt;
    cbn [check_instances].
  - now apply returns_ret.
  - inversion Hwt as [| ? ? Hi Hrest]; subst.
    destruct (check_instance_returns _ _ Hi) as (s1 & [] & Hs1 & _).
    apply returns_bind. exists s1, tt. split; [assumption |].
    apply IH.
    destruct (check_instance_ok _ _ _ _ _ _ Hs1) as (_ & _ & Hheap).
    destruct Hi as (p & l & Hp & Hl & _).
    specialize (Hheap p Hp).
    eapply Forall_impl; [exact Hrest |].
    intros inst' (p' & l' & Hp' & Hl' & Hne' & Hlen' & Hmax').
    destruct (decide (p' = p)) as [-> | Hpp].
    + exists p, (correct l'). rewrite Hheap, decide_True, Hl' by reflexivity.
      rewrite correct_length, correct_nil. auto.
    + exists p', l'. rewrite Hheap, decide_False by assumption. auto.
Qed.

(** X16.  With [tag_label="ner"], a coding scheme other than "BIOUL" and
    no "chunk" feature label, the read returns on every file whose
    sentence chunks all have 3 or 4 columns. *)
Lemma read_returns data_file s0 :
  Forall (fun lines => column_count lines = 3 ∨ column_count lines = 4)
         (sentences data_file) →
  ∃ s instances, _read self file_path data_file s0 = (s, Ok instances).
Proof.
  intros Hcols.
  assert (returns (_read self file_path data_file) s0 (fun _ _ => True))
    as (s & instances & H & _); [| eauto].
  unfold _read. apply returns_bind. unfold build.
  apply returns_bind, returns_logger.
  eapply returns_weaken; [apply read_groups_returns |].
  - apply Forall_forall. intros [k g] Hg Hk. simpl in *. subst k.
    rewrite Forall_forall in Hcols. apply Hcols. now apply sentences_elem.
  - constructor.
  - intros r s1 Hr. apply returns_bind.
    eapply returns_weaken; [now apply check_instances_returns |].
    intros [] s2 _. now apply returns_ret.
Qed.

End ReadReturns.

(** ** Concrete runs of the visualizer *)

Lemma attn_to_rgb_color_rule_witness :
  Visualizer._attn_to_rgb (PyFloat 0.5) "B-PER" "I-PER"
    = Ok Visualizer.both_correct_color
  ∧ Visualizer._attn_to_rgb (PyFloat 0.5) "O" "PER"
    = Ok Visualizer.missed_color
  ∧ Visualizer._attn_to_rgb (PyFloat 0.5) "PER" "O"
    = Ok Visualizer.spurious_color
  ∧ ¬ Visualizer.is_highlight "#22aadd7f".
Proof.
  pose proof (attn_to_rgb_color_rule (PyFloat 0.5) "B-PER" "I-PER" _ eq_refl)
    as (H & _).
  pose proof (attn_to_rgb_color_rule (PyFloat 0.5) "O" "PER" _ eq_refl)
    as (_ & H0 & _).
  pose proof (attn_to_rgb_color_rule (PyFloat 0.5) "PER" "O" _ eq_refl)
    as (_ & _ & H1 & _).
  pose proof (attn_to_rgb_color_rule (PyFloat 0.5) "O" "O" _ eq_refl)
    as (_ & _ & _ & H2).
  repeat split; try reflexivity.
  exact (proj2 (H2 eq_refl eq_refl)).
Defined.

Lemma attn_to_rgb_total_witness :
  ∃ c, Visualizer._attn_to_rgb (PyFloat 0.25) "B-PER" "I-PER" = Ok c.
Proof.
  apply (attn_to_rgb_total (PyFloat 0.25) "B-PER" "I-PER" eq_refl).
  left. reflexivity.
Defined.

(** With tags that satisfy the precondition on the stripped tags, a weight
    that is NaN makes the function raise before any branch is looked at. *)
Lemma attn_to_rgb_nan_raises :
  (Visualizer.strip_prefix "O" = Visualizer.strip_prefix "O")
  ∧ Visualizer._attn_to_rgb (PyFloat nan) "O" "O"
    = Raise (ValueError "cannot convert float NaN to integer")
  ∧ Visualizer._attn_to_rgb (PyFloat infinity) "PER" "O"
    = Raise (OverflowError "cannot convert float infinity to integer").
Proof. repeat split. Qed.

(** ** Concrete runs of the classifier *)

Lemma forward_rejects_extra_kwargs_witness :
  Classifier.forward nat (fun _ => 0) ∅ (Some 1) None None
    {[ "attn_mask" := Some 2 ]}
  = ([], Raise Classifier.rejection).
Proof.
  apply (proj1 (forward_rejects_extra_kwargs (Val := nat) (fun _ => 0) ∅
                  (Some 1) None None {[ "attn_mask" := Some 2 ]})).
  apply insert_non_empty.
Defined.

Lemma decode_all_zero_is_O_witness :
  Classifier.d_preds Examples.decoded_demo !! 1 = Some [("O", 1%float)].
Proof.
  apply (proj1 (proj2 (decode_all_zero_is_O (fun x => x)
                         Examples.literal_indexer Examples.outputs_demo))
           Examples.decoded_demo 1 [0; 0; 0]%Z).
  - reflexivity.
  - simpl. lia.
  - reflexivity.
  - repeat constructor.
Defined.

Lemma decode_set_bits_witness :
  (∃ entries,
     Forall2 (Classifier.entry_for (fun x => x) Examples.literal_indexer
                (Classifier.log_probs Examples.outputs_demo) 0)
       (Classifier.nonzero [1; 0; 1]%Z) entries
     ∧ Classifier.d_preds Examples.decoded_demo !! 0
       = Some (if decide (entries = []) then [("O", 1%float)] else entries))
  ∧ StronglySorted lt (Classifier.nonzero [1; 0; 1]%Z)
  ∧ (∀ k, k ∈ Classifier.nonzero [1; 0; 1]%Z
          ↔ ∃ v, [1; 0; 1]%Z !! k = Some v ∧ v ≠ 0%Z).
Proof.
  apply (decode_set_bits (fun x => x) Examples.literal_indexer
           Examples.outputs_demo Examples.decoded_demo 0 [1; 0; 1]%Z).
  - reflexivity.
  - simpl. lia.
  - reflexivity.
Defined.

(** ** Concrete runs of the reader *)

Example ner_reader_constructed :
  Reader.__init__ (Some "ner") [] false "IOB1"
    (Some Examples.literal_indexer) 2 None
  = Ok (Examples.ner_reader 2 false).
Proof. reflexivity. Qed.

Example bioul_raises_name_error :
  (Reader._read
     {| Reader.tag_label := Some "ner"; Reader.feature_labels := ∅;
        Reader.coding_scheme := "BIOUL"; Reader.max_sentence_length := 2;
        Reader.label_indexer := None; Reader.convert_numbers := false;
        Reader._mask_set := ∅ |}
     "train.txt" Examples.corpus_john Reader.initial).2
  = Raise (NameError "iob1_to_bioul").
Proof. vm_compute. reflexivity. Qed.

Example run_john_tags :
  Reader.final_tags Examples.run_john
  = Ok [Some ["B-PER"; "I-PER"]; Some ["O"; "O"]; Some ["B-LOC"]].
Proof. vm_compute. reflexivity. Qed.

Example run_john_texts :
  Reader.final_texts Examples.run_john
  = Ok [["John"; "Smith"]; ["lives"; "in"]; ["Paris"]].
Proof. vm_compute. reflexivity. Qed.

(** The third window's [labels] see the "I-LOC" that the final loop then
    rewrites. *)
Example run_john_labels :
  Reader.final_labels Examples.run_john
  = Ok [Some [true; false; false]; Some [false; false; false];
        Some [false; true; false]].
Proof. vm_compute. reflexivity. Qed.

Example run_john_unsplit_tags :
  Reader.final_tags Examples.run_john_unsplit
  = Ok [Some ["B-PER"; "I-PER"; "O"; "O"; "I-LOC"]].
Proof. vm_compute. reflexivity. Qed.

Lemma run_john_returns :
  Reader._read (Examples.ner_reader 2 false) "train.txt" Examples.corpus_john
    Reader.initial
  = (Examples.run_john.1, Ok (Reader.instances_of Examples.run_john)).
Proof. vm_compute. reflexivity. Qed.

Lemma run_john_unsplit_returns :
  Reader._read (Examples.ner_reader (-1) false) "train.txt"
    Examples.corpus_john Reader.initial
  = (Examples.run_john_unsplit.1,
     Ok (Reader.instances_of Examples.run_john_unsplit)).
Proof. vm_compute. reflexivity. Qed.

Lemma read_windows_partition_witness :
  ∃ wss,
    Reader.instances_of Examples.run_john = concat wss
    ∧ Forall2 (Reader.partitions (Examples.ner_reader 2 false))
        (Reader.sentences Examples.corpus_john) wss.
Proof.
  apply (read_windows_partition (Examples.ner_reader 2 false) "train.txt"
           Examples.corpus_john Reader.initial Examples.run_john.1).
  - reflexivity.
  - exact run_john_returns.
Defined.

(** With [convert_numbers] on, the windows of the sentence "In 2003" are
    "In" and the placeholder: concatenated they are not the sentence's
    tokens. *)
Lemma read_windows_not_original :
  (0 < Reader.max_sentence_length (Examples.ner_reader 1 true))%Z
  ∧ Reader.zip_star (Reader.fields_of Examples.corpus_year) !! 0
    = Some ["In"; "2003"]
  ∧ Reader.final_texts Examples.run_year = Ok [["In"]; ["@0@"]]
  ∧ concat [["In"]; ["@0@"]] ≠ ["In"; "2003"].
Proof.
  split; [reflexivity | split; [vm_compute; reflexivity | split]].
  - vm_compute. reflexivity.
  - discriminate.
Qed.


Lemma read_bad_column_count_aborts_witness :
  ∃ s e,
    Reader._read (Examples.ner_reader 2 false) "train.txt"
      Examples.corpus_short_line Reader.initial
    = (s, Raise e).
Proof.
  apply (read_bad_column_count_aborts (Examples.ner_reader 2 false)
           "train.txt" Examples.corpus_short_line
           ["Big JJ I-ORG" +:+ Examples.nl; "Corp NNP" +:+ Examples.nl]
           Reader.initial).
  - apply (list_elem_of_lookup_2 _ 1). vm_compute. reflexivity.
  - vm_compute. discriminate.
  - vm_compute. discriminate.
Defined.

Example run_short_line :
  (Reader._read (Examples.ner_reader 2 false) "train.txt"
     Examples.corpus_short_line Reader.initial).2
  = Raise (RuntimeError "Found length 2").
Proof. vm_compute. reflexivity. Qed.


(** ** Further properties of the reader *)

(** *** Lines and their fields *)

Section FieldFacts.
Import Reader.

Lemma split_from_cons (cur : string) (c : Ascii.ascii) (s : string) :
  split_from cur (String c s)
  = if is_space c then
      if decide (cur = "") then split_from "" s else cur :: split_from "" s
    else split_from (cur +:+ String c "") s.
Proof. reflexivity. Qed.

Lemma split_from_lstrip (s : string) : split_from "" (lstrip s) = split_from "" s.
Proof.
  induction s as [| c s IH]; [reflexivity |].
  simpl. destruct (is_space c) eqn:Hc.
  - rewrite IH. reflexivity.
  - simpl. rewrite Hc. reflexivity.
Qed.

Lemma split_from_rstrip (s cur : string) :
  split_from cur (rstrip s) = split_from cur s.
Proof.
  revert cur. induction s as [| c s IH]; intros cur; [reflexivity |].
  cbn [rstrip]. destruct (rstrip s) as [| d r] eqn:Hr.
  - rewrite split_from_cons. destruct (is_space c) eqn:Hc.
    + rewrite <- (IH ""). cbn [split_from].
      destruct (decide (cur = "")); reflexivity.
    + rewrite split_from_cons, Hc. rewrite <- IH. reflexivity.
  - rewrite !(split_from_cons _ c). destruct (is_space c).
    + rewrite (IH ""). reflexivity.
    + apply IH.
Qed.

(** [line.strip().split()] gives what [line.split()] gives. *)
Lemma split_strip (s : string) : split (strip s) = split s.
Proof. unfold split, strip. now rewrite split_from_rstrip, split_from_lstrip. Qed.

Lemma split_from_nil_iff (s cur : string) :
  split_from cur s = [] ↔ cur = "" ∧ all_space s = true.
Proof.
  revert cur. induction s as [| c s IH]; intros cur; cbn [split_from all_space].
  - destruct (decide (cur = "")); split; try tauto; discriminate.
  - destruct (is_space c) eqn:Hc; cbn [andb].
    + destruct (decide (cur = "")) as [-> | Hne].
      * rewrite IH. tauto.
      * split; [discriminate | tauto].
    + rewrite IH. split; [intros [H _]; destruct cur; discriminate |
                          intros [_ ?]; discriminate].
Qed.

Lemma all_space_rstrip (s : string) : all_space s = true → rstrip s = "".
Proof.
  induction s as [| c s IH]; [reflexivity |].
  cbn [all_space rstrip]. intros [Hc Hs]%andb_prop.
  rewrite IH by assumption. now rewrite Hc.
Qed.

Lemma rstrip_empty (s : string) : rstrip s = "" → all_space s = true.
Proof.
  induction s as [| c s IH]; [reflexivity |].
  cbn [all_space rstrip]. destruct (rstrip s) eqn:Hr; [| discriminate].
  destruct (is_space c); [| discriminate]. intros _. now apply IH.
Qed.

Lemma strip_empty_iff (s : string) : strip s = "" ↔ all_space s = true.
Proof.
  unfold strip. split.
  - intros H%rstrip_empty. now rewrite all_space_lstrip in H.
  - intros H. apply all_space_rstrip. now rewrite all_space_lstrip.
Qed.

(** A line is a divider exactly when its row is empty or starts with the
    field "-DOCSTART-". *)
Lemma is_divider_row (line : string) :
  _is_divider line = true
  ↔ match split (strip line) with
    | [] => True
    | first_token :: _ => first_token = "-DOCSTART-"
    end.
Proof.
  rewrite split_strip. unfold _is_divider. case_bool_decide as Hs.
  - apply strip_empty_iff in Hs.
    assert (split line = []) as -> by (apply split_from_nil_iff; auto).
    tauto.
  - destruct (split line) as [| t rest] eqn:Hsp.
    + exfalso. apply Hs, strip_empty_iff.
      now apply (split_from_nil_iff line "").
    + apply bool_decide_eq_true.
Qed.

(** X1.  [_is_divider] and the row that [_read] makes of a line agree: a
    line is a divider exactly when [line.strip().split()] is empty or
    starts with the field "-DOCSTART-".  So every line of a sentence chunk
    gives a row with a first field, and that field is not "-DOCSTART-". *)
Theorem is_divider_iff_row (line : string) :
  (_is_divider line = true
   ↔ match split (strip line) with
     | [] => True
     | first_token :: _ => first_token = "-DOCSTART-"
     end)
  ∧ ∀ data_file lines,
      lines ∈ sentences data_file → line ∈ lines →
      ∃ first_token rest,
        split (strip line) = first_token :: rest
        ∧ first_token ≠ "-DOCSTART-".
Proof.
  split; [apply is_divider_row |].
  intros data_file lines Hsent%sentences_elem Hline.
  pose proof (groupby_groups _is_divider data_file) as Hg.
  rewrite Forall_forall in Hg. destruct (Hg _ Hsent) as [_ Hall].
  rewrite Forall_forall in Hall. specialize (Hall _ Hline). cbn [fst] in Hall.
  pose proof (is_divider_row line) as Hrow.
  destruct (split (strip line)) as [| first_token rest].
  - rewrite Hall in Hrow. destruct Hrow as [_ Hrow].
    specialize (Hrow I). discriminate.
  - exists first_token, rest. split; [reflexivity |].
    intros ->. rewrite Hall in Hrow. destruct Hrow as [_ Hrow].
    specialize (Hrow eq_refl). discriminate.
Qed.

End FieldFacts.

(** *** The columns of a chunk, the number placeholder, the constructor *)

Section ColumnFacts.
Import Reader.

Lemma zip_star_cons (row : list string) (rest : list (list string)) :
  zip_star (row :: rest)
  = match rest with
    | [] => (fun x => [x]) <$> row
    | _ => zip_with cons row (zip_star rest)
    end.
Proof. reflexivity. Qed.

Lemma zip_star_lookup (fields : list (list string)) (j i : nat)
    (col : list string) :
  zip_star fields !! j = Some col →
  col !! i = fields !! i ≫= (fun row => row !! j).
Proof.
  revert j i col. induction fields as [| row rest IH]; intros j i col;
    [discriminate |].
  rewrite zip_star_cons. destruct rest as [| row' rest'].
  - rewrite list_lookup_fmap.
    destruct (row !! j) as [x |] eqn:Hx; [| discriminate].
    intros [= <-]. destruct i as [| i]; cbn; [now rewrite Hx | reflexivity].
  - rewrite lookup_zip_with.
    destruct (row !! j) as [x |] eqn:Hx; [| discriminate].
    cbn [mbind option_bind].
    destruct (zip_star (row' :: rest') !! j) as [col' |] eqn:Hc;
      [| discriminate].
    intros [= <-]. destruct i as [| i]; [cbn; now rewrite Hx |].
    cbn [lookup list_lookup]. exact (IH j i col' Hc).
Qed.

Lemma zip_star_width (fields : list (list string)) :
  Forall (fun row => length (zip_star fields) ≤ length row) fields
  ∧ (fields ≠ [] →
     ∃ row, row ∈ fields ∧ length row = length (zip_star fields)).
Proof.
  induction fields as [| row rest [IHle IHex]].
  - split; [constructor | congruence].
  - rewrite zip_star_cons. destruct rest as [| row' rest'].
    + rewrite length_fmap. split; [repeat constructor |].
      intros _. exists row. split; [left | reflexivity].
    + rewrite length_zip_with. split.
      * constructor; [lia |]. eapply Forall_impl; [exact IHle |].
        intros r Hr. cbv beta in *. lia.
      * intros _.
        destruct (decide (length row ≤ length (zip_star (row' :: rest')))).
        -- exists row. split; [left | lia].
        -- destruct IHex as (r & Hr & Hlen); [discriminate |].
           exists r. split; [now right | lia].
Qed.

(** X2.  The columns that unzipping the rows gives are the rows transposed,
    cut to the shortest row: there are as many columns as the shortest row
    has fields (fields beyond that are dropped without a word), every
    column has one entry per line, and entry [i] of column [j] is field
    [j] of line [i]. *)
Theorem columns_transpose_rows (lines : list string) :
  let rows := fields_of lines in
  let columns := zip_star rows in
  Forall (fun row => length columns ≤ length row) rows
  ∧ (lines ≠ [] → ∃ row, row ∈ rows ∧ length row = length columns)
  ∧ Forall (fun col => length col = length lines) columns
  ∧ ∀ j col i, columns !! j = Some col →
               col !! i = rows !! i ≫= (fun row => row !! j).
Proof.
  cbv zeta. destruct (zip_star_width (fields_of lines)) as [Hle Hex].
  split; [assumption | split; [| split]].
  - intros Hne. apply Hex. destruct lines; [congruence | discriminate].
  - pose proof (zip_star_columns (fields_of lines)) as H.
    unfold fields_of in *. now rewrite length_fmap in H.
  - intros j col i. apply zip_star_lookup.
Qed.

Lemma sub_digits_from_no_digit (s : string) (b : bool) :
  has_digit s = false → sub_digits_from b s = s.
Proof.
  revert b. induction s as [| c s IH]; intros b; [reflexivity |].
  cbn [has_digit sub_digits_from]. intros [Hc Hs]%orb_false_elim.
  rewrite Hc. f_equal. now apply IH.
Qed.

Lemma is_digit_not_at (c : Ascii.ascii) : is_digit c = true → c ≠ "@"%char.
Proof. intros H ->. discriminate. Qed.

(** Every run of digits adds two ["@"]. *)
Lemma count_at_sub_digits_from (s : string) (b : bool) :
  count_at (sub_digits_from b s) = count_at s + 2 * digit_runs b s.
Proof.
  revert b. induction s as [| c s IH]; intros b; [reflexivity |].
  cbn [sub_digits_from digit_runs]. destruct (is_digit c) eqn:Hc.
  - pose proof (is_digit_not_at _ Hc) as Hat.
    cbn [count_at]. rewrite (decide_False (P := c = "@"%char)) by assumption.
    destruct b.
    + rewrite IH. lia.
    + unfold NUM_TOKEN. rewrite !str_app_cons, str_app_nil.
      cbn [count_at]. rewrite IH.
      repeat case_decide; try congruence; try discriminate; lia.
  - cbn [count_at]. rewrite IH. lia.
Qed.

Lemma digit_runs_pos (s : string) :
  has_digit s = true → 0 < digit_runs false s.
Proof.
  induction s as [| c s IH]; [discriminate |].
  cbn [has_digit digit_runs]. destruct (is_digit c); cbn [orb]; [lia | exact IH].
Qed.

(** X3.  With [convert_numbers], a token comes out of
    [re.sub("[0-9]+", "@0@", token)] as it went in exactly when it has no
    digit: every token with a digit is changed. *)
Theorem sub_digits_fixed (s : string) :
  sub_digits s = s ↔ has_digit s = false.
Proof.
  split.
  - intros H. destruct (has_digit s) eqn:Hd; [exfalso | reflexivity].
    pose proof (count_at_sub_digits_from s false) as Hc.
    fold (sub_digits s) in Hc. rewrite H in Hc.
    pose proof (digit_runs_pos s Hd). lia.
  - apply sub_digits_from_no_digit.
Qed.

Lemma sub_digits_from_all_digits (s : string) :
  all_digits s = true → sub_digits_from true s = "".
Proof.
  induction s as [| c s IH]; [reflexivity |].
  cbn [all_digits sub_digits_from]. intros [Hc Hs]%andb_prop.
  rewrite Hc. now apply IH.
Qed.

(** X4.  With [convert_numbers], every token that consists of digits only
    becomes the one placeholder "@0@", whatever the number was. *)
Theorem sub_digits_number (s : string) :
  s ≠ "" → all_digits s = true → sub_digits s = NUM_TOKEN.
Proof.
  destruct s as [| c s]; [congruence |]. intros _.
  unfold sub_digits. cbn [all_digits sub_digits_from].
  intros [Hc Hs]%andb_prop.
  rewrite Hc, sub_digits_from_all_digits by assumption. reflexivity.
Qed.

End ColumnFacts.

Section ConstructorFacts.
Import Reader.

Lemma check_feature_labels (feature_labels : list string) :
  match mapM (fun label =>
                if decide (label ∉ _VALID_LABELS)
                then Raise (ConfigurationError
                              ("unknown feature label type: " +:+ label))
                else Ok tt) feature_labels with
  | Ok _ => Forall (fun label => label ∈ _VALID_LABELS) feature_labels
  | Raise e =>
      ¬ Forall (fun label => label ∈ _VALID_LABELS) feature_labels
      ∧ ∃ label, label ∈ feature_labels ∧ (label ∉ _VALID_LABELS)
                 ∧ e = ConfigurationError
                         ("unknown feature label type: " +:+ label)
  end.
Proof.
  induction feature_labels as [| label rest IH]; cbn [mapM]; [constructor |].
  case_decide as Hl.
  - cbn. split.
    + intros H. apply Forall_cons in H as [? _]. contradiction.
    + exists label. split; [left | auto].
  - cbn [mbind res_bind].
    destruct (mapM _ rest) as [ys | e]; cbn [mbind res_bind mret res_ret].
    + now constructor.
    + destruct IH as [Hn (l & Hin & Hbad & ->)]. split.
      * intros H. apply Forall_cons in H as [_ ?]. contradiction.
      * exists l. split; [now right | auto].
Qed.


End ConstructorFacts.

(** *** Invariants of the instances *)

Lemma Forall2_impl_elem {A B} (R Q : A → B → Prop) (l : list A) (k : list B) :
  Forall2 R l k → (∀ x y, x ∈ l → R x y → Q x y) → Forall2 Q l k.
Proof.
  induction 1 as [| x y l k HR _ IH]; intros HQ; constructor.
  - apply HQ; [left | assumption].
  - apply IH. intros x' y' Hin. apply HQ. now right.
Qed.

Section ReadInvariant.
Import Reader.

Variable self : WeakConll2003DatasetReader.
Variable file_path : string.

Lemma ok_any {A} (m : rd A) s : ok_post m s (fun _ _ => True).
Proof. intros s' a _. exact I. Qed.

(** A property of instances that does not mention the store, and that
    every window of a sentence has. *)
Variable P : Instance → Prop.

Hypothesis window_P :
  ∀ toks pos_tags pos_tags_v chunk_tags ner_tags ix stepsize s,
    ok_post (read_window self (new_token self <$> toks)
               (mask_token self <$> toks) pos_tags pos_tags_v chunk_tags
               ner_tags ix stepsize) s
      (fun instance _ => P instance).

Lemma read_windows_inv toks pos_tags pos_tags_v chunk_tags ner_tags stepsize
    ixs instances s :
  Forall P instances →
  ok_post (read_windows self (new_token self <$> toks)
             (mask_token self <$> toks) pos_tags pos_tags_v chunk_tags
             ner_tags stepsize ixs instances) s
    (fun r _ => Forall P r).
Proof.
  revert instances s. induction ixs as [| ix ixs IH]; intros instances s HP;
    cbn [read_windows].
  - now apply ok_ret.
  - apply ok_bind. eapply ok_weaken; [apply window_P |].
    intros instance s1 Hi. apply IH, Forall_app. split; [assumption |].
    now constructor.
Qed.

Lemma read_sentence_inv lines instances s :
  Forall P instances →
  ok_post (read_sentence self file_path lines instances) s
    (fun r _ => Forall P r).
Proof.
  intros HP. unfold read_sentence. cbv zeta.
  apply ok_bind. eapply ok_weaken; [apply ok_any |]. intros [] s1 _.
  apply ok_bind, ok_lift. intros [[[toks pos] chunk] ner] _.
  apply ok_bind, ok_alloc.
  apply ok_bind. eapply ok_weaken; [apply ok_any |]. intros stepsize s2 _.
  apply ok_bind, ok_lift. intros ixs _.
  now apply read_windows_inv.
Qed.

Lemma read_groups_inv groups instances s :
  Forall P instances →
  ok_post (read_groups self file_path groups instances) s
    (fun r _ => Forall P r).
Proof.
  revert instances s.
  induction groups as [| [is_divider lines] groups IH]; intros instances s HP;
    cbn [read_groups].
  - now apply ok_ret.
  - destruct is_divider; [now apply IH |].
    apply ok_bind. eapply ok_weaken; [now apply read_sentence_inv |].
    intros r s1 Hr. now apply IH.
Qed.

Lemma build_inv data_file s0 s1 instances :
  build self file_path data_file s0 = (s1, Ok instances) →
  Forall P instances.
Proof.
  unfold build. intros (u & s' & _ & Hg)%rd_bind_ok.
  exact (read_groups_inv _ [] _ (Forall_nil_2 _) _ _ Hg).
Qed.

Lemma read_inv data_file s0 s instances :
  _read self file_path data_file s0 = (s, Ok instances) →
  Forall P instances.
Proof. intros (s1 & Hbuild & _)%read_ok_inv. eapply build_inv, Hbuild. Qed.

End ReadInvariant.

(** *** How many instances, and of which tokens *)

Section WindowCounts.
Import Reader.

Variable self : WeakConll2003DatasetReader.
Variable file_path : string.

Lemma sentence_lines (data_file lines : list string) :
  lines ∈ sentences data_file →
  lines ≠ [] ∧ Forall (fun line => _is_divider line = false) lines.
Proof.
  intros Hin%sentences_elem.
  pose proof (groupby_groups _is_divider data_file) as Hg.
  rewrite Forall_forall in Hg. exact (Hg _ Hin).
Qed.

Lemma column_length (lines toks : list string) (j : nat) :
  zip_star (fields_of lines) !! j = Some toks → length toks = length lines.
Proof.
  intros Hj. pose proof (zip_star_columns (fields_of lines)) as Hc.
  rewrite Forall_forall in Hc. rewrite (Hc toks).
  - unfold fields_of. apply length_fmap.
  - eapply list_elem_of_lookup_2, Hj.
Qed.

Lemma length_range_from (fuel start stop step : nat) :
  0 < step → stop - start ≤ fuel →
  length (range_from fuel start stop step) = (stop - start + step - 1) / step.
Proof.
  intros Hstep. revert start.
  induction fuel as [| fuel IH]; intros start Hfuel; cbn [range_from].
  - replace (stop - start + step - 1) with (step - 1) by lia.
    rewrite Nat.div_small by lia. reflexivity.
  - case_decide as Hlt.
    + cbn [length]. rewrite IH by lia.
      destruct (decide (step ≤ stop - start)) as [Hge | Hsmall].
      * replace (stop - start + step - 1)
          with ((stop - (start + step) + step - 1) + 1 * step) by lia.
        rewrite Nat.div_add by lia. lia.
      * replace (stop - (start + step) + step - 1) with (step - 1) by lia.
        rewrite (Nat.div_small (step - 1)) by lia.
        apply (Nat.div_unique _ _ 1 (stop - start - 1)); lia.
    + replace (stop - start + step - 1) with (step - 1) by lia.
      rewrite Nat.div_small by lia. reflexivity.
Qed.

Lemma length_windows_of {A} (stepsize : nat) (l : list A) :
  0 < stepsize →
  length (windows_of stepsize l) = (length l + stepsize - 1) / stepsize.
Proof.
  intros Hstep. unfold windows_of. rewrite length_fmap.
  rewrite length_range_from by lia. now rewrite Nat.sub_0_r.
Qed.

Lemma windows_of_whole {A} (l : list A) :
  l ≠ [] → windows_of (length l) l = [l].
Proof.
  intros Hne. unfold windows_of.
  destruct l as [| x l']; [congruence |].
  set (l := x :: l'). change (length l) with (S (length l')).
  cbn [range_from]. rewrite decide_True by lia.
  assert (range_from (length l') (0 + S (length l')) (S (length l')) (S (length l')) = []) as ->.
  { destruct (length l'); cbn [range_from]; [reflexivity |].
    rewrite decide_False by lia. reflexivity. }
  rewrite fmap_cons, fmap_nil. f_equal.
  rewrite slice_take_drop. cbn [drop]. apply take_ge. subst l. cbn [length]. lia.
Qed.

Lemma window_size_pos (toks : list string) :
  toks ≠ [] → 0 < window_size self toks.
Proof.
  intros Hne. unfold window_size. case_decide; [lia |].
  destruct toks; [congruence | cbn [length]; lia].
Qed.

Lemma windows_of_sentence_count data_file lines ws :
  lines ∈ sentences data_file →
  windows_of_sentence self lines ws →
  length ws = window_count self (length lines) ∧ ws ≠ [].
Proof.
  intros Hsent (toks & Htoks & Hws).
  destruct (sentence_lines _ _ Hsent) as [Hne _].
  pose proof (column_length _ _ _ Htoks) as Hlen.
  assert (toks ≠ []) as Htne.
  { destruct toks; [| discriminate]. destruct lines; [congruence | discriminate]. }
  pose proof (window_size_pos _ Htne) as Hpos.
  assert (length ws = window_count self (length lines)) as Hcount.
  { rewrite <- (length_fmap tokens), Hws, length_windows_of by assumption.
    rewrite length_fmap, Hlen. unfold window_count, window_size.
    cbv zeta. rewrite Hlen. reflexivity. }
  split; [assumption |]. intros ->. cbn [length] in Hcount.
  unfold window_count in Hcount. cbv zeta in Hcount.
  assert (0 < length lines) by (destruct lines; [congruence | cbn [length]; lia]).
  set (k := if decide (0 < max_sentence_length self)%Z
            then Z.to_nat (max_sentence_length self) else length lines) in *.
  assert (0 < k) by (subst k; case_decide; lia).
  symmetry in Hcount. apply Nat.div_small_iff in Hcount; lia.
Qed.

(** The instances of a read, sentence chunk by sentence chunk. *)
Lemma read_window_counts data_file s0 s instances :
  _read self file_path data_file s0 = (s, Ok instances) →
  ∃ wss,
    instances = concat wss
    ∧ Forall2 (fun lines ws =>
                 length ws = window_count self (length lines) ∧ ws ≠ [])
        (sentences data_file) wss.
Proof.
  intros (s1 & Hbuild & _)%read_ok_inv.
  destruct (build_ok _ _ _ _ _ _ Hbuild) as (wss & -> & Hwss & _).
  exists wss. split; [reflexivity |].
  eapply Forall2_impl_elem; [exact Hwss |].
  intros lines ws Hin Hw. now apply (windows_of_sentence_count data_file).
Qed.

End WindowCounts.

Section InstanceCounts.
Import Reader.

Variable self : WeakConll2003DatasetReader.
Variable file_path : string.

(** X6.  A read that returns gives, for every sentence chunk of [n] lines
    and in the order of the file, [n] over the step rounded up instances
    (the step is [max_sentence_length] when that is positive, and [n]
    itself otherwise), never none; the instance list has the sum of
    these lengths. *)
Theorem read_instance_count data_file s0 s instances :
  _read self file_path data_file s0 = (s, Ok instances) →
  (∃ wss,
     instances = concat wss
     ∧ Forall2 (fun lines ws =>
                  length ws = window_count self (length lines) ∧ ws ≠ [])
         (sentences data_file) wss)
  ∧ length instances
    = sum_list ((fun lines => window_count self (length lines))
                  <$> sentences data_file).
Proof.
  intros (wss & -> & Hwss)%read_window_counts. split; [eauto |].
  induction Hwss as [| lines ws ss wss [Hw _] _ IH]; [reflexivity |].
  rewrite fmap_cons. cbn [concat sum_list sum_list_with].
  rewrite length_app, Hw, IH. reflexivity.
Qed.

Lemma singleton_windows (ws : list Instance) (w : list Token) :
  tokens <$> ws = [w] → ∃ instance, ws = [instance] ∧ tokens instance = w.
Proof.
  destruct ws as [| i [| j ws]]; [discriminate | | discriminate].
  intros [= <-]. eauto.
Qed.

(** X7.  With a maximal length that is not positive (the default is -1)
    nothing is split: a read that returns gives exactly one instance per
    sentence chunk, in order, holding the whole token column of the
    chunk. *)
Theorem read_unsplit data_file s0 s instances :
  (max_sentence_length self <= 0)%Z →
  _read self file_path data_file s0 = (s, Ok instances) →
  Forall2 (fun lines instance =>
             ∃ toks, zip_star (fields_of lines) !! 0 = Some toks
                     ∧ tokens instance = new_token self <$> toks
                     ∧ length (tokens instance) = length lines)
    (sentences data_file) instances.
Proof.
  intros HL (s1 & Hbuild & _)%read_ok_inv.
  destruct (build_ok _ _ _ _ _ _ Hbuild) as (wss & -> & Hwss & _).
  assert (Forall2 (fun lines ws =>
             ∃ instance toks, ws = [instance]
               ∧ zip_star (fields_of lines) !! 0 = Some toks
               ∧ tokens instance = new_token self <$> toks
               ∧ length (tokens instance) = length lines)
            (sentences data_file) wss) as H.
  { eapply Forall2_impl_elem; [exact Hwss |].
    intros lines ws Hin (toks & Htoks & Hws).
    destruct (sentence_lines _ _ Hin) as [Hne _].
    pose proof (column_length _ _ _ Htoks) as Hlen.
    unfold window_size in Hws. rewrite decide_False in Hws by lia.
    rewrite <- (length_fmap (new_token self)) in Hws.
    rewrite windows_of_whole in Hws.
    - apply singleton_windows in Hws as (instance & -> & Hi).
      exists instance, toks. repeat split; try assumption.
      now rewrite Hi, length_fmap.
    - destruct toks; [| discriminate]. destruct lines; [congruence | discriminate]. }
  clear Hwss Hbuild. induction H as [| lines ws ss wss (i & toks & -> & Ht & Hi & Hl) _ IH];
    [constructor |].
  cbn [concat app]. constructor; [| exact IH]. exists toks. auto.
Qed.

Lemma read_groups_dividers (groups : list (bool * list string))
    (instances : list Instance) (s : state) :
  Forall (fun g => g.1 = true) groups →
  read_groups self file_path groups instances s = (s, Ok instances).
Proof.
  induction 1 as [| [k lines] groups Hk _ IH]; [reflexivity |].
  cbn [fst] in Hk. subst k. exact IH.
Qed.

Lemma groupby_keys {A} (key : A → bool) (l : list A) (b : bool) :
  Forall (fun x => key x = b) l ↔ Forall (fun g => g.1 = b) (groupby key l).
Proof.
  pose proof (groupby_groups key l) as Hg.
  pose proof (groupby_concat key l) as Hc.
  split.
  - intros Hl. rewrite Forall_forall in Hg. rewrite Forall_forall in Hl.
    apply Forall_forall.
    intros [k g] Hin. destruct (Hg _ Hin) as [Hne Hall]. cbn [fst snd] in *.
    destruct g as [| x g]; [congruence |].
    apply Forall_cons in Hall as [Hx _].
    rewrite <- Hx. apply Hl. rewrite <- Hc.
    apply list_elem_of_In, in_concat. exists (x :: g). split.
    + apply list_elem_of_In. apply (list_elem_of_fmap_2 snd _ _ Hin).
    + now left.
  - intros Hk. rewrite <- Hc. apply Forall_concat, Forall_fmap.
    rewrite Forall_forall in Hg. rewrite Forall_forall in Hk.
    apply Forall_forall.
    intros [k g] Hin. destruct (Hg _ Hin) as [_ Hall].
    specialize (Hk _ Hin). cbn [fst snd] in *. now subst.
Qed.

Lemma sentences_nil (data_file : list string) :
  sentences data_file = []
  ↔ Forall (fun line => _is_divider line = true) data_file.
Proof.
  rewrite groupby_keys. unfold sentences. split.
  - intros H%fmap_nil_inv. apply Forall_forall. intros [k g] Hin.
    destruct k; [reflexivity | exfalso].
    assert ((false, g) ∈ filter (fun g : bool * list string => g.1 = false)
                            (groupby _is_divider data_file)) as Hf
      by (apply list_elem_of_filter; auto).
    rewrite H in Hf. inversion Hf.
  - intros Hk. induction Hk as [| [k g] gs Hg _ IH]; [reflexivity |].
    cbn [fst] in Hg. subst k. rewrite filter_cons_False by (simpl; discriminate).
    exact IH.
Qed.

(** X8.  A file without a sentence (no line at all, or only blank and
    "-DOCSTART-" lines) is read as the empty list of instances, with
    nothing but the "Reading instances" record added to the log and no
    list allocated; and only such a file is read as the empty list. *)
Theorem read_no_sentence data_file s0 :
  (Forall (fun line => _is_divider line = true) data_file →
   _read self file_path data_file s0
   = ({| heap := heap s0;
         log := log s0 ++ [(INFO, "Reading instances from lines in file at: "
                                    +:+ file_path)] |}, Ok []))
  ∧ (∀ s, _read self file_path data_file s0 = (s, Ok []) →
          Forall (fun line => _is_divider line = true) data_file).
Proof.
  split.
  - intros Hdiv. apply groupby_keys in Hdiv.
    assert (build self file_path data_file s0
            = ({| heap := heap s0;
                  log := log s0 ++ [(INFO, "Reading instances from lines in file at: "
                                             +:+ file_path)] |}, Ok [])) as Hb.
    { unfold build. rewrite (rd_bind_step _ _ s0 _ tt eq_refl).
      now apply read_groups_dividers. }
    unfold _read. rewrite (rd_bind_step _ _ _ _ _ Hb). reflexivity.
  - intros s (wss & Hnil & Hwss)%read_window_counts.
    apply sentences_nil. symmetry in Hnil.
    destruct Hwss as [| lines ws ss wss [_ Hne] _]; [reflexivity |].
    cbn [concat] in Hnil. apply app_eq_nil in Hnil as [? _]. contradiction.
Qed.

End InstanceCounts.

(** *** The fields of an instance *)

Section FieldInvariants.
Import Reader.

Variable self : WeakConll2003DatasetReader.
Variable file_path : string.

Lemma read_window_texts new_tokens mask_tokens pos_tags pos_tags_v chunk_tags
    ner_tags ix stepsize s :
  ok_post (read_window self new_tokens mask_tokens pos_tags pos_tags_v
             chunk_tags ner_tags ix stepsize) s
    (fun instance _ =>
       tokens instance = slice ix (ix + stepsize) new_tokens
       ∧ attn_mask instance = slice ix (ix + stepsize) mask_tokens).
Proof.
  unfold read_window. cbv zeta.
  apply ok_bind. eapply ok_weaken; [apply ok_any |]. intros coded s1 _.
  apply ok_bind. eapply ok_weaken; [apply ok_any |]. intros f1 s2 _.
  apply ok_bind. eapply ok_weaken; [apply ok_any |]. intros f2 s3 _.
  apply ok_bind. eapply ok_weaken; [apply ok_any |]. intros l s4 _.
  apply ok_ret. split; reflexivity.
Qed.

Lemma masks_columns (toks : list string) :
  Forall2 (masks self) (new_token self <$> toks) (mask_token self <$> toks).
Proof.
  apply Forall2_fmap, Forall_Forall2_diag, Forall_forall.
  intros t _. unfold masks, new_token, mask_token. cbn [text text_id]. auto.
Qed.

(** X9.  In every instance of a read that returns, the attention mask
    goes with the tokens one to one: a mask token has the text of its
    token (after the number replacement), its [text_id] is 1 when the
    lower-cased text is in the mask set and 0 otherwise, and the tokens of
    the text themselves carry no [text_id]. *)
Theorem read_attn_mask data_file s0 s instances :
  _read self file_path data_file s0 = (s, Ok instances) →
  Forall (fun instance =>
            Forall2 (masks self) (tokens instance) (attn_mask instance))
    instances.
Proof.
  apply read_inv. intros toks pos_tags pos_tags_v chunk_tags ner_tags ix stepsize s'.
  eapply ok_weaken; [apply read_window_texts |].
  intros instance _ [-> ->]. unfold slice.
  apply Forall2_take, Forall2_drop, masks_columns.
Qed.

Lemma add_tag_label_fields sequence pos_tags coded_chunks coded_ner
    (instance_fields : gmap string loc) s :
  ok_post (add_tag_label self sequence pos_tags coded_chunks coded_ner
             instance_fields) s
    (fun fields _ =>
       (tag_label self = Some "ner" →
        fields = <["tags" := coded_ner]> instance_fields)
       ∧ (tag_label self = None → fields = instance_fields)).
Proof.
  unfold add_tag_label. repeat case_decide.
  - apply ok_try_except; [| intros; apply ok_raise].
    apply ok_bind, ok_SequenceLabelField. intros p [= <-] _. apply ok_ret.
    split; [reflexivity | congruence].
  - apply ok_bind, ok_SequenceLabelField. intros p _ _. apply ok_ret.
    split; congruence.
  - apply ok_bind, ok_SequenceLabelField. intros p _ _. apply ok_ret.
    split; congruence.
  - apply ok_ret. split; [congruence | reflexivity].
Qed.

Lemma read_window_no_tags new_tokens mask_tokens pos_tags pos_tags_v chunk_tags
    ner_tags ix stepsize s :
  tag_label self = None →
  ok_post (read_window self new_tokens mask_tokens pos_tags pos_tags_v
             chunk_tags ner_tags ix stepsize) s
    (fun instance _ => seq_fields instance !! "tags" = None).
Proof.
  intros Hnone. unfold read_window. cbv zeta.
  apply ok_bind. eapply ok_weaken; [apply ok_any |]. intros coded s1 _.
  apply ok_bind. eapply ok_weaken; [apply add_feature_labels_ok |].
  intros f1 s2 [_ Hf1].
  apply ok_bind. eapply ok_weaken; [apply add_tag_label_fields |].
  intros f2 s3 [_ Hf2]. rewrite (Hf2 Hnone).
  apply ok_bind. eapply ok_weaken; [apply ok_any |]. intros l s4 _.
  apply ok_ret. cbn [seq_fields]. now rewrite Hf1.
Qed.

Lemma check_instance_no_tags instance s :
  seq_fields instance !! "tags" = None →
  check_instance self file_path instance s = (s, Raise (KeyError "tags")).
Proof.
  intros Hnone. unfold check_instance, dict_get. rewrite Hnone. reflexivity.
Qed.

Lemma build_nonempty data_file s0 s1 instances :
  build self file_path data_file s0 = (s1, Ok instances) →
  sentences data_file ≠ [] → instances ≠ [].
Proof.
  intros Hbuild Hne ->.
  assert (_read self file_path data_file s0 = (s1, Ok [])) as Hread.
  { unfold _read. rewrite (rd_bind_step _ _ _ _ _ Hbuild). reflexivity. }
  apply read_window_counts in Hread as (wss & Hnil & Hwss).
  destruct Hwss as [| lines ws ss wss [_ Hws] _]; [congruence |].
  symmetry in Hnil. cbn [concat] in Hnil.
  apply app_eq_nil in Hnil as [? _]. contradiction.
Qed.

(** X10.  A reader built with [tag_label=None], which the constructor
    accepts, cannot read a file with a sentence: the read raises, and
    whenever the instances get built, it is the final loop that raises
    [KeyError] on [instance.fields["tags"]] at the first instance. *)
Theorem read_without_tag_label data_file s0 :
  tag_label self = None → sentences data_file ≠ [] →
  (∃ s e, _read self file_path data_file s0 = (s, Raise e))
  ∧ (∀ s1 instances,
       build self file_path data_file s0 = (s1, Ok instances) →
       _read self file_path data_file s0 = (s1, Raise (KeyError "tags"))).
Proof.
  intros Hnone Hsent.
  assert (∀ s1 instances,
            build self file_path data_file s0 = (s1, Ok instances) →
            _read self file_path data_file s0 = (s1, Raise (KeyError "tags")))
    as Hkey.
  { intros s1 instances Hbuild.
    pose proof (build_nonempty _ _ _ _ Hbuild Hsent) as Hne.
    pose proof (build_inv self file_path _
                  (fun toks p pv c n ix st s =>
                     read_window_no_tags _ _ p pv c n ix st s Hnone)
                  _ _ _ _ Hbuild) as Hall.
    destruct instances as [| instance rest]; [congruence |].
    apply Forall_cons in Hall as [Hi _].
    unfold _read. rewrite (rd_bind_step _ _ _ _ _ Hbuild).
    apply rd_bind_raise. cbn [check_instances].
    apply rd_bind_raise. now apply check_instance_no_tags. }
  split; [| exact Hkey].
  destruct (build self file_path data_file s0) as [s1 [instances | e]] eqn:Hbuild.
  - eauto.
  - exists s1, e. unfold _read. now apply rd_bind_raise.
Qed.

End FieldInvariants.

(** *** The tag lists after the final loop *)

Section TagLists.
Import Reader.

Variable self : WeakConll2003DatasetReader.
Variable file_path : string.

Lemma add_feature_labels_ner sequence pos_tags_v coded_chunks coded_ner
    ix stepsize (instance_fields : gmap string loc) s :
  "ner" ∈ feature_labels self →
  ok_post (add_feature_labels self sequence pos_tags_v coded_chunks coded_ner
             ix stepsize instance_fields) s
    (fun fields _ => fields !! "ner_tags" = Some coded_ner).
Proof.
  intros Hner. unfold add_feature_labels.
  apply ok_bind. eapply ok_weaken; [apply ok_any |]. intros f1 s1 _.
  apply ok_bind. eapply ok_weaken; [apply ok_any |]. intros f2 s2 _.
  rewrite decide_True by assumption.
  apply ok_bind, ok_SequenceLabelField. intros p [= <-] _.
  apply ok_ret, lookup_insert_eq.
Qed.

Lemma read_window_ner_feature new_tokens mask_tokens pos_tags pos_tags_v
    chunk_tags ner_tags ix stepsize s :
  tag_label self = Some "ner" → "ner" ∈ feature_labels self →
  ok_post (read_window self new_tokens mask_tokens pos_tags pos_tags_v
             chunk_tags ner_tags ix stepsize) s
    (fun instance _ =>
       ∃ p, seq_fields instance !! "tags" = Some p
            ∧ seq_fields instance !! "ner_tags" = Some p).
Proof.
  intros Htag Hner. unfold read_window. cbv zeta.
  apply ok_bind. eapply ok_weaken; [apply ok_any |]. intros coded s1 _.
  apply ok_bind. eapply ok_weaken; [now apply add_feature_labels_ner |].
  intros f1 s2 Hf1.
  apply ok_bind. eapply ok_weaken; [apply add_tag_label_fields |].
  intros f2 s3 [Hf2 _]. rewrite (Hf2 Htag).
  apply ok_bind. eapply ok_weaken; [apply ok_any |]. intros l s4 _.
  apply ok_ret. exists coded.2. cbn [seq_fields].
  rewrite lookup_insert_eq, lookup_insert_ne by discriminate. auto.
Qed.

(** X11.  With "ner" both the tag label and a feature label, the
    [ner_tags] field and the [tags] field of an instance hold one and the
    same list object, so the correction of the final loop shows in the
    feature as well: in a read that returns, both fields end as the list
    the instance was built with, corrected. *)
Theorem read_ner_feature_is_corrected data_file s0 s2 instances :
  tag_label self = Some "ner" → "ner" ∈ feature_labels self →
  _read self file_path data_file s0 = (s2, Ok instances) →
  ∃ s1,
    build self file_path data_file s0 = (s1, Ok instances)
    ∧ ∀ instance, instance ∈ instances →
        seq_fields instance !! "ner_tags" = seq_fields instance !! "tags"
        ∧ ∃ l, field_labels s1 instance "ner_tags" = Some l
               ∧ field_labels s2 instance "ner_tags" = Some (correct l)
               ∧ field_labels s2 instance "tags" = Some (correct l).
Proof.
  intros Htag Hner (s1 & Hbuild & Hcheck)%read_ok_inv. exists s1.
  split; [assumption |].
  pose proof (build_inv self file_path _
                (fun toks p pv c n ix st s =>
                   read_window_ner_feature _ _ p pv c n ix st s Htag Hner)
                _ _ _ _ Hbuild) as Hall.
  destruct (check_instances_ok _ _ _ _ _ _ Hcheck) as (Hchk & _ & Hheap).
  rewrite Forall_forall in Hall. rewrite Forall_forall in Hchk.
  intros instance Hin.
  destruct (Hall _ Hin) as (p & Hp & Hq).
  destruct (Hchk _ Hin) as (p' & l & Hp' & Hl & _).
  assert (p' = p) as -> by congruence.
  split; [congruence |]. exists l.
  unfold field_labels. rewrite Hp, Hq. cbn [mbind option_bind].
  rewrite Hheap, Hl.
  rewrite decide_True by (apply list_elem_of_omap; eauto). auto.
Qed.

(** X12.  What a read that returns guarantees of every instance: it has a
    [tags] list, with one tag per token and at least one, and the first
    tag does not start with "I-". *)
Theorem read_first_tag_not_inside data_file s0 s2 instances :
  _read self file_path data_file s0 = (s2, Ok instances) →
  ∀ instance, instance ∈ instances →
    ∃ tags, field_labels s2 instance "tags" = Some tags
            ∧ length tags = length (tokens instance)
            ∧ tags ≠ []
            ∧ startswith "I-" (first_tag tags) = false.
Proof.
  intros (s1 & Hbuild & Hcheck)%read_ok_inv instance Hin.
  destruct (check_instances_ok _ _ _ _ _ _ Hcheck) as (Hchk & _ & Hheap).
  rewrite Forall_forall in Hchk.
  destruct (Hchk _ Hin) as (p & l & Hp & Hl & Hne & Hlen & _).
  exists (correct l). unfold field_labels. rewrite Hp. cbn [mbind option_bind].
  rewrite Hheap, Hl.
  rewrite decide_True by (apply list_elem_of_omap; eauto).
  split; [reflexivity | split; [| split]].
  - now rewrite correct_length.
  - now rewrite correct_nil.
  - apply first_tag_correct.
Qed.

End TagLists.

(** *** Configurations that cannot read *)

Section SentenceFailures.
Import Reader.

Variable self : WeakConll2003DatasetReader.
Variable file_path : string.

Lemma read_groups_raises groups lines instances s :
  (false, lines) ∈ groups →
  (∀ instances s, ∃ s' e,
     read_sentence self file_path lines instances s = (s', Raise e)) →
  ∃ s' e, read_groups self file_path groups instances s = (s', Raise e).
Proof.
  intros Hin Hraise. revert instances s.
  induction groups as [| [is_divider lines'] groups IH]; intros instances s;
    [inversion Hin |].
  cbn [read_groups]. apply elem_of_cons in Hin as [[= <- <-] | Hin].
  - destruct (Hraise instances s) as (s' & e & Hs).
    rewrite (rd_bind_raise _ _ _ _ _ Hs). eauto.
  - destruct is_divider; [now apply IH |].
    destruct (read_sentence self file_path lines' instances s)
      as [s1 [r | e]] eqn:Hs.
    + rewrite (rd_bind_step _ _ _ _ _ Hs). now apply IH.
    + rewrite (rd_bind_raise _ _ _ _ _ Hs). eauto.
Qed.

Lemma read_raises_at data_file lines s0 :
  lines ∈ sentences data_file →
  (∀ instances s, ∃ s' e,
     read_sentence self file_path lines instances s = (s', Raise e)) →
  ∃ s e, _read self file_path data_file s0 = (s, Raise e).
Proof.
  intros Hin%sentences_elem Hraise.
  destruct (read_groups_raises _ _ []
              {| heap := heap s0;
                 log := log s0 ++ [(INFO, "Reading instances from lines in file at: " +:+ file_path)] |}
              Hin Hraise) as (s & e & Hs).
  exists s, e. unfold _read. apply rd_bind_raise.
  unfold build. now rewrite (rd_bind_step _ _ s0 _ tt eq_refl).
Qed.

(** A sentence chunk with 3 or 4 columns reaches the loop over its
    windows. *)
Lemma read_sentence_windows lines instances s :
  column_count lines = 3 ∨ column_count lines = 4 →
  ∃ toks pos chunk ner s1,
    zip_star (fields_of lines) !! 0 = Some toks
    ∧ length toks = length lines ∧ 0 < length toks
    ∧ length pos = length toks ∧ length ner = length toks
    ∧ heap s1 = heap s ++ [pos]
    ∧ read_sentence self file_path lines instances s
      = read_windows self (new_token self <$> toks) (mask_token self <$> toks)
          (length (heap s)) pos chunk ner (window_size self toks)
          (range_from (length toks) 0 (length toks) (window_size self toks))
          instances s1.
Proof.
  unfold column_count. intros Hcount.
  destruct (columns_of_returns _ Hcount)
    as (toks & pos & chunk & ner & Hcols & Htoks & Hpos & Hner).
  pose proof (zip_star_columns (fields_of lines)) as Hlen.
  rewrite Forall_forall in Hlen.
  assert (length toks = length lines) as Hlt by (eapply column_length, Htoks).
  assert (0 < length toks) as Hne.
  { rewrite Hlt. destruct lines; [simpl in Hcount; lia | simpl; lia]. }
  assert (∃ sw, warn_if_long self file_path (zip_star (fields_of lines)) s
                = (sw, Ok tt) ∧ heap sw = heap s) as (sw & Hwarn & Hsw).
  { unfold warn_if_long. cbv zeta. case_decide; [| eexists; split; reflexivity].
    unfold list_get. rewrite Htoks. unfold mbind, rd_bind, lift.
    case_decide; eexists; split; reflexivity. }
  exists toks, pos, chunk, ner,
    {| heap := heap sw ++ [pos]; log := log sw |}.
  repeat split; try assumption.
  - rewrite (Hlen _ Hpos). unfold fields_of in *. rewrite length_fmap. lia.
  - rewrite (Hlen _ Hner). unfold fields_of in *. rewrite length_fmap. lia.
  - cbn [heap]. now rewrite Hsw.
  - unfold read_sentence. cbv zeta.
    rewrite (rd_bind_step _ _ _ _ _ Hwarn). rewrite Hcols.
    rewrite (rd_bind_step _ _ sw sw _ eq_refl).
    rewrite (rd_bind_step _ _ sw _ _ eq_refl).
    rewrite <- Hsw.
    assert ((if decide (0 < max_sentence_length self)%Z
             then mret (Z.to_nat (max_sentence_length self))
             else first ← lift (list_get (zip_star (fields_of lines)) 0);
                  mret (length first))
              {| heap := heap sw ++ [pos]; log := log sw |}
            = ({| heap := heap sw ++ [pos]; log := log sw |},
               Ok (window_size self toks))) as Hstep.
    { unfold window_size. case_decide; [reflexivity |].
      unfold list_get. rewrite Htoks. reflexivity. }
    rewrite (rd_bind_step _ _ _ _ _ Hstep).
    unfold range. rewrite length_fmap.
    assert (0 < window_size self toks) as Hws.
    { apply window_size_pos. intros ->. simpl in Hne. lia. }
    rewrite decide_False by lia.
    rewrite (rd_bind_step _ _ _ _ _ eq_refl). reflexivity.
Qed.

End SentenceFailures.

Section ConfigurationFailures.
Import Reader.

Variable self : WeakConll2003DatasetReader.
Variable file_path : string.

Lemma range_from_first (n stepsize : nat) :
  0 < n → ∃ ixs, range_from n 0 n stepsize = 0 :: ixs.
Proof.
  intros Hn. destruct n as [| n']; [lia |]. cbn [range_from].
  rewrite decide_True by lia. eauto.
Qed.

Lemma SequenceLabelField_mismatch (p : loc) (l : list string)
    (sequence : list Token) s :
  heap s !! p = Some l → length l ≠ length sequence →
  ∃ msg, SequenceLabelField (Some p) sequence s
         = (s, Raise (ConfigurationError msg)).
Proof.
  intros Hl Hlen. unfold SequenceLabelField.
  rewrite (rd_bind_step _ _ s s l); [| unfold deref; now rewrite Hl].
  rewrite decide_True by assumption. eexists. reflexivity.
Qed.

Lemma read_window_pos_raises new_tokens mask_tokens pos_tags pos_tags_v
    chunk_tags ner_tags ix stepsize s :
  tag_label self = Some "pos" → coding_scheme self ≠ "BIOUL" →
  "chunk" ∉ feature_labels self →
  heap s !! pos_tags = Some pos_tags_v →
  length pos_tags_v = length new_tokens →
  length ner_tags = length new_tokens →
  stepsize < length new_tokens →
  ∃ s' msg,
    read_window self new_tokens mask_tokens pos_tags pos_tags_v chunk_tags
      ner_tags ix stepsize s
    = (s', Raise (ConfigurationError msg)).
Proof.
  intros Htag Hcoding Hchunk Hpos Hlpos Hlner Hstep.
  unfold read_window. cbv zeta.
  destruct (recode_returns self Hcoding chunk_tags ner_tags ix stepsize s)
    as (s1 & coded & Hrecode & Hpre1 & Hcoded).
  rewrite (rd_bind_step _ _ _ _ _ Hrecode).
  destruct (add_feature_labels_returns self Hchunk
              (slice ix (ix + stepsize) new_tokens) pos_tags_v coded.1 coded.2
              ix stepsize ∅ _ s1 Hcoded)
    as (s2 & f1 & Hfeat & Hpre2).
  { rewrite !length_slice. lia. }
  { rewrite !length_slice. lia. }
  rewrite (rd_bind_step _ _ _ _ _ Hfeat).
  assert (heap s2 !! pos_tags = Some pos_tags_v) as Hpos2.
  { eapply prefix_lookup_Some; [| exact Hpre2].
    eapply prefix_lookup_Some; [exact Hpos | exact Hpre1]. }
  destruct (SequenceLabelField_mismatch pos_tags pos_tags_v
              (slice ix (ix + stepsize) new_tokens) s2 Hpos2)
    as (msg & Hfield).
  { rewrite length_slice. lia. }
  exists s2, msg. apply rd_bind_raise.
  unfold add_tag_label. rewrite Htag.
  rewrite decide_False by discriminate. rewrite decide_True by reflexivity.
  now apply rd_bind_raise.
Qed.

(** X13.  With [tag_label="pos"] the [tags] field is given the whole
    part-of-speech column of the sentence, not the window's part of it.
    So a sentence longer than a positive maximal length cannot be read:
    at its first window the field's length check raises
    [ConfigurationError], and the read as a whole raises. *)
Theorem read_pos_tags_of_long_sentence data_file lines s0 :
  tag_label self = Some "pos" → coding_scheme self ≠ "BIOUL" →
  "chunk" ∉ feature_labels self →
  lines ∈ sentences data_file →
  column_count lines = 3 ∨ column_count lines = 4 →
  (0 < max_sentence_length self < Z.of_nat (length lines))%Z →
  (∃ s e, _read self file_path data_file s0 = (s, Raise e))
  ∧ (∀ instances s, ∃ s' msg,
       read_sentence self file_path lines instances s
       = (s', Raise (ConfigurationError msg))).
Proof.
  intros Htag Hcoding Hchunk Hin Hcols HL.
  assert (∀ instances s, ∃ s' msg,
            read_sentence self file_path lines instances s
            = (s', Raise (ConfigurationError msg))) as Hraise.
  { intros instances s.
    destruct (read_sentence_windows self file_path lines instances s Hcols)
      as (toks & pos & chunk & ner & s1 & Htoks & Hlen & Hne & Hpos & Hner
          & Hheap & ->).
    destruct (range_from_first (length toks) (window_size self toks) Hne)
      as (ixs & ->).
    cbn [read_windows].
    destruct (read_window_pos_raises (new_token self <$> toks)
                (mask_token self <$> toks) (length (heap s)) pos chunk ner 0
                (window_size self toks) s1 Htag Hcoding Hchunk)
      as (s' & msg & Hw).
    - rewrite Hheap. apply lookup_snoc.
    - now rewrite length_fmap.
    - now rewrite length_fmap.
    - rewrite length_fmap. unfold window_size. rewrite decide_True by lia. lia.
    - exists s', msg. now apply rd_bind_raise. }
  split; [| exact Hraise].
  apply (read_raises_at self file_path data_file lines s0 Hin).
  intros instances s. destruct (Hraise instances s) as (s' & msg & H). eauto.
Qed.

(** X14.  The coding scheme "BIOUL", which the constructor accepts, cannot
    be used: the module never imports [iob1_to_bioul], so the read of any
    file with a sentence raises, and a sentence chunk of 3 or 4 columns
    raises [NameError] at its first window. *)
Theorem read_bioul_unavailable data_file s0 :
  coding_scheme self = "BIOUL" → sentences data_file ≠ [] →
  (∃ s e, _read self file_path data_file s0 = (s, Raise e))
  ∧ (∀ lines instances s,
       column_count lines = 3 ∨ column_count lines = 4 →
       ∃ s', read_sentence self file_path lines instances s
             = (s', Raise (NameError "iob1_to_bioul"))).
Proof.
  intros Hcoding Hsent.
  assert (∀ lines instances s,
            column_count lines = 3 ∨ column_count lines = 4 →
            ∃ s', read_sentence self file_path lines instances s
                  = (s', Raise (NameError "iob1_to_bioul"))) as Hraise.
  { intros lines instances s Hcols.
    destruct (read_sentence_windows self file_path lines instances s Hcols)
      as (toks & pos & chunk & ner & s1 & Htoks & Hlen & Hne & Hpos & Hner
          & Hheap & ->).
    destruct (range_from_first (length toks) (window_size self toks) Hne)
      as (ixs & ->).
    cbn [read_windows]. exists s1. apply rd_bind_raise.
    unfold read_window. cbv zeta. apply rd_bind_raise.
    unfold recode. rewrite decide_True by assumption. reflexivity. }
  split; [| exact Hraise].
  destruct (sentences data_file) as [| lines rest] eqn:Hs; [congruence |].
  assert (lines ∈ sentences data_file) as Hin by (rewrite Hs; left).
  apply (read_raises_at self file_path data_file lines s0 Hin).
  intros instances s.
  destruct (decide (column_count lines = 3 ∨ column_count lines = 4))
    as [Hcols | Hbad].
  - destruct (Hraise lines instances s Hcols) as (s' & H). eauto.
  - destruct (read_sentence_bad_columns self file_path lines instances s)
      as (s' & e & H & _); [tauto | tauto | eauto].
Qed.

End ConfigurationFailures.

(** *** The warnings of a read *)

Section LogFacts.
Import Reader.

Variable self : WeakConll2003DatasetReader.
Variable file_path : string.

Lemma keeps_log_ret {A} (a : A) : keeps_log (mret a).
Proof. intros s. now apply ok_ret. Qed.

Lemma keeps_log_lift {A} (r : res A) : keeps_log (lift r).
Proof. intros s. now apply ok_lift. Qed.

Lemma keeps_log_raise {A} (e : exn) : keeps_log (raise (A := A) e).
Proof. intros s. apply ok_raise. Qed.

Lemma keeps_log_alloc (l : list string) : keeps_log (alloc l).
Proof. intros s. now apply ok_alloc. Qed.

Lemma keeps_log_deref (p : loc) : keeps_log (deref p).
Proof. intros s. now apply ok_deref. Qed.

Lemma keeps_log_bind {A B} (m : rd A) (f : A → rd B) :
  keeps_log m → (∀ a, keeps_log (f a)) → keeps_log (m ≫= f).
Proof.
  intros Hm Hf s. apply ok_bind. eapply ok_weaken; [apply Hm |].
  intros a s1 H1. eapply ok_weaken; [apply Hf |].
  intros b s2 H2. congruence.
Qed.

Lemma keeps_log_SequenceLabelField (labels : option loc)
    (sequence : list Token) :
  keeps_log (SequenceLabelField labels sequence).
Proof. intros s. apply ok_SequenceLabelField. reflexivity. Qed.

Lemma keeps_log_recode chunk_tags ner_tags ix stepsize :
  keeps_log (recode self chunk_tags ner_tags ix stepsize).
Proof.
  unfold recode. case_decide; [apply keeps_log_raise |].
  apply keeps_log_bind.
  - destruct chunk_tags; [| apply keeps_log_ret].
    apply keeps_log_bind; [apply keeps_log_alloc | intros; apply keeps_log_ret].
  - intros c. apply keeps_log_bind; [apply keeps_log_alloc |].
    intros; apply keeps_log_ret.
Qed.

Lemma keeps_log_add_feature_labels sequence pos_tags_v coded_chunks coded_ner
    ix stepsize (instance_fields : gmap string loc) :
  keeps_log (add_feature_labels self sequence pos_tags_v coded_chunks
               coded_ner ix stepsize instance_fields).
Proof.
  unfold add_feature_labels.
  apply keeps_log_bind; [| intros f1; apply keeps_log_bind; [| intros f2]].
  - case_decide; [| apply keeps_log_ret].
    apply keeps_log_bind; [apply keeps_log_alloc | intros p].
    apply keeps_log_bind; [apply keeps_log_SequenceLabelField |].
    intros; apply keeps_log_ret.
  - case_decide; [| apply keeps_log_ret].
    apply keeps_log_bind; [apply keeps_log_SequenceLabelField |].
    intros; apply keeps_log_ret.
  - case_decide; [| apply keeps_log_ret].
    apply keeps_log_bind; [apply keeps_log_SequenceLabelField |].
    intros; apply keeps_log_ret.
Qed.

Lemma keeps_log_add_tag_label sequence pos_tags coded_chunks coded_ner
    (instance_fields : gmap string loc) :
  keeps_log (add_tag_label self sequence pos_tags coded_chunks coded_ner
               instance_fields).
Proof.
  unfold add_tag_label. repeat case_decide.
  - intros s. apply ok_try_except; [| intros; apply ok_raise].
    apply keeps_log_bind; [apply keeps_log_SequenceLabelField |].
    intros; apply keeps_log_ret.
  - apply keeps_log_bind; [apply keeps_log_SequenceLabelField |].
    intros; apply keeps_log_ret.
  - apply keeps_log_bind; [apply keeps_log_SequenceLabelField |].
    intros; apply keeps_log_ret.
  - apply keeps_log_ret.
Qed.

Lemma keeps_log_add_labels coded_ner : keeps_log (add_labels self coded_ner).
Proof.
  unfold add_labels. destruct (label_indexer self); [| apply keeps_log_ret].
  apply keeps_log_bind; [apply keeps_log_deref | intros; apply keeps_log_ret].
Qed.

Lemma keeps_log_read_window new_tokens mask_tokens pos_tags pos_tags_v
    chunk_tags ner_tags ix stepsize :
  keeps_log (read_window self new_tokens mask_tokens pos_tags pos_tags_v
               chunk_tags ner_tags ix stepsize).
Proof.
  unfold read_window. cbv zeta.
  apply keeps_log_bind; [apply keeps_log_recode | intros coded].
  apply keeps_log_bind; [apply keeps_log_add_feature_labels | intros f1].
  apply keeps_log_bind; [apply keeps_log_add_tag_label | intros f2].
  apply keeps_log_bind; [apply keeps_log_add_labels | intros l].
  apply keeps_log_ret.
Qed.

Lemma keeps_log_read_windows new_tokens mask_tokens pos_tags pos_tags_v
    chunk_tags ner_tags stepsize ixs instances :
  keeps_log (read_windows self new_tokens mask_tokens pos_tags pos_tags_v
               chunk_tags ner_tags stepsize ixs instances).
Proof.
  revert instances. induction ixs as [| ix ixs IH]; intros instances;
    cbn [read_windows]; [apply keeps_log_ret |].
  apply keeps_log_bind; [apply keeps_log_read_window | intros i; apply IH].
Qed.

Lemma warnings_snoc (l : list (level * string)) (lv : level) (msg : string) :
  warnings (l ++ [(lv, msg)])
  = warnings l ++ match lv with WARNING => [msg] | INFO => [] end.
Proof. unfold warnings. rewrite omap_app. now destruct lv. Qed.

(** One sentence chunk: a warning exactly when it is too long. *)
Lemma read_sentence_warnings lines instances s :
  ok_post (read_sentence self file_path lines instances) s
    (fun _ s' =>
       warnings (log s')
       = warnings (log s)
         ++ if decide (too_long self lines)
            then [length_warning self file_path (length lines)] else []).
Proof.
  unfold read_sentence. cbv zeta. intros s' r Hread.
  apply rd_bind_ok in Hread as ([] & s1 & Hwarn & Hread).
  apply rd_bind_ok in Hread as ([[[toks pos] chunk] ner] & s1' & [= <- Hcols] & Hread).
  apply columns_of_ok in Hcols as [Htoks _].
  pose proof (column_length _ _ _ Htoks) as Hlen.
  apply rd_bind_ok in Hread as (p & s2 & [= <- <-] & Hread).
  apply rd_bind_ok in Hread as (stepsize & s3 & Hstep & Hread).
  assert (log s3 = log s1) as Hs3.
  { revert Hstep. case_decide; [now intros [= <- _] |].
    unfold list_get. rewrite Htoks. now intros [= <- _]. }
  apply rd_bind_ok in Hread as (ixs & s4 & [= <- _] & Hread).
  apply keeps_log_read_windows in Hread. rewrite Hread, Hs3. clear Hread Hs3.
  revert Hwarn. unfold warn_if_long, too_long. cbv zeta.
  unfold list_get. rewrite Htoks. unfold mbind, rd_bind, lift. rewrite Hlen.
  destruct (decide (0 < max_sentence_length self)%Z) as [Hpos | Hneg].
  - destruct (decide (max_sentence_length self < Z.of_nat (length lines))%Z).
    + rewrite decide_True by lia. intros [= <-]. cbn [log].
      now rewrite warnings_snoc.
    + rewrite decide_False by lia. intros [= <-]. now rewrite app_nil_r.
  - rewrite decide_False by lia. intros [= <-]. now rewrite app_nil_r.
Qed.

Lemma read_groups_warnings groups instances s :
  ok_post (read_groups self file_path groups instances) s
    (fun _ s' =>
       warnings (log s')
       = warnings (log s)
         ++ ((fun lines => length_warning self file_path (length lines))
               <$> filter (too_long self)
                     (filter (fun g => g.1 = false) groups).*2)).
Proof.
  revert instances s.
  induction groups as [| [is_divider lines] groups IH]; intros instances s;
    cbn [read_groups].
  - apply ok_ret. now rewrite app_nil_r.
  - destruct is_divider.
    + rewrite filter_cons_False by (simpl; discriminate). apply IH.
    + rewrite filter_cons_True by reflexivity. rewrite fmap_cons. cbn [snd].
      apply ok_bind. eapply ok_weaken; [apply read_sentence_warnings |].
      intros r s1 H1. eapply ok_weaken; [apply IH |].
      intros r' s2 H2. rewrite H2, H1, <- app_assoc. f_equal.
      destruct (decide (too_long self lines)).
      * now rewrite filter_cons_True by assumption.
      * now rewrite filter_cons_False by assumption.
Qed.

Lemma check_instances_warnings instances s :
  ok_post (check_instances self file_path instances) s
    (fun _ s' => warnings (log s') = warnings (log s)).
Proof.
  revert s. induction instances as [| instance instances IH]; intros s;
    cbn [check_instances]; [now apply ok_ret |].
  apply ok_bind.
  assert (ok_post (check_instance self file_path instance) s
            (fun _ s' => warnings (log s') = warnings (log s))) as Hone.
  { unfold check_instance. apply ok_bind, ok_lift. intros tags _.
    apply ok_bind, ok_deref. case_decide; [apply ok_raise |].
    case_decide; [apply ok_raise |].
    apply ok_bind, ok_lift. intros first _.
    destruct (startswith "I-" first); [| now apply ok_ret].
    apply ok_bind, ok_logger, ok_assign. intros l _ _. cbn [log].
    rewrite warnings_snoc. apply app_nil_r. }
  eapply ok_weaken; [exact Hone |]. intros [] s1 H1.
  eapply ok_weaken; [apply IH |]. intros [] s2 H2. congruence.
Qed.

(** X15.  A read that returns has logged one warning for every sentence
    chunk longer than a positive maximal length, in the order of the file
    and naming the chunk's length, and no other warning: none for a
    sentence within the limit, none at all when the maximal length is not
    positive. *)
Theorem read_warns_when_splitting data_file s0 s instances :
  _read self file_path data_file s0 = (s, Ok instances) →
  warnings (log s)
  = warnings (log s0)
    ++ ((fun lines => length_warning self file_path (length lines))
          <$> filter (too_long self) (sentences data_file)).
Proof.
  intros (s1 & Hbuild & Hcheck)%read_ok_inv.
  rewrite (check_instances_warnings _ _ _ _ Hcheck).
  revert Hbuild. unfold build.
  intros ([] & s0' & [= <-] & Hgroups)%rd_bind_ok.
  rewrite (read_groups_warnings _ _ _ _ _ Hgroups). cbn [log].
  rewrite warnings_snoc, app_nil_r. reflexivity.
Qed.

End LogFacts.

(** ** Further properties of the classifier *)

(** *** The attention dictionaries of [decode] *)

Section DecodeAttentions.
Import Classifier.

Variable np_exp : float → float.

Lemma column_of_ok (rows : list (list float)) (jx : nat) (column : list float) :
  mapM (fun row => list_get row jx) rows = Ok column ↔ column_of rows jx column.
Proof.
  rewrite mapM_ok. unfold column_of. split; intros H.
  - eapply Forall2_impl; [exact H |]. intros row v. apply list_get_ok.
  - eapply Forall2_impl; [exact H |]. intros row v. apply list_get_ok.
Qed.

Lemma odict_set_fresh (k : string) (v : list float)
    (d : list (string * list float)) :
  k ∉ d.*1 → odict_set k v d = d ++ [(k, v)].
Proof.
  induction d as [| [k' v'] d IH]; [reflexivity |].
  rewrite fmap_cons, not_elem_of_cons. cbn [fst]. intros [Hne Hd].
  cbn [odict_set]. rewrite decide_False by congruence.
  now rewrite IH.
Qed.

Lemma odict_set_keys (k : string) (v : list float)
    (d : list (string * list float)) (k' : string) :
  k' ∈ (odict_set k v d).*1 ↔ k' = k ∨ k' ∈ d.*1.
Proof.
  induction d as [| [k0 v0] d IH]; cbn [odict_set].
  - rewrite fmap_cons, fmap_nil. cbn [fst]. rewrite elem_of_cons. tauto.
  - case_decide as Hk.
    + rewrite !fmap_cons. cbn [fst]. rewrite !elem_of_cons. subst. tauto.
    + rewrite !fmap_cons. cbn [fst]. rewrite !elem_of_cons, IH. tauto.
Qed.

Lemma odict_set_NoDup (k : string) (v : list float)
    (d : list (string * list float)) :
  NoDup d.*1 → NoDup (odict_set k v d).*1.
Proof.
  induction d as [| [k0 v0] d IH]; cbn [odict_set].
  - intros _. rewrite fmap_cons, fmap_nil. apply NoDup_singleton.
  - rewrite fmap_cons. cbn [fst]. intros [Hk0 Hd]%NoDup_cons.
    case_decide as Hk.
    + rewrite fmap_cons. cbn [fst]. now apply NoDup_cons.
    + rewrite fmap_cons. cbn [fst]. apply NoDup_cons. split; [| now apply IH].
      rewrite odict_set_keys. intros [? | ?]; [congruence | contradiction].
Qed.

Lemma odict_set_elem (k : string) (v : list float)
    (d : list (string * list float)) (k' : string) (v' : list float) :
  NoDup d.*1 →
  (k', v') ∈ odict_set k v d
  ↔ (k' = k ∧ v' = v) ∨ (k' ≠ k ∧ (k', v') ∈ d).
Proof.
  induction d as [| [k0 v0] d IH]; cbn [odict_set].
  - intros _. rewrite list_elem_of_singleton. split.
    + intros [= -> ->]. auto.
    + intros [[-> ->] | [_ H]]; [reflexivity | inversion H].
  - rewrite fmap_cons. cbn [fst]. intros [Hk0 Hd]%NoDup_cons.
    case_decide as Hk.
    + subst k0. rewrite !elem_of_cons. split.
      * intros [[= -> ->] | Hin]; [auto |].
        right. split; [| auto]. intros ->. apply Hk0.
        apply (list_elem_of_fmap_2 fst _ _ Hin).
      * intros [[-> ->] | [Hne [[= -> ->] | Hin]]]; [auto | congruence | auto].
    + rewrite !elem_of_cons, (IH Hd). split.
      * intros [[= -> ->] | [[-> ->] | [Hne Hin]]]; auto.
      * intros [[-> ->] | [Hne [[= -> ->] | Hin]]]; auto.
Qed.

Lemma odict_set_length (k : string) (v : list float)
    (d : list (string * list float)) :
  length (odict_set k v d) ≤ S (length d).
Proof.
  induction d as [| [k0 v0] d IH]; cbn [odict_set length]; [lia |].
  case_decide; cbn [length]; lia.
Qed.

Lemma attention_loop_cons li rows jx jxs attention r :
  attention_loop li rows (jx :: jxs) attention = Ok r ↔
  ∃ tag column,
    get_tag li jx = Ok tag ∧ column_of rows jx column
    ∧ attention_loop li rows jxs (odict_set tag column attention) = Ok r.
Proof.
  cbn [attention_loop]. rewrite bind_ok. split.
  - intros (tag & Htag & (column & Hcol & Hr)%bind_ok).
    exists tag, column. now rewrite <- column_of_ok.
  - intros (tag & column & Htag & Hcol%column_of_ok & Hr).
    exists tag. split; [assumption |]. apply bind_ok. eauto.
Qed.

(** Distinct tags: the dictionary grows by one entry per tag index, in
    order. *)
Lemma attention_loop_distinct li rows jxs attention r :
  attention_loop li rows jxs attention = Ok r →
  NoDup jxs →
  (∀ j k tag, j ∈ jxs → k ∈ jxs →
              get_tag li j = Ok tag → get_tag li k = Ok tag → j = k) →
  (∀ j tag, j ∈ jxs → get_tag li j = Ok tag → tag ∉ attention.*1) →
  ∃ new, r = attention ++ new ∧ Forall2 (attention_entry li rows) jxs new.
Proof.
  revert attention. induction jxs as [| jx jxs IH]; intros attention.
  - intros [= <-] _ _ _. exists []. rewrite app_nil_r. split; constructor.
  - intros (tag & column & Htag & Hcol & Hr)%attention_loop_cons
      [Hjx Hnd]%NoDup_cons Hinj Hfresh.
    rewrite odict_set_fresh in Hr by (apply (Hfresh jx); [left | assumption]).
    destruct (IH _ Hr Hnd) as (new & -> & Hnew).
    + intros j k t Hj Hk. apply Hinj; now right.
    + intros j t Hj Ht. rewrite fmap_app, elem_of_app. intros [Hin | Hin].
      * apply (Hfresh j t); [now right | assumption | assumption].
      * rewrite fmap_cons, fmap_nil in Hin. cbn [fst] in Hin.
        apply list_elem_of_singleton in Hin as ->.
        assert (j = jx) as -> by (apply (Hinj j jx tag); [now right | left | assumption | assumption]).
        contradiction.
    + exists ((tag, column) :: new). rewrite <- app_assoc. split; [reflexivity |].
      constructor; [split; assumption | assumption].
Qed.

(** Whatever the tags: no key twice, every tag index has its key, and an
    entry holds the column of the last index with its tag. *)
Lemma attention_loop_keys li rows (a n : nat) attention r :
  attention_loop li rows (seq a n) attention = Ok r →
  NoDup attention.*1 →
  NoDup r.*1
  ∧ length r ≤ length attention + n
  ∧ (∀ j, a ≤ j < a + n → ∃ tag, get_tag li j = Ok tag ∧ tag ∈ r.*1)
  ∧ (∀ tag column, (tag, column) ∈ r →
       ((tag, column) ∈ attention
        ∧ ∀ k, a ≤ k < a + n → get_tag li k ≠ Ok tag)
       ∨ ∃ j, a ≤ j < a + n ∧ get_tag li j = Ok tag ∧ column_of rows j column
              ∧ ∀ k, j < k < a + n → get_tag li k ≠ Ok tag)
  ∧ (∀ tag, tag ∈ attention.*1 → tag ∈ r.*1).
Proof.
  revert a attention. induction n as [| n IH]; intros a attention.
  - intros [= <-] Hnd.
    split; [assumption | split; [lia | split; [| split; [| auto]]]].
    + intros j Hj. lia.
    + intros tag column Hin. left. split; [assumption | intros k Hk; lia].
  - cbn [seq]. intros (tag & column & Htag & Hcol & Hr)%attention_loop_cons Hnd.
    destruct (IH _ _ Hr (odict_set_NoDup tag column _ Hnd))
      as (Hnd' & Hlen & Hkeys & Hent & Hmono).
    pose proof (odict_set_length tag column attention).
    split; [assumption | split; [lia | split; [| split]]].
    + intros j Hj. destruct (decide (j = a)) as [-> | Hne].
      * exists tag. split; [assumption |]. apply Hmono, odict_set_keys. auto.
      * apply Hkeys. lia.
    + intros t c Hin.
      destruct (Hent t c Hin) as [[Hold Hno] | (j & Hj & Ht & Hc & Hlast)].
      * apply (odict_set_elem _ _ _ _ _ Hnd) in Hold as [[-> ->] | [Hne Hold]].
        -- right. exists a. repeat split; try assumption; try lia.
           intros k Hk. apply Hno. lia.
        -- left. split; [assumption |]. intros k Hk.
           destruct (decide (k = a)) as [-> | Hka]; [congruence |].
           apply Hno. lia.
      * right. exists j. repeat split; try assumption; try lia.
        intros k Hk. apply Hlast. lia.
    + intros t Ht. apply Hmono, odict_set_keys. auto.
Qed.

Lemma length_slice_to {A} (n : Z) (l : list A) :
  (0 <= n)%Z → length (slice_to n l) = Z.to_nat n `min` length l.
Proof.
  intros Hn. unfold slice_to.
  destruct (n <? 0)%Z eqn:Hneg; [lia |]. apply length_take.
Qed.

Lemma decode_instance_lookup li outputs d ix :
  decode np_exp li outputs = Ok d → ix < length (mask outputs) →
  ∃ pl att,
    decode_instance np_exp li outputs (lengths_of (mask outputs)) ix
    = Ok (pl, att)
    ∧ d_preds d !! ix = Some pl ∧ d_attentions d !! ix = Some att.
Proof.
  unfold decode. cbv zeta. intros (decoded & Hdec & [= <-])%bind_ok Hix.
  assert (seq 0 (length (lengths_of (mask outputs))) !! ix = Some ix) as Hseq.
  { apply lookup_seq. unfold lengths_of. rewrite length_map. lia. }
  destruct (mapM_lookup _ _ _ _ _ Hdec Hseq) as ([pl att] & Hl & Hi).
  exists pl, att. cbn [d_preds d_attentions].
  rewrite !list_lookup_fmap, Hl. auto.
Qed.

Lemma decode_attention_of li outputs d ix att :
  decode np_exp li outputs = Ok d → d_attentions d !! ix = Some att →
  ∃ row rows,
    mask outputs !! ix = Some row
    ∧ data3 (attentions outputs) !! ix = Some rows
    ∧ attention_loop li (slice_to (foldr Z.add 0%Z row) rows)
        (seq 0 (shape_last (attentions outputs))) [] = Ok att.
Proof.
  intros Hd Hatt.
  assert (ix < length (mask outputs)) as Hix.
  { destruct (decode_length np_exp _ _ _ Hd) as [_ <-].
    eapply lookup_lt_Some, Hatt. }
  destruct (decode_instance_lookup _ _ _ _ Hd Hix) as (pl & att' & Hi & _ & Hatt').
  assert (att' = att) as -> by congruence.
  unfold decode_instance in Hi.
  apply bind_ok in Hi as (p & _ & Hi). apply bind_ok in Hi as (pl' & _ & Hi).
  apply bind_ok in Hi as (len & Hlen%list_get_ok & Hi).
  apply bind_ok in Hi as (att' & Hattn & [= _ <-]).
  unfold lengths_of in Hlen. rewrite list_lookup_fmap in Hlen.
  destruct (mask outputs !! ix) as [row |] eqn:Hrow; [| discriminate].
  injection Hlen as <-.
  unfold attention_of in Hattn.
  apply bind_ok in Hattn as (rows & Hrows%list_get_ok & Hloop).
  eauto.
Qed.

(** X18.  When the label indexer gives different tag indices different
    tags, the attention dictionary that [decode] returns for instance [ix]
    has exactly one entry per tag index, in index order: the tag of index
    [j] with column [j] of the instance's attention rows, cut to the first
    [mask[ix].sum()] rows.  When that sum is not negative, every list of
    the dictionary has as many entries as the sum says, or as there are
    rows if those are fewer. *)
Theorem decode_attention_dict (li : LabelIndexer) (outputs : Outputs)
    (d : Decoded) (ix : nat) (att : list (string * list float)) :
  decode np_exp li outputs = Ok d → d_attentions d !! ix = Some att →
  (∀ j k tag, j < shape_last (attentions outputs) →
              k < shape_last (attentions outputs) →
              get_tag li j = Ok tag → get_tag li k = Ok tag → j = k) →
  ∃ row rows,
    mask outputs !! ix = Some row
    ∧ data3 (attentions outputs) !! ix = Some rows
    ∧ Forall2 (attention_entry li (slice_to (foldr Z.add 0%Z row) rows))
        (seq 0 (shape_last (attentions outputs))) att
    ∧ ((0 <= foldr Z.add 0%Z row)%Z →
       Forall (fun e => length e.2
                        = Z.to_nat (foldr Z.add 0%Z row) `min` length rows)
         att).
Proof.
  intros Hd Hatt Hinj.
  destruct (decode_attention_of _ _ _ _ _ Hd Hatt) as (row & rows & Hrow & Hrows & Hloop).
  exists row, rows. split; [assumption | split; [assumption |]].
  destruct (attention_loop_distinct _ _ _ _ _ Hloop) as (new & -> & Hnew).
  - apply NoDup_seq.
  - intros j k tag Hj%elem_of_seq Hk%elem_of_seq. apply Hinj; lia.
  - intros j tag _ _ Hin. inversion Hin.
  - cbn [app]. split; [assumption |]. intros Hsum.
    rewrite <- (length_slice_to _ rows Hsum).
    clear -Hnew. induction Hnew as [| j e js new [_ Hcol] _ IH]; constructor;
      [| assumption].
    symmetry. eapply Forall2_length, Hcol.
Qed.

(** X19.  Whatever tags the label indexer gives: the attention dictionary
    of a decoded instance has no key twice and at most one entry per tag
    index, the tag of every index is among its keys, and an entry holds
    the column of the last index that has its tag (a later index with the
    same tag overwrites an earlier one). *)
Theorem decode_attention_keys (li : LabelIndexer) (outputs : Outputs)
    (d : Decoded) (ix : nat) (att : list (string * list float)) :
  decode np_exp li outputs = Ok d → d_attentions d !! ix = Some att →
  let n := shape_last (attentions outputs) in
  NoDup att.*1
  ∧ length att ≤ n
  ∧ (∀ j, j < n → ∃ tag, get_tag li j = Ok tag ∧ tag ∈ att.*1)
  ∧ ∃ row rows,
      mask outputs !! ix = Some row
      ∧ data3 (attentions outputs) !! ix = Some rows
      ∧ ∀ tag column, (tag, column) ∈ att →
          ∃ j, j < n ∧ get_tag li j = Ok tag
               ∧ column_of (slice_to (foldr Z.add 0%Z row) rows) j column
               ∧ ∀ k, j < k < n → get_tag li k ≠ Ok tag.
Proof.
  intros Hd Hatt n.
  destruct (decode_attention_of _ _ _ _ _ Hd Hatt) as (row & rows & Hrow & Hrows & Hloop).
  destruct (attention_loop_keys _ _ _ _ _ _ Hloop (NoDup_nil_2))
    as (Hnd & Hlen & Hkeys & Hent & _).
  split; [assumption | split; [exact Hlen | split]].
  - intros j Hj. apply Hkeys. lia.
  - exists row, rows. split; [assumption | split; [assumption |]].
    intros tag column Hin.
    destruct (Hent tag column Hin) as [[Hnil _] | (j & Hj & Ht & Hc & Hlast)];
      [inversion Hnil |].
    exists j. split; [lia | split; [assumption | split; [assumption |]]].
    intros k Hk. apply Hlast. lia.
Qed.

End DecodeAttentions.

(** *** The forward pass with a sampler attribute *)

Section ForwardAssigned.
Import Classifier.

Context {Val : Type}.
Variable np_log : float → float.
Variable ClassificationMetrics : LabelIndexer → Val.
Variable get_text_field_mask : option Val → Val.

Abbreviation forward := (Classifier.forward Val get_text_field_mask).
Abbreviation __init__ := (Classifier.__init__ Val np_log ClassificationMetrics).

Lemma init_identifier vocab emb gen sampler ident li thresh reg :
  getattr Val (__init__ vocab emb gen sampler ident li thresh reg) "identifier"
  = Ok (AModule ident).
Proof.
  unfold getattr, Classifier.__init__. cbv zeta.
  rewrite !lookup_insert_ne by discriminate. now rewrite lookup_insert_eq.
Qed.

Lemma getattr_insert_ne (self : gmap string (attr Val)) (name other : string)
    (a : attr Val) :
  other ≠ name → getattr Val (<[other := a]> self) name = getattr Val self name.
Proof. intros Hne. unfold getattr. now rewrite lookup_insert_ne. Qed.

Lemma getattr_insert (self : gmap string (attr Val)) (name : string)
    (a : attr Val) :
  getattr Val (<[name := a]> self) name = Ok a.
Proof. unfold getattr. now rewrite lookup_insert_eq. Qed.

(** X21.  Once the attribute [sampler] is assigned on a constructed
    classifier, a forward pass without extra keyword arguments completes.
    It calls the embedder, the mask function and the generator, then the
    sampler on the attentions and the mask if a sampler was assigned
    (with [None] the attentions themselves are the samples), and last
    the identifier on the embedding, the mask, the samples, the attentions
    and the labels, whose value it returns.  The [tags] argument is not
    used. *)
Theorem forward_once_sampler_is_set vocab emb gen sampler ident li thresh reg
    (assigned : option (list (option Val) → Val))
    (tokens labels tags : option Val) :
  let self :=
    <["sampler" := match assigned with
                   | Some smp => AModule smp
                   | None => ANone
                   end]> (__init__ vocab emb gen sampler ident li thresh reg) in
  let emb_msg := emb [tokens] in
  let mask := get_text_field_mask tokens in
  let attentions := gen [Some emb_msg; Some mask] in
  let samples := match assigned with
                 | Some smp => smp [Some attentions; Some mask]
                 | None => attentions
                 end in
  forward self tokens labels tags ∅
  = ([Call "text_field_embedder" [tokens];
      Call "get_text_field_mask" [tokens];
      Call "generator" [Some emb_msg; Some mask]]
     ++ match assigned with
        | Some _ => [Call "sampler" [Some attentions; Some mask]]
        | None => []
        end
     ++ [Call "identifier"
           [Some emb_msg; Some mask; Some samples; Some attentions; labels]],
     Ok (ident [Some emb_msg; Some mask; Some samples; Some attentions; labels])).
Proof.
  cbv zeta. unfold Classifier.forward.
  rewrite decide_False by (rewrite map_size_empty; lia).
  rewrite (getattr_insert_ne _ "text_field_embedder" "sampler") by discriminate.
  rewrite (getattr_insert_ne _ "generator" "sampler") by discriminate.
  rewrite (getattr_insert_ne _ "identifier" "sampler") by discriminate.
  rewrite (getattr_insert _ "sampler").
  rewrite init_embedder, init_generator, init_identifier.
  destruct assigned as [smp |]; reflexivity.
Qed.

End ForwardAssigned.

(** ** Properties of the page writers *)

Section Words.
Import Reader Webpage.

Lemma str_app_assoc (a b c : string) : a +:+ (b +:+ c) = (a +:+ b) +:+ c.
Proof.
  induction a as [| x a IH]; [reflexivity |].
  now rewrite !str_app_cons, IH.
Qed.

Lemma has_space_app (a b : string) :
  has_space (a +:+ b) = has_space a || has_space b.
Proof.
  induction a as [| x a IH]; [reflexivity |].
  rewrite str_app_cons. cbn [has_space]. rewrite IH. apply orb_assoc.
Qed.

Lemma split_from_word (t cur rest : string) :
  has_space t = false →
  split_from cur (t +:+ rest) = split_from (cur +:+ t) rest.
Proof.
  revert cur. induction t as [| c t IH]; intros cur.
  - intros _. now rewrite str_app_nil, str_app_nil_r.
  - cbn [has_space]. intros [Hc Ht]%orb_false_elim.
    rewrite str_app_cons, split_from_cons, Hc, IH by assumption.
    now rewrite app_assoc_char.
Qed.

Lemma join_cons (sep t u : string) (l : list string) :
  join sep (t :: u :: l) = t +:+ sep +:+ join sep (u :: l).
Proof. reflexivity. Qed.

Lemma split_join (toks : list string) :
  Forall is_word toks → split (join " " toks) = toks.
Proof.
  unfold split. induction 1 as [| t l [Hne Hsp] Hl IH]; [reflexivity |].
  destruct l as [| u l].
  - cbn [join]. rewrite <- (str_app_nil_r t) at 1.
    rewrite split_from_word by assumption. rewrite str_app_nil.
    cbn [split_from]. now rewrite decide_False.
  - rewrite join_cons, split_from_word by assumption. rewrite str_app_nil.
    change (" " +:+ join " " (u :: l)) with (String " " (join " " (u :: l))).
    rewrite split_from_cons. cbn [is_space]. change (is_space " ") with true.
    cbv iota. rewrite decide_False by assumption. now rewrite IH.
Qed.

Lemma split_from_words (s cur : string) :
  has_space cur = false → Forall is_word (split_from cur s).
Proof.
  revert cur. induction s as [| c s IH]; intros cur Hcur.
  - cbn [split_from]. case_decide; [constructor |].
    repeat constructor; assumption.
  - rewrite split_from_cons. destruct (is_space c) eqn:Hc.
    + case_decide.
      * now apply IH.
      * constructor; [split; assumption | now apply IH].
    + apply IH. rewrite has_space_app, Hcur. cbn [has_space]. now rewrite Hc.
Qed.

(** X23.  The page writers join the tokens of a prediction with blanks and
    [colorize_text] splits the text again: the words it finds are the
    tokens exactly when every token is a word (not empty, no blank in
    it). *)
Theorem split_join_round_trip (toks : list string) :
  split (join " " toks) = toks ↔ Forall is_word toks.
Proof.
  split; [| apply split_join].
  intros <-. now apply split_from_words.
Qed.

End Words.

Section ColorizeFacts.
Import Visualizer Webpage.

Variable format_2_2f : num → res string.

Abbreviation _get_word_color := (Webpage._get_word_color format_2_2f).
Abbreviation html_block := (Webpage.html_block format_2_2f).
Abbreviation colorize_text := (Webpage.colorize_text format_2_2f).

Lemma attn_to_rgb_returns (w : num) (pred_tag gold_tag : string) :
  is_finite (scale w) = true → comparable pred_tag gold_tag →
  ∃ c, _attn_to_rgb w pred_tag gold_tag = Ok c.
Proof.
  intros (h & Hh)%attn_hex_finite Hc.
  rewrite (attn_to_rgb_cases _ _ _ _ Hh). unfold comparable in Hc.
  repeat case_decide; eauto. tauto.
Qed.

Lemma mapM_raises {A B} (f : A → res B) (l : list A) (x : A) :
  x ∈ l → (∃ e, f x = Raise e) → ∃ e, mapM f l = Raise e.
Proof.
  intros Hin [e He]. induction l as [| y l IH]; [inversion Hin |].
  cbn [mapM]. apply elem_of_cons in Hin as [<- | Hin].
  - rewrite He. eauto.
  - destruct (f y) as [b |]; [| eauto]. cbn [mbind res_bind].
    destruct (IH Hin) as [e' ->]. eauto.
Qed.

(** X24.  [colorize_text] returns when the text has one word per weight,
    there are at least as many predicted and gold tags as words, every
    weight times 255 is finite and can be formatted, and every pair of
    tags is comparable.  The page text is then the blocks of the words
    joined by blanks, one block per word in order, each made by
    [_get_word_color] of the word with its weight and its two tags. *)
Theorem colorize_text_returns (text : string) (attn_weights : list num)
    (pred_tags gold_tags : list string) :
  let words := Reader.split text in
  length words = length attn_weights →
  length words ≤ length pred_tags → length words ≤ length gold_tags →
  (∀ i w p g,
     attn_weights !! i = Some w → pred_tags !! i = Some p →
     gold_tags !! i = Some g →
     is_finite (scale w) = true ∧ comparable p g
     ∧ ∃ s, format_2_2f w = Ok s) →
  ∃ html_blocks,
    colorize_text text attn_weights pred_tags gold_tags
    = Ok (join " " html_blocks)
    ∧ Forall2 (fun i block =>
                 ∃ word w p g,
                   words !! i = Some word ∧ attn_weights !! i = Some w
                   ∧ pred_tags !! i = Some p ∧ gold_tags !! i = Some g
                   ∧ _get_word_color word w p g = Ok block)
        (seq 0 (length words)) html_blocks.
Proof.
  intros words Hlen Hpred Hgold Hok.
  assert (∀ i, i < length words →
            ∃ word w p g block,
              words !! i = Some word ∧ attn_weights !! i = Some w
              ∧ pred_tags !! i = Some p ∧ gold_tags !! i = Some g
              ∧ _get_word_color word w p g = Ok block
              ∧ html_block words attn_weights pred_tags gold_tags i = Ok block)
    as Hblock.
  { intros i Hi.
    destruct (lookup_lt_is_Some_2 words i Hi) as [word Hword].
    destruct (lookup_lt_is_Some_2 attn_weights i) as [w Hw]; [lia |].
    destruct (lookup_lt_is_Some_2 pred_tags i) as [p Hp]; [lia |].
    destruct (lookup_lt_is_Some_2 gold_tags i) as [g Hg]; [lia |].
    destruct (Hok i w p g Hw Hp Hg) as (Hfin & Hcmp & s & Hs).
    destruct (attn_to_rgb_returns w p g Hfin Hcmp) as [c Hc].
    eexists word, w, p, g, _. repeat split; try eassumption.
    - unfold Webpage._get_word_color. rewrite Hc, Hs. reflexivity.
    - unfold Webpage.html_block, list_get. rewrite Hword, Hw, Hp, Hg.
      cbn [mbind res_bind]. unfold Webpage._get_word_color. rewrite Hc, Hs.
      reflexivity. }
  destruct (mapM_total (html_block words attn_weights pred_tags gold_tags)
              (seq 0 (length words))) as [blocks Hblocks].
  { apply Forall_forall. intros i Hi%elem_of_seq.
    destruct (Hblock i) as (? & ? & ? & ? & block & _ & _ & _ & _ & _ & H);
      [lia | eauto]. }
  exists blocks. split.
  - unfold Webpage.colorize_text. cbv zeta. fold words.
    rewrite decide_False by (intros H; apply H; assumption).
    rewrite Hblocks. reflexivity.
  - apply mapM_ok in Hblocks.
    eapply Forall2_impl_elem; [exact Hblocks |].
    intros i block Hi%elem_of_seq Hb.
    destruct (Hblock i) as (word & w & p & g & block' & ? & ? & ? & ? & ? & H);
      [lia |].
    exists word, w, p, g. rewrite Hb in H. injection H as ->. auto.
Qed.

End ColorizeFacts.

Section PageFacts.
Import Visualizer Webpage.

Variable format_2_2f : num → res string.
Context {Label : Type} `{EqDecision Label}.
Variable str : Label → string.

Abbreviation html_block := (Webpage.html_block format_2_2f).
Abbreviation colorize_text := (Webpage.colorize_text format_2_2f).
Abbreviation prediction_html := (Webpage.prediction_html format_2_2f str).
Abbreviation write_prediction := (Webpage.write_prediction format_2_2f str).
Abbreviation write_predictions := (Webpage.write_predictions format_2_2f str).
Abbreviation first_of := (Webpage.first_of (Label := Label)).

(** X25.  [colorize_text] fails its assertion when the number of words of
    the text differs from the number of weights, and it never returns
    when there are fewer predicted or fewer gold tags than words. *)
Theorem colorize_text_rejects (text : string) (attn_weights : list num)
    (pred_tags gold_tags : list string) :
  let words := Reader.split text in
  (length words ≠ length attn_weights →
   colorize_text text attn_weights pred_tags gold_tags = Raise AssertionError)
  ∧ (length pred_tags < length words ∨ length gold_tags < length words →
     ∃ e, colorize_text text attn_weights pred_tags gold_tags = Raise e).
Proof.
  intros words. unfold Webpage.colorize_text. cbv zeta. fold words. split.
  - intros Hne. now rewrite decide_True.
  - intros Hshort. case_decide as Hlen; [eauto |].
    set (i := length pred_tags `min` length gold_tags).
    destruct (mapM_raises (html_block words attn_weights pred_tags gold_tags)
                (seq 0 (length words)) i) as [e He].
    + apply elem_of_seq. lia.
    + unfold Webpage.html_block, list_get.
      destruct (lookup_lt_is_Some_2 words i) as [word ->]; [lia |].
      destruct (lookup_lt_is_Some_2 attn_weights i) as [w ->]; [lia |].
      cbn [mbind res_bind].
      destruct (pred_tags !! i) as [p |] eqn:Hp; [| eauto].
      cbn [mbind res_bind].
      destruct (gold_tags !! i) as [g |] eqn:Hg; [| eauto].
      apply lookup_lt_Some in Hp. apply lookup_lt_Some in Hg. lia.
    + rewrite He. eauto.
Qed.

Lemma write_prediction_eq (pred : Prediction Label) (f : string) :
  write_prediction pred f
  = match prediction_html pred with
    | Ok e => (f +:+ e, Ok tt)
    | Raise x => (f, Raise x)
    end.
Proof.
  unfold Webpage.write_prediction, Webpage.prediction_html. cbv zeta.
  unfold mbind at 1. unfold io_bind, lift.
  destruct (Webpage.colorize_text _ _ _ _ _); reflexivity.
Qed.

Lemma write_predictions_ok (predictions : list (Prediction Label))
    (entries : list string) (f : string) :
  Forall2 (fun pred e => prediction_html pred = Ok e) predictions entries →
  write_predictions predictions f = (f +:+ foldr String.append "" entries, Ok tt).
Proof.
  intros H. revert f. induction H as [| pred e predictions entries He _ IH];
    intros f; cbn [Webpage.write_predictions foldr].
  - now rewrite str_app_nil_r.
  - unfold mbind, io_bind. rewrite write_prediction_eq, He.
    unfold mbind, io_bind in IH. rewrite IH. now rewrite str_app_assoc.
Qed.

Lemma write_predictions_raise (done : list (Prediction Label))
    (pred : Prediction Label) (rest : list (Prediction Label))
    (entries : list string) (x : exn) (f : string) :
  Forall2 (fun pred e => prediction_html pred = Ok e) done entries →
  prediction_html pred = Raise x →
  write_predictions (done ++ pred :: rest) f
  = (f +:+ foldr String.append "" entries, Raise x).
Proof.
  intros H Hx. revert f. induction H as [| p e done entries He _ IH];
    intros f; cbn [app Webpage.write_predictions foldr].
  - unfold mbind, io_bind. rewrite write_prediction_eq, Hx.
    now rewrite str_app_nil_r.
  - unfold mbind, io_bind. rewrite write_prediction_eq, He.
    unfold mbind, io_bind in IH. rewrite IH. now rewrite str_app_assoc.
Qed.

(** X26.  The page [colorized_predictions_to_webpage] leaves in the file
    [vis_page].  When every prediction can be rendered, the file holds the
    header, the text of every prediction in order, and the footer, and the
    call returns.  When a prediction cannot be rendered, the call raises
    that prediction's exception and the file is left with the header and
    the text of the predictions before it, without the footer. *)
Theorem page_written (predictions : list (Prediction Label))
    (vis_page : string) (fs : gmap string string) :
  (∀ entries,
     Forall2 (fun pred e => prediction_html pred = Ok e) predictions entries →
     colorized_predictions_to_webpage format_2_2f str predictions vis_page fs
     = (<[vis_page := page_header +:+ foldr String.append "" entries
                      +:+ footer]> fs, Ok tt))
  ∧ (∀ done pred rest entries x,
       predictions = done ++ pred :: rest →
       Forall2 (fun pred e => prediction_html pred = Ok e) done entries →
       prediction_html pred = Raise x →
       colorized_predictions_to_webpage format_2_2f str predictions vis_page fs
       = (<[vis_page := page_header +:+ foldr String.append "" entries]> fs,
          Raise x)).
Proof.
  split.
  - intros entries Hall.
    unfold colorized_predictions_to_webpage, with_open_w.
    unfold mbind, io_bind, lift, write. cbn [dict_get]. 
    change (dict_get colors2rgb "purple") with (Ok "#712f79" : res string).
    change (dict_get colors2rgb "brickRed") with (Ok "#d2405f" : res string).
    change (dict_get colors2rgb "yellowGreen") with (Ok "#e0ff4f" : res string).
    cbv iota beta. rewrite str_app_nil.
    pose proof (write_predictions_ok _ _ page_header Hall) as Hw.
    unfold page_header in Hw. rewrite Hw. rewrite <- str_app_assoc. reflexivity.
  - intros done pred rest entries x -> Hall Hx.
    unfold colorized_predictions_to_webpage, with_open_w.
    unfold mbind, io_bind, lift, write.
    change (dict_get colors2rgb "purple") with (Ok "#712f79" : res string).
    change (dict_get colors2rgb "brickRed") with (Ok "#d2405f" : res string).
    change (dict_get colors2rgb "yellowGreen") with (Ok "#e0ff4f" : res string).
    cbv iota beta. rewrite str_app_nil.
    pose proof (write_predictions_raise _ _ rest _ _ page_header Hall Hx) as Hw.
    unfold page_header in Hw. rewrite Hw. reflexivity.
Qed.

End PageFacts.

Section OtherWriters.
Import Visualizer Webpage.

Variable format_2_2f : num → res string.
Context {Label : Type} `{EqDecision Label}.
Variable str : Label → string.

Abbreviation write_prediction := (Webpage.write_prediction format_2_2f str).
Abbreviation write_predictions := (Webpage.write_predictions format_2_2f str).
Abbreviation write_prediction_binary :=
  (Webpage.write_prediction_binary format_2_2f str).
Abbreviation write_predictions_binary :=
  (Webpage.write_predictions_binary format_2_2f str).
Abbreviation first_of := (Webpage.first_of (Label := Label)).

Lemma write_prediction_binary_eq (pred : PredictionBinary Label) (f : string) :
  write_prediction_binary pred f
  = match first_of pred with
    | Ok p => write_prediction p f
    | Raise x => (f, Raise x)
    end.
Proof.
  unfold Webpage.write_prediction_binary, Webpage.first_of,
    Webpage.write_prediction.
  cbv zeta. unfold mbind at 1 2 3. unfold io_bind, lift.
  destruct (list_get (b_attn pred).*2 0) as [a |]; [| reflexivity].
  cbn [mbind res_bind].
  destruct (list_get (b_pred pred) 0) as [p |]; [| reflexivity].
  cbn [mbind res_bind].
  destruct (list_get (b_gold pred) 0) as [g |]; reflexivity.
Qed.

Lemma write_predictions_binary_eq (bpreds : list (PredictionBinary Label))
    (preds : list (Prediction Label)) (f : string) :
  mapM first_of bpreds = Ok preds →
  write_predictions_binary bpreds f = write_predictions preds f.
Proof.
  intros H%mapM_ok. revert f.
  induction H as [| b p bpreds preds Hb _ IH]; intros f; [reflexivity |].
  cbn [Webpage.write_predictions_binary Webpage.write_predictions].
  unfold mbind, io_bind. rewrite write_prediction_binary_eq, Hb.
  destruct (write_prediction p f) as [f' [[] | x]]; [| reflexivity].
  apply IH.
Qed.

(** X27.  [colorized_predictions_to_webpage_binary] writes the page that
    [colorized_predictions_to_webpage] writes for the predictions reduced
    to the weights of their first tag, their first predicted and their
    first gold label; a prediction can be reduced unless its attention
    dictionary, its predicted labels or its gold labels are empty. *)
Theorem binary_page_of_firsts (bpreds : list (PredictionBinary Label))
    (preds : list (Prediction Label)) (vis_page : string)
    (fs : gmap string string) :
  (mapM first_of bpreds = Ok preds →
   colorized_predictions_to_webpage_binary format_2_2f str bpreds vis_page fs
   = colorized_predictions_to_webpage format_2_2f str preds vis_page fs)
  ∧ (∀ pred, (∃ x, first_of pred = Raise x)
             ↔ b_attn pred = [] ∨ b_pred pred = [] ∨ b_gold pred = []).
Proof.
  split.
  - intros Hfirst.
    unfold colorized_predictions_to_webpage_binary,
      colorized_predictions_to_webpage, with_open_w.
    unfold mbind, io_bind, lift, write.
    change (dict_get colors2rgb "purple") with (Ok "#712f79" : res string).
    change (dict_get colors2rgb "brickRed") with (Ok "#d2405f" : res string).
    change (dict_get colors2rgb "yellowGreen") with (Ok "#e0ff4f" : res string).
    cbv iota beta. now rewrite (write_predictions_binary_eq _ _ _ Hfirst).
  - intros pred. unfold Webpage.first_of, list_get.
    destruct (b_attn pred) as [| [t a] attn]; cbn; [split; eauto |].
    destruct (b_pred pred) as [| p ps]; cbn; [split; eauto |].
    destruct (b_gold pred) as [| g gs]; cbn; [split; eauto |].
    split; [intros [x [=]] | intros [[=] | [[=] | [=]]]].
Qed.

(** X28.  The writers for plain text cannot write: [colorized_text_to_webpage]
    always raises [TypeError] ([get_colorized_text_as_html] calls
    [colorize_text] without the two tag lists) and leaves [vis_page] empty;
    [colorized_list_to_webpage] does the same as soon as both its lists
    have an element, and returns with an empty file otherwise. *)
Theorem text_page_writers_fail (vis_page : string) (fs : gmap string string) :
  (∀ text attn_weights,
     ∃ msg, colorized_text_to_webpage text attn_weights vis_page fs
            = (<[vis_page := ""]> fs, Raise (TypeError msg)))
  ∧ (∀ lst_txt lst_attn_weights,
       (lst_txt = [] ∨ lst_attn_weights = [] →
        colorized_list_to_webpage lst_txt lst_attn_weights vis_page fs
        = (<[vis_page := ""]> fs, Ok tt))
       ∧ (lst_txt ≠ [] → lst_attn_weights ≠ [] →
          ∃ msg, colorized_list_to_webpage lst_txt lst_attn_weights vis_page fs
                 = (<[vis_page := ""]> fs, Raise (TypeError msg)))).
Proof.
  split.
  - intros text attn_weights. eexists. reflexivity.
  - intros lst_txt lst_attn_weights. unfold colorized_list_to_webpage. split.
    + intros [-> | ->]; [reflexivity |]. destruct lst_txt; reflexivity.
    + intros Ht Ha. destruct lst_txt as [| t ts]; [congruence |].
      destruct lst_attn_weights as [| a az]; [congruence |].
      eexists. reflexivity.
Qed.

End OtherWriters.

(** ** Concrete instances of the further properties *)

(** *** The reader *)

Lemma sub_digits_number_witness : Reader.sub_digits "2003" = "@0@".
Proof.
  apply (sub_digits_number "2003"); [discriminate | reflexivity].
Defined.

Lemma strip_prefix_span_witness : Visualizer.strip_prefix "B-PER" = "PER".
Proof.
  apply (strip_prefix_span "B" "PER").
  - simpl. split; [discriminate | exact I].
  - simpl. repeat split; discriminate.
Defined.

Lemma read_instance_count_witness :
  (∃ wss,
     Reader.instances_of Examples.run_john = concat wss
     ∧ Forall2 (fun lines ws =>
                  length ws
                  = Reader.window_count (Examples.ner_reader 2 false)
                      (length lines)
                  ∧ ws ≠ [])
         (Reader.sentences Examples.corpus_john) wss)
  ∧ length (Reader.instances_of Examples.run_john)
    = sum_list ((fun lines =>
                   Reader.window_count (Examples.ner_reader 2 false)
                     (length lines))
                  <$> Reader.sentences Examples.corpus_john).
Proof.
  apply (read_instance_count (Examples.ner_reader 2 false) "train.txt"
           Examples.corpus_john Reader.initial Examples.run_john.1).
  exact run_john_returns.
Defined.

Lemma read_unsplit_witness :
  Forall2 (fun lines instance =>
             ∃ toks,
               Reader.zip_star (Reader.fields_of lines) !! 0 = Some toks
               ∧ Reader.tokens instance
                 = Reader.new_token (Examples.ner_reader (-1) false) <$> toks
               ∧ length (Reader.tokens instance) = length lines)
    (Reader.sentences Examples.corpus_john)
    (Reader.instances_of Examples.run_john_unsplit).
Proof.
  apply (read_unsplit (Examples.ner_reader (-1) false) "train.txt"
           Examples.corpus_john Reader.initial Examples.run_john_unsplit.1).
  - simpl. lia.
  - exact run_john_unsplit_returns.
Defined.

Lemma read_no_sentence_witness :
  Reader._read (Examples.ner_reader 2 false) "train.txt"
    Examples.corpus_dividers Reader.initial
  = ({| Reader.heap := [];
        Reader.log := [(Reader.INFO,
                        "Reading instances from lines in file at: train.txt")] |},
     Ok []).
Proof.
  apply (proj1 (read_no_sentence (Examples.ner_reader 2 false) "train.txt"
                  Examples.corpus_dividers Reader.initial)).
  repeat constructor.
Defined.

Lemma read_attn_mask_witness :
  Forall (fun instance =>
            Forall2 (Reader.masks (Examples.ner_reader 2 false))
              (Reader.tokens instance) (Reader.attn_mask instance))
    (Reader.instances_of Examples.run_john).
Proof.
  apply (read_attn_mask (Examples.ner_reader 2 false) "train.txt"
           Examples.corpus_john Reader.initial Examples.run_john.1).
  exact run_john_returns.
Defined.

Lemma read_without_tag_label_witness :
  ∃ s e,
    Reader._read (Examples.reader_with None ∅ "IOB1" 2) "train.txt"
      Examples.corpus_john Reader.initial
    = (s, Raise e).
Proof.
  apply (read_without_tag_label (Examples.reader_with None ∅ "IOB1" 2)
           "train.txt" Examples.corpus_john Reader.initial).
  - reflexivity.
  - vm_compute. discriminate.
Defined.

Lemma run_ner_feature_returns :
  Reader._read (Examples.reader_with (Some "ner") {[ "ner" ]} "IOB1" 2)
    "train.txt" Examples.corpus_john Reader.initial
  = (Examples.run_ner_feature.1,
     Ok (Reader.instances_of Examples.run_ner_feature)).
Proof. vm_compute. reflexivity. Qed.

Lemma read_ner_feature_is_corrected_witness :
  ∃ s1,
    Reader.build (Examples.reader_with (Some "ner") {[ "ner" ]} "IOB1" 2)
      "train.txt" Examples.corpus_john Reader.initial
    = (s1, Ok (Reader.instances_of Examples.run_ner_feature))
    ∧ ∀ instance,
        instance ∈ Reader.instances_of Examples.run_ner_feature →
        Reader.seq_fields instance !! "ner_tags"
        = Reader.seq_fields instance !! "tags"
        ∧ ∃ l,
            Reader.field_labels s1 instance "ner_tags" = Some l
            ∧ Reader.field_labels Examples.run_ner_feature.1 instance
                "ner_tags" = Some (Reader.correct l)
            ∧ Reader.field_labels Examples.run_ner_feature.1 instance "tags"
              = Some (Reader.correct l).
Proof.
  apply (read_ner_feature_is_corrected
           (Examples.reader_with (Some "ner") {[ "ner" ]} "IOB1" 2)
           "train.txt" Examples.corpus_john Reader.initial).
  - reflexivity.
  - apply (bool_decide_unpack _). vm_compute. exact I.
  - exact run_ner_feature_returns.
Defined.

Lemma read_first_tag_not_inside_witness :
  Forall (fun instance =>
            ∃ tags,
              Reader.field_labels Examples.run_john.1 instance "tags"
              = Some tags
              ∧ length tags = length (Reader.tokens instance)
              ∧ tags ≠ []
              ∧ startswith "I-" (Reader.first_tag tags) = false)
    (Reader.instances_of Examples.run_john).
Proof.
  apply Forall_forall.
  apply (read_first_tag_not_inside (Examples.ner_reader 2 false) "train.txt"
           Examples.corpus_john Reader.initial).
  exact run_john_returns.
Defined.

Lemma read_pos_tags_of_long_sentence_witness :
  (∃ s e,
     Reader._read (Examples.reader_with (Some "pos") ∅ "IOB1" 2) "train.txt"
       Examples.corpus_john Reader.initial
     = (s, Raise e))
  ∧ (∀ instances s, ∃ s' msg,
       Reader.read_sentence (Examples.reader_with (Some "pos") ∅ "IOB1" 2)
         "train.txt" Examples.sentence_john instances s
       = (s', Raise (ConfigurationError msg))).
Proof.
  apply (read_pos_tags_of_long_sentence
           (Examples.reader_with (Some "pos") ∅ "IOB1" 2) "train.txt"
           Examples.corpus_john Examples.sentence_john Reader.initial).
  - reflexivity.
  - discriminate.
  - apply (bool_decide_unpack _). vm_compute. exact I.
  - apply (list_elem_of_lookup_2 _ 0). vm_compute. reflexivity.
  - right. vm_compute. reflexivity.
  - simpl. lia.
Defined.

Lemma read_bioul_unavailable_witness :
  ∃ s e,
    Reader._read (Examples.reader_with (Some "ner") ∅ "BIOUL" 2) "train.txt"
      Examples.corpus_john Reader.initial
    = (s, Raise e).
Proof.
  apply (read_bioul_unavailable (Examples.reader_with (Some "ner") ∅ "BIOUL" 2)
           "train.txt" Examples.corpus_john Reader.initial).
  - reflexivity.
  - vm_compute. discriminate.
Defined.

Lemma read_warns_when_splitting_witness :
  Reader.warnings (Reader.log Examples.run_john.1)
  = Reader.warnings (Reader.log Reader.initial)
    ++ ((fun lines =>
           Reader.length_warning (Examples.ner_reader 2 false) "train.txt"
             (length lines))
          <$> filter (Reader.too_long (Examples.ner_reader 2 false))
                (Reader.sentences Examples.corpus_john)).
Proof.
  apply (read_warns_when_splitting (Examples.ner_reader 2 false) "train.txt"
           Examples.corpus_john Reader.initial Examples.run_john.1
           (Reader.instances_of Examples.run_john)).
  exact run_john_returns.
Defined.

Lemma read_returns_witness :
  ∃ s instances,
    Reader._read (Examples.ner_reader 2 false) "train.txt"
      Examples.corpus_john Reader.initial
    = (s, Ok instances).
Proof.
  apply (read_returns (Examples.ner_reader 2 false) "train.txt").
  - reflexivity.
  - discriminate.
  - apply (bool_decide_unpack _). vm_compute. exact I.
  - apply (bool_decide_unpack _). vm_compute. exact I.
Defined.

(** *** The classifier and the pages *)

Lemma decode_returns_witness :
  ∃ d, Classifier.decode (fun x => x) Examples.literal_indexer
         Examples.outputs_demo = Ok d.
Proof.
  apply (decode_returns (fun x => x) Examples.literal_indexer
           Examples.outputs_demo 3).
  unfold Classifier.well_shaped. cbv zeta.
  split; [reflexivity | split; [reflexivity | split; [reflexivity |]]].
  split; [repeat constructor | split; [repeat constructor |]].
  split; [repeat constructor |].
  intros k Hk. simpl in Hk.
  destruct k as [| [| [| k]]]; [eexists; reflexivity .. | lia].
Defined.

Lemma decode_attention_dict_witness :
  ∃ row rows,
    Classifier.mask Examples.outputs_demo !! 1 = Some row
    ∧ Classifier.data3 (Classifier.attentions Examples.outputs_demo) !! 1
      = Some rows
    ∧ Forall2 (Classifier.attention_entry Examples.literal_indexer
                 (Classifier.slice_to (foldr Z.add 0%Z row) rows))
        (seq 0 (Classifier.shape_last
                  (Classifier.attentions Examples.outputs_demo)))
        [("PER", [1.0]); ("LOC", [1.0]); ("ORG", [1.0])]%float
    ∧ ((0 <= foldr Z.add 0%Z row)%Z →
       Forall (fun e => length e.2
                        = Z.to_nat (foldr Z.add 0%Z row) `min` length rows)
         [("PER", [1.0]); ("LOC", [1.0]); ("ORG", [1.0])]%float).
Proof.
  apply (decode_attention_dict (fun x => x) Examples.literal_indexer
           Examples.outputs_demo Examples.decoded_demo 1).
  - reflexivity.
  - reflexivity.
  - intros j k tag Hj Hk. simpl in Hj, Hk.
    destruct j as [| [| [| j]]]; [| | | lia];
      (destruct k as [| [| [| k]]]; [| | | lia]);
      simpl; intros [= <-]; try reflexivity; intros [=].
Defined.

Lemma decode_attention_keys_witness :
  NoDup ([("PER", [1.0]); ("LOC", [1.0]); ("ORG", [1.0])]%float).*1
  ∧ length [("PER", [1.0]); ("LOC", [1.0]); ("ORG", [1.0])]%float ≤ 3.
Proof.
  destruct (decode_attention_keys (fun x => x) Examples.literal_indexer
              Examples.outputs_demo Examples.decoded_demo 1
              [("PER", [1.0]); ("LOC", [1.0]); ("ORG", [1.0])]%float
              eq_refl eq_refl) as (Hnd & Hlen & _).
  split; [exact Hnd | exact Hlen].
Defined.

Lemma call_forward_rejects_unknown_key_witness :
  Classifier.call_forward nat (fun _ => 0) ∅
    {[ "tokens" := Some 1; "attn_mask" := Some 2 ]}
  = ([], Raise Classifier.rejection).
Proof.
  apply (call_forward_rejects_unknown_key (fun _ => 0) ∅
           {[ "tokens" := Some 1; "attn_mask" := Some 2 ]} "attn_mask").
  - eexists. reflexivity.
  - eexists. reflexivity.
  - discriminate.
  - discriminate.
  - discriminate.
Defined.

Lemma colorize_text_returns_witness :
  ∃ html_blocks,
    Webpage.colorize_text Examples.format_sample "John lives"
      [PyFloat 0.5; PyFloat 0.25] ["B-PER"; "O"] ["I-PER"; "O"]
    = Ok (Webpage.join " " html_blocks)
    ∧ Forall2 (fun i block =>
                 ∃ word w p g,
                   Reader.split "John lives" !! i = Some word
                   ∧ [PyFloat 0.5; PyFloat 0.25] !! i = Some w
                   ∧ ["B-PER"; "O"] !! i = Some p
                   ∧ ["I-PER"; "O"] !! i = Some g
                   ∧ Webpage._get_word_color Examples.format_sample word w p g
                     = Ok block)
        (seq 0 (length (Reader.split "John lives"))) html_blocks.
Proof.
  apply (colorize_text_returns Examples.format_sample "John lives"
           [PyFloat 0.5; PyFloat 0.25] ["B-PER"; "O"] ["I-PER"; "O"]).
  - reflexivity.
  - simpl. lia.
  - simpl. lia.
  - intros i w p g Hw Hp Hg.
    destruct i as [| [| i]]; simpl in Hw, Hp, Hg; [| | discriminate].
    + injection Hw as <-. injection Hp as <-. injection Hg as <-.
      split; [reflexivity | split; [left; reflexivity | eexists; reflexivity]].
    + injection Hw as <-. injection Hp as <-. injection Hg as <-.
      split; [reflexivity | split; [left; reflexivity | eexists; reflexivity]].
Defined.

Lemma colorize_text_rejects_witness :
  Webpage.colorize_text Examples.format_sample "John lives" [PyFloat 0.5]
    ["B-PER"; "O"] ["O"; "O"]
  = Raise AssertionError.
Proof.
  apply (proj1 (colorize_text_rejects Examples.format_sample "John lives"
                  [PyFloat 0.5] ["B-PER"; "O"] ["O"; "O"])).
  simpl. lia.
Defined.

Lemma page_written_witness :
  (∃ entry,
     Webpage.colorized_predictions_to_webpage Examples.format_sample
       (fun label => label) [Examples.prediction_john] "visualize.html" ∅
     = ({[ "visualize.html" :=
             Webpage.page_header +:+ (entry +:+ "") +:+ Webpage.footer ]},
        Ok tt))
  ∧ (∃ entry,
       Webpage.colorized_predictions_to_webpage Examples.format_sample
         (fun label => label)
         [Examples.prediction_john; Examples.prediction_short]
         "visualize.html" ∅
       = ({[ "visualize.html" := Webpage.page_header +:+ (entry +:+ "") ]},
          Raise AssertionError)).
Proof.
  split.
  - eexists.
    apply (proj1 (page_written Examples.format_sample (fun label => label)
                    [Examples.prediction_john] "visualize.html" ∅)
             [_]).
    repeat constructor.
  - eexists.
    apply (proj2 (page_written Examples.format_sample (fun label => label)
                    [Examples.prediction_john; Examples.prediction_short]
                    "visualize.html" ∅)
             [Examples.prediction_john] Examples.prediction_short [] [_]).
    + reflexivity.
    + repeat constructor.
    + vm_compute. reflexivity.
Defined.

Lemma binary_page_of_firsts_witness :
  Webpage.colorized_predictions_to_webpage_binary Examples.format_sample
    (fun label => label) [Examples.binary_john] "visualize.html" ∅
  = Webpage.colorized_predictions_to_webpage Examples.format_sample
      (fun label => label) [Examples.prediction_john] "visualize.html" ∅.
Proof.
  apply (proj1 (binary_page_of_firsts Examples.format_sample
                  (fun label => label) [Examples.binary_john]
                  [Examples.prediction_john] "visualize.html" ∅)).
  reflexivity.
Defined.

Lemma text_page_writers_fail_witness :
  ∃ msg,
    Webpage.colorized_list_to_webpage ["John lives"]
      [[PyFloat 0.5; PyFloat 0.25]] "visualize.html" ∅
    = ({[ "visualize.html" := "" ]}, Raise (TypeError msg)).
Proof.
  apply (proj2 (text_page_writers_fail "visualize.html" ∅)
           ["John lives"] [[PyFloat 0.5; PyFloat 0.25]]); discriminate.
Defined.
